(** * Constraint satisfaction: backtracking with consistency levels and
      min-conflicts (csps.py, nreinasCSP.py, sudoku.py)

    A shallow embedding of the solver engine of [csps.py].

    - Variables and values are integers ([Z]), as in both problem classes of
      the repository (n-queens, sudoku).
    - A Python [set] is a [gset]; the order in which Python iterates over a
      set is not fixed by the language, so it is a parameter [enum] of the
      development (any enumeration of the elements), and [pendientes.pop()]
      takes the first pair of a second enumeration [enumP].
    - [csp.D] and [csp.N] are [gmap]s read with the total lookup [!!!]; a
      [KeyError] (a variable missing from [D] or [N]) is a caller error that
      the model does not follow.  Every domain [csp.D[x]] is a set object of
      its own, as [Nreinas] and [Sudoku] build them.
    - The problem object is mutable in Python: every function that mutates it
      returns the new object.
    - [random.choice] reads a list of naturals that stands for the outcomes
      of the generator. *)

From stdpp Require Import gmap sorting.
From Stdlib Require Import ZArith.

(** ** Outcomes *)

Inductive excepcion : Set :=
| IndexError          (* random.choice on an empty sequence *)
| ValueError          (* max / min of an empty sequence *)
| UnboundLocalError.  (* a local variable read before it is bound *)

(** [Devuelve a]: the call returns [a]; [Lanza e]: it raises [e];
    [SinCombustible]: the recursion bound of the model was too small (shown
    below never to happen with the bounds the entry points use). *)
Inductive salida (A : Type) : Type :=
| Devuelve (a : A)
| Lanza (e : excepcion)
| SinCombustible.
Arguments Devuelve {A} a.
Arguments Lanza {A} e.
Arguments SinCombustible {A}.

(** ** The constraint graph (class ProblemaCSP) *)

Record ProblemaCSP : Type := mkCSP {
  X : gset Z;
  D : gmap Z (gset Z);
  N : gmap Z (gset Z);
  backtracking : nat
}.

Definition con_D (csp : ProblemaCSP) (d : gmap Z (gset Z)) : ProblemaCSP :=
  mkCSP (X csp) d (N csp) (backtracking csp).

Definition con_backtracking (csp : ProblemaCSP) (b : nat) : ProblemaCSP :=
  mkCSP (X csp) (D csp) (N csp) b.

(** [csp.backtracking += 1] *)
Definition cuenta (csp : ProblemaCSP) : ProblemaCSP :=
  con_backtracking csp (S (backtracking csp)).

(** ** Builtins *)

(** [max(l, key=key)]: the first element with the largest key. *)
Fixpoint max_desde {A} (key : A → nat) (mejor : A) (l : list A) : A :=
  match l with
  | [] => mejor
  | x :: l' => max_desde key (if key mejor <? key x then x else mejor) l'
  end.

Definition py_max {A} (key : A → nat) (l : list A) : option A :=
  match l with
  | [] => None
  | x :: l' => Some (max_desde key x l')
  end.

(** [min(l, key=key)]: the first element with the smallest key. *)
Fixpoint min_desde {A} (key : A → nat) (mejor : A) (l : list A) : A :=
  match l with
  | [] => mejor
  | x :: l' => min_desde key (if key x <? key mejor then x else mejor) l'
  end.

Definition py_min {A} (key : A → nat) (l : list A) : option A :=
  match l with
  | [] => None
  | x :: l' => Some (min_desde key x l')
  end.

(** [sorted(l, key=key, reverse=True)]: descending keys, and the sort is
    stable (elements with equal keys keep the order they have in [l]). *)
Fixpoint inserta_desc {A} (key : A → nat) (x : A) (l : list A) : list A :=
  match l with
  | [] => [x]
  | y :: l' => if key x <? key y then y :: inserta_desc key x l' else x :: y :: l'
  end.

Fixpoint sorted_reverse {A} (key : A → nat) (l : list A) : list A :=
  match l with
  | [] => []
  | x :: l' => inserta_desc key x (sorted_reverse key l')
  end.

(** [sum(b for ...)] over booleans. *)
Definition cuenta_si {A} (p : A → bool) (l : list A) : nat :=
  length (filter (λ x, p x = true) l).

(** [random.choice(l)]: [None] where Python raises [IndexError], on an
    empty list; otherwise the element at the drawn index.  The generator is
    the list of its future draws. *)
Definition choice {A} (l : list A) (azar : list nat) : option (A * list nat) :=
  match l with
  | [] => None
  | x :: _ => Some (nth (hd 0 azar mod length l) l x, tl azar)
  end.

(** ** Concrete problems and iteration orders *)

(** Ascending order: the order in which CPython iterates over a set of small
    non-negative integers. *)
Definition enum_asc (s : gset Z) : list Z := merge_sort Z.le (elements s).

Definition par_le (p q : Z * Z) : Prop :=
  (p.1 < q.1)%Z ∨ (p.1 = q.1 ∧ (p.2 ≤ q.2)%Z).

Global Instance par_le_dec p q : Decision (par_le p q).
Proof. unfold par_le. apply _. Defined.

(** Lexicographic order on pairs, [pop] takes the least pair. *)
Definition enumP_asc (s : gset (Z * Z)) : list (Z * Z) :=
  merge_sort par_le (elements s).

Definition rango (a : Z) (n : nat) : list Z := (λ i : nat, (a + Z.of_nat i)%Z) <$> seq 0 n.

(** nreinasCSP.py, class Nreinas. *)
Module Nreinas.

Definition restriccion_binaria (x_i v_i x_j v_j : Z) : bool :=
  negb (v_i =? v_j)%Z && negb (Z.abs (v_i - v_j) =? Z.abs (x_i - x_j))%Z.

Definition init (n : nat) : ProblemaCSP :=
  let xs : gset Z := list_to_set (rango 1 n) in
  mkCSP xs
        (list_to_map ((λ x, (x, xs)) <$> rango 1 n))
        (list_to_map ((λ x, (x, xs ∖ {[ x ]})) <$> rango 1 n))
        0.

End Nreinas.

(** sudoku.py, class Sudoku. *)
Module Sudoku.

Definition restriccion_binaria (xi vi xj vj : Z) : bool := negb (vi =? vj)%Z.

(** [set([val]) if val > 0 else set(range(1, 10))] *)
Definition dominio (val : Z) : gset Z :=
  if decide (0 < val)%Z then {[ val ]} else list_to_set (rango 1 9).

(** The condition of the comprehension that builds [N[i]]. *)
Definition es_vecino (i p : Z) : bool :=
  negb (p =? i)%Z
  && ((p / 9 =? i / 9)%Z || (p mod 9 =? i mod 9)%Z
      || ((p / 27 =? i / 27)%Z && ((p mod 9) / 3 =? (i mod 9) / 3)%Z)).

Definition vecinos (i : Z) : gset Z :=
  list_to_set (filter (λ p, es_vecino i p = true) (rango 0 81)).

(** [pos_ini] is the list of the values of the board, 0 for an unknown
    value; [enumerate] numbers its entries from 0. *)
Definition init (pos_ini : list Z) : ProblemaCSP :=
  mkCSP (list_to_set (rango 0 81))
        (list_to_map (imap (λ i val, (Z.of_nat i, dominio val)) pos_ini))
        (list_to_map ((λ i, (i, vecinos i)) <$> rango 0 81))
        0.

End Sudoku.

(** The first board of sudoku.py. *)
Definition s1 : list Z :=
  [0; 0; 3; 0; 2; 0; 6; 0; 0;
   9; 0; 0; 3; 0; 5; 0; 0; 1;
   0; 0; 1; 8; 0; 6; 4; 0; 0;
   0; 0; 8; 1; 0; 2; 9; 0; 0;
   7; 0; 0; 0; 0; 0; 0; 0; 8;
   0; 0; 6; 7; 0; 8; 2; 0; 0;
   0; 0; 2; 6; 0; 9; 5; 0; 0;
   8; 0; 0; 2; 0; 3; 0; 0; 9;
   0; 0; 5; 0; 1; 0; 3; 0; 0]%Z.

(** ** The problems in their own words *)

(** A placement of [n] queens, the queen of column [i] in row [a i]. *)
Definition tablero (n : nat) (a : gmap Z Z) : Prop :=
  dom a = list_to_set (rango 1 n)
  ∧ ∀ i v, a !! i = Some v → (1 ≤ v ≤ Z.of_nat n)%Z.

(** No two queens share a row or a diagonal. *)
Definition sin_ataques (a : gmap Z Z) : Prop :=
  ∀ i j vi vj, a !! i = Some vi → a !! j = Some vj → i ≠ j →
               vi ≠ vj ∧ Z.abs (vi - vj) ≠ Z.abs (i - j).

(** Row and column of a cell of the sudoku board, and the cells of one row,
    one column or one group (docstring of sudoku.py). *)
Definition renglon (i : Z) : Z := (i / 9)%Z.
Definition columna (i : Z) : Z := (i mod 9)%Z.

Definition se_ven (i j : Z) : Prop :=
  renglon i = renglon j ∨ columna i = columna j
  ∨ ((renglon i / 3)%Z = (renglon j / 3)%Z ∧ (columna i / 3)%Z = (columna j / 3)%Z).

(** A filled board: a value for each of the 81 cells, the given value where
    the board gives one, a value from 1 to 9 elsewhere. *)
Definition llena (pos_ini : list Z) (a : gmap Z Z) : Prop :=
  dom a = list_to_set (rango 0 81)
  ∧ ∀ (i : nat) val v, pos_ini !! i = Some val → a !! Z.of_nat i = Some v →
      if decide (0 < val)%Z then v = val else (1 ≤ v ≤ 9)%Z.

(** Two different cells that see each other hold different values. *)
Definition sin_repetidos (a : gmap Z Z) : Prop :=
  ∀ i j vi vj, a !! i = Some vi → a !! j = Some vj → i ≠ j → se_ven i j →
               vi ≠ vj.

(** ** Small instances used in examples *)

(** A graph over the variables [1..n] given by lists of domains and of
    neighbours. *)
Definition grafo (ds ns : list (Z * list Z)) : ProblemaCSP :=
  mkCSP (list_to_set (fst <$> ds))
        (list_to_map ((λ p, (p.1, list_to_set p.2)) <$> ds))
        (list_to_map ((λ p, (p.1, list_to_set p.2)) <$> ns))
        0.

(** The predicate "equal values". *)
Definition mismos_valores (x_i v_i x_j v_j : Z) : bool := bool_decide (v_i = v_j).

(** A chain 1 - 2 - 3 - 4, every domain [{1, 2}]. *)
Definition cadena : ProblemaCSP :=
  grafo [(1, [1; 2]); (2, [1; 2]); (3, [1; 2]); (4, [1; 2])]%Z
        [(1, [2]); (2, [1; 3]); (3, [2; 4]); (4, [3])]%Z.

(** Two neighbours, the second one with an empty domain. *)
Definition con_dominio_vacio : ProblemaCSP :=
  grafo [(1, [1]); (2, [])]%Z [(1, [2]); (2, [1])]%Z.

(** Four variables; 1 is a neighbour of 2, 3 and 4, and 3 of 2 and 4.  The
    relation between [x < y]: 3 takes a value up to 2 next to 1; 2 and 3
    are compatible only with the value 1 for both; 3 and 4 are compatible
    when 3 takes the value 2, or when both take the value 1. *)
Definition relacion_desvio (x vx y vy : Z) : bool :=
  if bool_decide (x = 1 ∧ y = 3)%Z then bool_decide (vy ≤ 2)%Z
  else if bool_decide (x = 2 ∧ y = 3)%Z then bool_decide (vx = 1 ∧ vy = 1)%Z
  else if bool_decide (x = 3 ∧ y = 4)%Z
       then bool_decide (vx = 2 ∨ (vx = 1 ∧ vy = 1))%Z
  else true.

Definition restriccion_desvio (x_i v_i x_j v_j : Z) : bool :=
  if bool_decide (x_i < x_j)%Z then relacion_desvio x_i v_i x_j v_j
  else relacion_desvio x_j v_j x_i v_i.

Definition desvio : ProblemaCSP :=
  grafo [(1, [1]); (2, [1; 2; 3]); (3, [1; 2; 3; 4]); (4, [1; 2; 3])]%Z
        [(1, [2; 3; 4]); (2, [1; 3]); (3, [1; 2; 4]); (4, [1; 3])]%Z.

Section csps.

(** The abstract method [restriccion_binaria(x_i, v_i, x_j, v_j)]. *)
Variable restriccion_binaria : Z → Z → Z → Z → bool.

(** Iteration order of a set of integers, and of the set of pairs
    [pendientes]. *)
Variable enum : gset Z → list Z.
Variable enumP : gset (Z * Z) → list (Z * Z).

(** ** selecciona_variable *)

Definition selecciona_variable (csp : ProblemaCSP) (asg : gmap Z Z) : option Z :=
  if decide (asg = ∅)
  then py_max (λ x, size (N csp !!! x)) (enum (X csp))
  else py_min (λ x, size (D csp !!! x))
              (filter (λ x, asg !! x = None) (enum (X csp))).

(** ** ordena_valores *)

(** The pairs [(x_j, v_j)] of the generator inside [conflictos]. *)
Definition pares_vecinos (csp : ProblemaCSP) (asg : gmap Z Z) (x_i : Z) : list (Z * Z) :=
  x_j ← filter (λ x_j, asg !! x_j = None) (enum (N csp !!! x_i));
  (λ v_j, (x_j, v_j)) <$> enum (D csp !!! x_j).

Definition conflictos (csp : ProblemaCSP) (asg : gmap Z Z) (x_i v_i : Z) : nat :=
  cuenta_si (λ '(x_j, v_j), restriccion_binaria x_i v_i x_j v_j)
            (pares_vecinos csp asg x_i).

Definition ordena_valores (csp : ProblemaCSP) (asg : gmap Z Z) (x_i : Z) : list Z :=
  sorted_reverse (conflictos csp asg x_i) (enum (D csp !!! x_i)).

(** ** consistencia *)

(** [for x in dom_red: csp.D[x].update(dom_red[x])] *)
Definition restaura (d dom_red : gmap Z (gset Z)) : gmap Z (gset Z) :=
  map_fold (λ x quitados d', <[x := d' !!! x ∪ quitados]> d') d dom_red.

(** Level 0: no assigned neighbour of [x_i] is incompatible with [v_i]. *)
Definition compatible_con_asignados (csp : ProblemaCSP) (asg : gmap Z Z)
    (x_i v_i : Z) : bool :=
  forallb (λ '(x_j, v_j),
             negb (bool_decide (x_j ∈ N csp !!! x_i)
                   && negb (restriccion_binaria x_i v_i x_j v_j)))
          (map_to_list asg).

(** Level 1, the loop [for x_j in csp.N[x_i]].  [inl d]: a domain was wiped
    out and [d] is the domain map after the undo; [inr (d, dom_red)]: the loop
    ran to its end. *)
Fixpoint poda_vecinos (asg : gmap Z Z) (x_i v_i : Z) (vecinos : list Z)
    (d dom_red : gmap Z (gset Z))
  : gmap Z (gset Z) + (gmap Z (gset Z) * gmap Z (gset Z)) :=
  match vecinos with
  | [] => inr (d, dom_red)
  | x_j :: resto =>
      if decide (asg !! x_j = None) then
        let val_set : gset Z :=
          list_to_set (filter (λ v_j, restriccion_binaria x_i v_i x_j v_j = false)
                              (enum (d !!! x_j))) in
        let '(d1, dom_red1) :=
          if decide (val_set ≠ ∅)
          then (<[x_j := d !!! x_j ∖ val_set]> d, <[x_j := val_set]> dom_red)
          else (d, dom_red) in
        if decide (d1 !!! x_j = ∅)
        then inl (restaura d1 dom_red1)
        else poda_vecinos asg x_i v_i resto d1 dom_red1
      else poda_vecinos asg x_i v_i resto d dom_red
  end.

(** Level 2: the initial worklist. *)
Definition pendientes_iniciales (csp : ProblemaCSP) (asg : gmap Z Z) : gset (Z * Z) :=
  list_to_set (x_i ← filter (λ x, asg !! x = None) (enum (X csp));
               (λ x_j, (x_i, x_j)) <$>
                 filter (λ x, asg !! x = None) (enum (N csp !!! x_i))).

(** The values of [x_a] without support in the domain of [x_b]. *)
Definition sin_soporte (d : gmap Z (gset Z)) (x_a x_b : Z) : gset Z :=
  list_to_set
    (filter (λ v_a, existsb (λ v_b, restriccion_binaria x_a v_a x_b v_b)
                            (enum (d !!! x_b)) = false)
            (enum (d !!! x_a))).

(** The pairs added to the worklist after a revision of [x_a]. *)
Definition reencola (csp : ProblemaCSP) (asg : gmap Z Z) (x_a : Z) : gset (Z * Z) :=
  list_to_set ((λ x_j, (x_a, x_j)) <$>
                 filter (λ x, asg !! x = None) (enum (N csp !!! x_a))).

(** The loop [while pendientes]. *)
Fixpoint arco_consistencia (n : nat) (csp : ProblemaCSP) (asg : gmap Z Z)
    (pendientes : gset (Z * Z)) (d dom_red : gmap Z (gset Z))
  : salida (gmap Z (gset Z) + (gmap Z (gset Z) * gmap Z (gset Z))) :=
  match n with
  | 0 => SinCombustible
  | S n' =>
      match head (enumP pendientes) with
      | None => Devuelve (inr (d, dom_red))
      | Some (x_a, x_b) =>
          let pendientes1 := pendientes ∖ {[ (x_a, x_b) ]} in
          let val_set := sin_soporte d x_a x_b in
          if decide (val_set ≠ ∅) then
            let dom_red1 := <[x_a := default ∅ (dom_red !! x_a) ∪ val_set]> dom_red in
            let d1 := <[x_a := d !!! x_a ∖ val_set]> d in
            if decide (d1 !!! x_a = ∅)
            then Devuelve (inl (restaura d1 dom_red1))
            else arco_consistencia n' csp asg (pendientes1 ∪ reencola csp asg x_a)
                                   d1 dom_red1
          else arco_consistencia n' csp asg pendientes1 d dom_red
      end
  end.

(** Number of ordered pairs of neighbours, and of values in all domains. *)
Definition arcos (csp : ProblemaCSP) : gset (Z * Z) :=
  list_to_set (x ← elements (X csp); (λ y, (x, y)) <$> elements (N csp !!! x)).

Definition num_arcos (csp : ProblemaCSP) : nat := size (arcos csp).

Definition num_valores (csp : ProblemaCSP) (d : gmap Z (gset Z)) : nat :=
  sum_list ((λ x, size (d !!! x)) <$> elements (X csp)).

(** A bound on the number of iterations of the loop of level 2. *)
Definition cota_arcos (csp : ProblemaCSP) (d : gmap Z (gset Z)) : nat :=
  S (S (num_valores csp d) * S (num_arcos csp)).

(** [consistencia(csp, asg, x_i, v_i, consistencia)]: the reversal record
    [Some dom_red], or [None], with the problem after the call. *)
Definition consistencia (csp : ProblemaCSP) (asg : gmap Z Z) (x_i v_i : Z)
    (nivel : nat) : salida (option (gmap Z (gset Z)) * ProblemaCSP) :=
  if compatible_con_asignados csp asg x_i v_i then
    let dom_red0 : gmap Z (gset Z) := {[ x_i := D csp !!! x_i ∖ {[ v_i ]} ]} in
    let d0 := <[x_i := {[ v_i ]}]> (D csp) in
    let r1 := if decide (1 ≤ nivel)
              then poda_vecinos asg x_i v_i (enum (N csp !!! x_i)) d0 dom_red0
              else inr (d0, dom_red0) in
    match r1 with
    | inl d' => Devuelve (None, con_D csp d')
    | inr (d1, dom_red1) =>
        if decide (nivel = 2) then
          match arco_consistencia (cota_arcos csp d1) csp asg
                  (pendientes_iniciales csp asg) d1 dom_red1 with
          | Devuelve (inl d') => Devuelve (None, con_D csp d')
          | Devuelve (inr (d2, dom_red2)) => Devuelve (Some dom_red2, con_D csp d2)
          | Lanza e => Lanza e
          | SinCombustible => SinCombustible
          end
        else Devuelve (Some dom_red1, con_D csp d1)
    end
  else Devuelve (None, csp).

(** ** asignacion_grafo_restriccion *)

(** The loop [for val in ordena_valores(csp, asignacion, var)]; [rec] is the
    recursive call of [asignacion_grafo_restriccion]. *)
Fixpoint prueba_valores
    (rec : ProblemaCSP → gmap Z Z → salida (option (gmap Z Z) * ProblemaCSP))
    (asg : gmap Z Z) (var : Z) (consist : nat) (vals : list Z)
    (csp : ProblemaCSP) : salida (option (gmap Z Z) * ProblemaCSP) :=
  match vals with
  | [] => Devuelve (None, cuenta csp)
  | val :: resto =>
      match consistencia csp asg var val consist with
      | Devuelve (None, csp1) =>
          prueba_valores rec asg var consist resto (cuenta csp1)
      | Devuelve (Some dominio_reducido, csp1) =>
          match rec csp1 (<[var := val]> asg) with
          | Devuelve (apn, csp2) =>
              let csp3 := con_D csp2 (restaura (D csp2) dominio_reducido) in
              match apn with
              | Some a => Devuelve (Some a, csp3)
              | None => prueba_valores rec asg var consist resto csp3
              end
          | Lanza e => Lanza e
          | SinCombustible => SinCombustible
          end
      | Lanza e => Lanza e
      | SinCombustible => SinCombustible
      end
  end.

(** [n] bounds the depth of the recursion. *)
Fixpoint asignacion_grafo_restriccion (n : nat) (consist : nat)
    (csp : ProblemaCSP) (asignacion : gmap Z Z)
  : salida (option (gmap Z Z) * ProblemaCSP) :=
  match n with
  | 0 => SinCombustible
  | S n' =>
      if decide (dom asignacion = X csp) then Devuelve (Some asignacion, csp)
      else
        match selecciona_variable csp asignacion with
        | None => Lanza ValueError
        | Some var =>
            prueba_valores (asignacion_grafo_restriccion n' consist)
              asignacion var consist (ordena_valores csp asignacion var) csp
        end
  end.

(** [asignacion_completa(csp, consistencia)]; the recursion is at most one
    level deeper than the number of variables. *)
Definition asignacion_completa (csp : ProblemaCSP) (consistencia : nat)
  : salida (option (gmap Z Z) * ProblemaCSP) :=
  asignacion_grafo_restriccion (S (size (X csp))) consistencia
    (con_backtracking csp 0) ∅.

(** ** minimos_conflictos *)

(** [{x: choice(list(csp.D[x])) for x in csp.X}], variable after variable;
    [None] when a [choice] raises [IndexError]. *)
Fixpoint asignacion_aleatoria (csp : ProblemaCSP) (xs : list Z)
    (asign : gmap Z Z) (azar : list nat) : option (gmap Z Z * list nat) :=
  match xs with
  | [] => Some (asign, azar)
  | x :: xs' =>
      match choice (enum (D csp !!! x)) azar with
      | Some (v, azar') => asignacion_aleatoria csp xs' (<[x := v]> asign) azar'
      | None => None
      end
  end.

(** [sum(not csp.restriccion_binaria(x, v, x_j, asign[x_j]) for x_j in csp.N[x])] *)
Definition conflictos_de (csp : ProblemaCSP) (asign : gmap Z Z) (x v : Z) : nat :=
  cuenta_si (λ x_j, negb (restriccion_binaria x v x_j (asign !!! x_j)))
            (enum (N csp !!! x)).

(** The dictionary [conflictos] of one iteration, in the order of its keys. *)
Definition tabla_conflictos (csp : ProblemaCSP) (asign : gmap Z Z) : list (Z * nat) :=
  (λ x, (x, conflictos_de csp asign x (asign !!! x))) <$> enum (X csp).

Definition total_conflictos (csp : ProblemaCSP) (asign : gmap Z Z) : nat :=
  sum_list (snd <$> tabla_conflictos csp asign).

(** The local variables of [minimos_conflictos]; [repeticiones] is [None]
    as long as the name is not bound.  [1e10] is the integer [10^10]. *)
Record estado : Type := mkEstado {
  asign : gmap Z Z;
  min_conflictos : Z;
  repeticiones : option nat;
  azar : list nat
}.

Definition infinito : Z := 10000000000.

Inductive paso : Type :=
| Termina (a : gmap Z Z)     (* [return asign] *)
| Sigue (st : estado)        (* next iteration *)
| Falla (e : excepcion).

(** The repair step, from [x = choice(...)] to [asign[x] = v]. *)
Definition repara (csp : ProblemaCSP) (st : estado) : paso :=
  match choice (fst <$> filter (λ xc, 0 < snd xc) (tabla_conflictos csp (asign st)))
               (azar st) with
  | Some (x, azar') =>
      match py_min (λ v, conflictos_de csp (asign st) x v) (enum (D csp !!! x)) with
      | Some v => Sigue (mkEstado (<[x := v]> (asign st)) (min_conflictos st)
                                  (repeticiones st) azar')
      | None => Falla ValueError
      end
  | None => Falla IndexError
  end.

(** The body of the loop [for _ in range(max_iter)]. *)
Definition iteracion (csp : ProblemaCSP) (paciencia : nat) (st : estado) : paso :=
  let actual := total_conflictos csp (asign st) in
  if decide (actual = 0) then Termina (asign st)
  else if decide (Z.of_nat actual < min_conflictos st)%Z then
    repara csp (mkEstado (asign st) (Z.of_nat actual) (Some 0) (azar st))
  else if decide (Z.of_nat actual = min_conflictos st) then
    match repeticiones st with
    | None => Falla UnboundLocalError
    | Some r =>
        if decide (paciencia < S r) then
          match asignacion_aleatoria csp (enum (X csp)) ∅ (azar st) with
          | Some (a, azar') => Sigue (mkEstado a infinito (Some 0) azar')
          | None => Falla IndexError
          end
        else repara csp (mkEstado (asign st) (min_conflictos st) (Some (S r)) (azar st))
    end
  else repara csp st.

Fixpoint bucle (csp : ProblemaCSP) (paciencia : nat) (max_iter : nat) (st : estado)
  : salida (option (gmap Z Z)) :=
  match max_iter with
  | 0 => Devuelve None
  | S n =>
      match iteracion csp paciencia st with
      | Termina a => Devuelve (Some a)
      | Sigue st' => bucle csp paciencia n st'
      | Falla e => Lanza e
      end
  end.

Definition minimos_conflictos (csp : ProblemaCSP) (max_iter paciencia : nat)
    (azar : list nat) : salida (option (gmap Z Z)) :=
  match asignacion_aleatoria csp (enum (X csp)) ∅ azar with
  | Some (a, azar') => bucle csp paciencia max_iter (mkEstado a infinito None azar')
  | None => Lanza IndexError
  end.

(** ** Vocabulary of the properties *)

(** The maps [D] and [N] have an entry for every variable, and the
    neighbours of a variable are variables: no lookup of the solvers can
    raise [KeyError]. *)
Definition definido (csp : ProblemaCSP) : Prop :=
  set_Forall (λ x, is_Some (D csp !! x) ∧ is_Some (N csp !! x)
                   ∧ N csp !!! x ⊆ X csp) (X csp).

(** Neighbours are variables, no variable is its own neighbour, and the
    neighbour relation is symmetric. *)
Definition vecindad (csp : ProblemaCSP) : Prop :=
  set_Forall (λ x, N csp !!! x ⊆ X csp
                   ∧ x ∉ N csp !!! x
                   ∧ set_Forall (λ y, x ∈ N csp !!! y) (N csp !!! x)) (X csp).

(** A constraint graph. *)
Definition bien_formado (csp : ProblemaCSP) : Prop :=
  definido csp ∧ vecindad csp.

(** The predicate does not depend on the order of its two sides. *)
Definition simetrica : Prop :=
  ∀ x_i v_i x_j v_j,
    restriccion_binaria x_i v_i x_j v_j = restriccion_binaria x_j v_j x_i v_i.

(** [registra d0 d r]: the record [r] holds what was removed from [d0] to
    reach [d]. *)
Definition registra (d0 d r : gmap Z (gset Z)) : Prop :=
  ∀ x, match r !! x with
       | None => d !! x = d0 !! x
       | Some q => ∃ s, d !! x = Some s ∧ d0 !! x = Some (s ∪ q)
       end.

(** Every ordered pair of neighbours with assigned values is compatible. *)
Definition consistente (vecinos : gmap Z (gset Z)) (a : gmap Z Z) : Prop :=
  ∀ x y vx vy, a !! x = Some vx → a !! y = Some vy → y ∈ vecinos !!! x →
               restriccion_binaria x vx y vy = true.

Definition en_dominios (d : gmap Z (gset Z)) (a : gmap Z Z) : Prop :=
  ∀ x v, a !! x = Some v → v ∈ d !!! x.

(** A complete assignment, with values from the domains, that satisfies
    every constraint. *)
Definition solucion (csp : ProblemaCSP) (a : gmap Z Z) : Prop :=
  dom a = X csp ∧ en_dominios (D csp) a ∧ consistente (N csp) a.

(** [csp'] is [csp] up to the backtrack counter. *)
Definition mismo_grafo (csp csp' : ProblemaCSP) : Prop :=
  X csp' = X csp ∧ N csp' = N csp ∧ D csp' = D csp.

(** What a call that starts from the assignment [asg] has to return. *)
Definition resultado_correcto (variables : gset Z) (d vecinos : gmap Z (gset Z))
    (asg : gmap Z Z) (apn : option (gmap Z Z)) : Prop :=
  match apn with
  | Some a =>
      asg ⊆ a ∧ dom a = variables
      ∧ (∀ x v, a !! x = Some v → asg !! x = Some v ∨ v ∈ d !!! x)
      ∧ (simetrica → consistente vecinos asg → consistente vecinos a)
  | None =>
      ∀ a, asg ⊆ a → dom a = variables → en_dominios d a →
           consistente vecinos a → False
  end.

(** Total degree: a bound on the number of conflicts. *)
Definition grado_total (csp : ProblemaCSP) : nat :=
  sum_list ((λ x, size (N csp !!! x)) <$> enum (X csp)).

(** The state after [k] iterations that all went on to the next one. *)
Fixpoint corre (csp : ProblemaCSP) (paciencia k : nat) (st : estado) : option estado :=
  match k with
  | 0 => Some st
  | S k' =>
      match iteracion csp paciencia st with
      | Sigue st' => corre csp paciencia k' st'
      | _ => None
      end
  end.

(** The invariant of the loop. *)
Definition estado_ok (csp : ProblemaCSP) (st : estado) : Prop :=
  dom (asign st) = X csp ∧ en_dominios (D csp) (asign st).

(** [repeticiones] is unbound only as long as [min_conflictos] has its
    initial value. *)
Definition estado_vivo (st : estado) : Prop :=
  repeticiones st = None → min_conflictos st = infinito.

(** The violations of the value [v_i] of [x_i] counted along the pairs that
    the generator of [conflictos] yields; [violaciones_num] below shows that
    it is [num_violaciones]. *)
Definition violaciones (csp : ProblemaCSP) (asg : gmap Z Z) (x_i v_i : Z) : nat :=
  cuenta_si (λ '(x_j, v_j), negb (restriccion_binaria x_i v_i x_j v_j))
            (pares_vecinos csp asg x_i).

(** The heuristic in its own words, on sets and with no iteration order:
    the pairs of an unassigned neighbour of [x_i] and a value of the domain
    of that neighbour, and the number of those pairs that the value [v_i] of
    [x_i] violates. *)
Definition pares_en_juego (csp : ProblemaCSP) (asg : gmap Z Z) (x_i : Z)
  : gset (Z * Z) :=
  set_bind (λ x_j : Z, set_map (λ v_j : Z, (x_j, v_j)) (D csp !!! x_j))
           (filter (λ x_j, asg !! x_j = None) (N csp !!! x_i)).

Definition num_violaciones (csp : ProblemaCSP) (asg : gmap Z Z) (x_i v_i : Z)
  : nat :=
  size (filter (λ p : Z * Z, restriccion_binaria x_i v_i p.1 p.2 = false)
               (pares_en_juego csp asg x_i)).

(** No value of the record [r] is still in the domains [d]. *)
Definition disjunto (d r : gmap Z (gset Z)) : Prop :=
  ∀ x q, r !! x = Some q → q ## d !!! x.

(** The value [va] of [a] has a support in the domain that [d] gives to [b]. *)
Definition soportado (d : gmap Z (gset Z)) (a va b : Z) : Prop :=
  ∃ vb, vb ∈ d !!! b ∧ restriccion_binaria a va b vb = true.

(** A state of the loop of [minimos_conflictos]: four queens, all in row 1. *)
Definition cuatro_en_fila : estado :=
  mkEstado (list_to_map [(1, 1); (2, 1); (3, 1); (4, 1)]%Z) 12 (Some 0) [2; 7].

(** The ordered pairs of neighbours whose values under [a] violate the
    predicate, and the neighbours of [x] in conflict with the value [w]. *)
Definition violados (csp : ProblemaCSP) (a : gmap Z Z) : gset (Z * Z) :=
  filter (λ p, restriccion_binaria p.1 (a !!! p.1) p.2 (a !!! p.2) = false)
         (arcos csp).

Definition en_conflicto (csp : ProblemaCSP) (a : gmap Z Z) (x w : Z) : gset Z :=
  filter (λ y, restriccion_binaria x w y (a !!! y) = false) (N csp !!! x).

(** ** The script of nreinasCSP.py *)

(** What [prueba_reinas] prints, the list [[asig[i] for i in range(1, n + 1)]]
    and the counter, or how it stops. *)
Inductive impresion : Type :=
| Imprime (filas : list Z) (backtrackings : nat)
| ErrorDeTipo     (* TypeError: [asig] is [None] and is subscripted *)
| ErrorDeLlave    (* KeyError: a column without a value *)
| Interrumpida.   (* the search did not return *)

(** [prueba_reinas(n, consistencia)]; [problema] is the object [Nreinas(n)]
    of its first line. *)
Definition prueba_reinas (problema : ProblemaCSP) (n consistencia : nat)
  : impresion :=
  match asignacion_completa problema consistencia with
  | Devuelve (Some asig, problema') =>
      match mapM (λ i, asig !! i) (rango 1 n) with
      | Some filas => Imprime filas (backtracking problema')
      | None => ErrorDeLlave
      end
  | Devuelve (None, _) => ErrorDeTipo
  | _ => Interrumpida
  end.

(** ** The dictionary [asignacion], mutated in place *)

(** [asignacion_grafo_restriccion] with the dictionary [asignacion] as a
    piece of state: [asignacion[var] = val] before the recursive call,
    [del asignacion[var]] after a failed one, nothing after a successful one.
    The third component of the result is the dictionary after the call. *)
Fixpoint prueba_valores_dict
    (rec : ProblemaCSP → gmap Z Z →
           salida (option (gmap Z Z) * ProblemaCSP * gmap Z Z))
    (var : Z) (consist : nat) (vals : list Z)
    (csp : ProblemaCSP) (asignacion : gmap Z Z)
  : salida (option (gmap Z Z) * ProblemaCSP * gmap Z Z) :=
  match vals with
  | [] => Devuelve (None, cuenta csp, asignacion)
  | val :: resto =>
      match consistencia csp asignacion var val consist with
      | Devuelve (None, csp1) =>
          prueba_valores_dict rec var consist resto (cuenta csp1) asignacion
      | Devuelve (Some dominio_reducido, csp1) =>
          match rec csp1 (<[var := val]> asignacion) with
          | Devuelve (apn, csp2, asignacion2) =>
              let csp3 := con_D csp2 (restaura (D csp2) dominio_reducido) in
              match apn with
              | Some a => Devuelve (Some a, csp3, asignacion2)
              | None =>
                  prueba_valores_dict rec var consist resto csp3
                    (delete var asignacion2)
              end
          | Lanza e => Lanza e
          | SinCombustible => SinCombustible
          end
      | Lanza e => Lanza e
      | SinCombustible => SinCombustible
      end
  end.

Fixpoint asignacion_grafo_restriccion_dict (n : nat) (consist : nat)
    (csp : ProblemaCSP) (asignacion : gmap Z Z)
  : salida (option (gmap Z Z) * ProblemaCSP * gmap Z Z) :=
  match n with
  | 0 => SinCombustible
  | S n' =>
      if decide (dom asignacion = X csp)
      then Devuelve (Some asignacion, csp, asignacion)
      else
        match selecciona_variable csp asignacion with
        | None => Lanza ValueError
        | Some var =>
            prueba_valores_dict (asignacion_grafo_restriccion_dict n' consist)
              var consist (ordena_valores csp asignacion var) csp asignacion
        end
  end.

(** A result of the search together with the dictionary it leaves: the
    returned assignment after a success, the dictionary of the caller
    otherwise. *)
Definition con_diccionario (asignacion : gmap Z Z)
    (res : salida (option (gmap Z Z) * ProblemaCSP))
  : salida (option (gmap Z Z) * ProblemaCSP * gmap Z Z) :=
  match res with
  | Devuelve (apn, csp') => Devuelve (apn, csp', default asignacion apn)
  | Lanza e => Lanza e
  | SinCombustible => SinCombustible
  end.

(** ** Assumptions on the iteration orders *)

(** An iteration over a set visits every element once. *)
Hypothesis enum_perm : ∀ s, enum s ≡ₚ elements s.
Hypothesis enumP_perm : ∀ s, enumP s ≡ₚ elements s.

(** The solvers of stdpp look at every hypothesis; these variants first
    drop the assumptions of the section that the goal does not mention. *)
Ltac limpia :=
  try clear enumP_perm; try clear enum_perm;
  try clear enumP; try clear enum; try clear restriccion_binaria.
Ltac conjuntos := limpia; set_solver.
Ltac logica := limpia; naive_solver.

Lemma elem_of_enum s x : x ∈ enum s ↔ x ∈ s.
Proof. rewrite enum_perm. apply elem_of_elements. Qed.

Lemma NoDup_enum s : NoDup (enum s).
Proof. rewrite enum_perm. apply NoDup_elements. Qed.

Lemma length_enum s : length (enum s) = size s.
Proof. by rewrite enum_perm. Qed.

Lemma elem_of_enumP s p : p ∈ enumP s ↔ p ∈ s.
Proof. rewrite enumP_perm. apply elem_of_elements. Qed.

Lemma head_enumP s p : head (enumP s) = Some p → p ∈ s.
Proof.
  intros H. apply elem_of_enumP. destruct (enumP s); simplify_eq/=. left.
Qed.

(** ** The reversal record *)

Lemma lookup_total_eq (d d' : gmap Z (gset Z)) x :
  d !! x = d' !! x → d !!! x = d' !!! x.
Proof. intros H. by rewrite !lookup_total_alt, H. Qed.

Lemma lookup_total_elem (d : gmap Z (gset Z)) x v :
  v ∈ d !!! x → d !! x = Some (d !!! x).
Proof.
  rewrite lookup_total_alt. destruct (d !! x); simpl; [done|].
  intros H. by apply not_elem_of_empty in H.
Qed.

Lemma lookup_total_no_vacio (d : gmap Z (gset Z)) x :
  d !!! x ≠ ∅ → d !! x = Some (d !!! x).
Proof. rewrite lookup_total_alt. by destruct (d !! x). Qed.

Lemma restaura_lookup d r x :
  restaura d r !! x =
  match r !! x with
  | Some q => Some (d !!! x ∪ q)
  | None => d !! x
  end.
Proof.
  unfold restaura.
  apply (map_fold_weak_ind (λ res m,
    res !! x = match m !! x with Some q => Some (d !!! x ∪ q) | None => d !! x end)).
  - by rewrite lookup_empty.
  - intros i q m res Hi IH. destruct (decide (x = i)) as [->|Hne].
    + rewrite !lookup_insert_eq. rewrite Hi in IH.
      by rewrite (lookup_total_eq _ _ _ IH).
    + by rewrite !lookup_insert_ne.
Qed.

Lemma registra_restaura d0 d r : registra d0 d r → restaura d r = d0.
Proof.
  intros H. apply map_eq. intros x. rewrite restaura_lookup.
  specialize (H x). destruct (r !! x); [|done].
  destruct H as (s & Hd & H0). by rewrite H0, (lookup_total_correct _ _ _ Hd).
Qed.

Lemma registra_sub d0 d r x : registra d0 d r → d !!! x ⊆ d0 !!! x.
Proof.
  intros H. specialize (H x). destruct (r !! x).
  - destruct H as (s & Hd & H0).
    rewrite (lookup_total_correct _ _ _ Hd), (lookup_total_correct _ _ _ H0).
    conjuntos.
  - by rewrite (lookup_total_eq _ _ _ H).
Qed.

Lemma registra_inicial (d : gmap Z (gset Z)) x v :
  v ∈ d !!! x → registra d (<[x := {[ v ]}]> d) {[ x := d !!! x ∖ {[ v ]} ]}.
Proof.
  intros Hv y. destruct (decide (y = x)) as [->|Hne].
  - rewrite lookup_singleton_eq. exists {[ v ]}. split; [by rewrite lookup_insert_eq|].
    rewrite (lookup_total_elem _ _ _ Hv). f_equal. apply set_eq. intros w.
    rewrite elem_of_union, elem_of_difference, elem_of_singleton.
    destruct (decide (w = v)); logica.
  - rewrite lookup_singleton_ne by done. by rewrite lookup_insert_ne.
Qed.

Lemma registra_quita d0 d r x (vs : gset Z) :
  registra d0 d r → vs ⊆ d !!! x → vs ≠ ∅ →
  registra d0 (<[x := d !!! x ∖ vs]> d) (<[x := default ∅ (r !! x) ∪ vs]> r).
Proof.
  intros H Hsub Hne y. destruct (decide (y = x)) as [->|Hyx].
  - rewrite !lookup_insert_eq. eexists; split; [done|].
    assert (d !!! x ≠ ∅) as Hd by conjuntos.
    apply lookup_total_no_vacio in Hd.
    specialize (H x). destruct (r !! x) as [q|]; simpl.
    + destruct H as (s & Hs & H0). rewrite H0. f_equal.
      rewrite (lookup_total_correct _ _ _ Hs) in Hsub |- *.
      apply set_eq. intros w.
      rewrite !elem_of_union, elem_of_difference.
      destruct (decide (w ∈ vs)); conjuntos.
    + rewrite <- H, Hd. f_equal. apply set_eq. intros w.
      rewrite !elem_of_union, elem_of_difference.
      destruct (decide (w ∈ vs)); conjuntos.
  - rewrite !lookup_insert_ne by done. apply H.
Qed.

Lemma filtrado_sub (P : Z → Prop) `{!∀ v, Decision (P v)} (s : gset Z) :
  (list_to_set (filter P (enum s)) : gset Z) ⊆ s.
Proof.
  intros v. rewrite elem_of_list_to_set, list_elem_of_filter, elem_of_enum. tauto.
Qed.

Lemma sin_soporte_sub d x_a x_b : sin_soporte d x_a x_b ⊆ d !!! x_a.
Proof. apply filtrado_sub. Qed.

Lemma poda_vecinos_registra asg x_i v_i vecinos d r d0 :
  registra d0 d r → NoDup vecinos → (∀ y, y ∈ vecinos → r !! y = None) →
  match poda_vecinos asg x_i v_i vecinos d r with
  | inl d' => d' = d0
  | inr (d', r') => registra d0 d' r'
  end.
Proof.
  revert d r. induction vecinos as [|x_j resto IH]; intros d r Hreg Hnd Hfresh; simpl.
  { done. }
  apply NoDup_cons in Hnd as [Hnotin Hnd].
  destruct (decide (asg !! x_j = None)); [|apply IH; conjuntos].
  set (vs := list_to_set _).
  assert (vs ⊆ d !!! x_j) as Hsub by apply filtrado_sub.
  assert (r !! x_j = None) as Hr by (apply Hfresh; left).
  destruct (decide (vs ≠ ∅)) as [Hvs|Hvs].
  - assert (registra d0 (<[x_j := d !!! x_j ∖ vs]> d) (<[x_j := vs]> r)) as Hreg'.
    { pose proof (registra_quita _ _ _ x_j vs Hreg Hsub Hvs) as H.
      rewrite Hr in H. simpl in H. by rewrite (left_id_L ∅ union) in H. }
    destruct (decide (_ = ∅)); [by apply registra_restaura|].
    apply IH; [done|done|]. intros y Hy.
    rewrite lookup_insert_ne by (intros ->; done). apply Hfresh. by right.
  - destruct (decide (_ = ∅)); [by apply registra_restaura|].
    apply IH; [done|done|]. intros y Hy. apply Hfresh. by right.
Qed.

Lemma arco_consistencia_registra n csp asg pend d r d0 :
  registra d0 d r →
  match arco_consistencia n csp asg pend d r with
  | Devuelve (inl d') => d' = d0
  | Devuelve (inr (d', r')) => registra d0 d' r'
  | _ => True
  end.
Proof.
  revert pend d r. induction n as [|n IH]; intros pend d r Hreg; simpl; [done|].
  destruct (head (enumP pend)) as [[x_a x_b]|]; [|done].
  destruct (decide (sin_soporte d x_a x_b ≠ ∅)) as [Hvs|Hvs]; [|by apply IH].
  pose proof (registra_quita _ _ _ x_a _ Hreg (sin_soporte_sub d x_a x_b) Hvs) as Hreg'.
  destruct (decide (_ = ∅)); [by apply registra_restaura|by apply IH].
Qed.

Lemma con_D_id csp : con_D csp (D csp) = csp.
Proof. by destruct csp. Qed.

(** What a call of [consistencia] leaves behind: on failure the problem is
    the one before the call, on success the record holds every removal. *)
Lemma consistencia_registra csp asg x_i v_i nivel :
  v_i ∈ D csp !!! x_i → x_i ∉ N csp !!! x_i →
  match consistencia csp asg x_i v_i nivel with
  | Devuelve (None, csp') => csp' = csp
  | Devuelve (Some r, csp') =>
      registra (D csp) (D csp') r ∧ csp' = con_D csp (D csp')
  | _ => True
  end.
Proof.
  intros Hv Hirr. unfold consistencia.
  destruct (compatible_con_asignados csp asg x_i v_i); [|done].
  pose proof (registra_inicial (D csp) x_i v_i Hv) as H0.
  set (r1 := if decide (1 ≤ nivel) then _ else _).
  assert (match r1 with inl d' => d' = D csp | inr (d', r') => registra (D csp) d' r' end)
    as H1.
  { unfold r1. destruct (decide (1 ≤ nivel)); [|done].
    apply poda_vecinos_registra; [done|apply NoDup_enum|].
    intros y Hy. apply lookup_singleton_ne. intros ->. by apply elem_of_enum in Hy. }
  destruct r1 as [d'|[d1 dom_red1]].
  { subst d'. by rewrite con_D_id. }
  destruct (decide (nivel = 2)); [|done].
  pose proof (arco_consistencia_registra (cota_arcos csp d1) csp asg
                (pendientes_iniciales csp asg) d1 dom_red1 (D csp) H1) as H2.
  destruct (arco_consistencia _ _ _ _ _ _) as [[d'|[d2 dom_red2]]| |]; try done.
  subst d'. by rewrite con_D_id.
Qed.

(** ** The loop of level 2 terminates *)

Lemma elem_of_arcos csp x y : (x, y) ∈ arcos csp ↔ x ∈ X csp ∧ y ∈ N csp !!! x.
Proof.
  unfold arcos. rewrite elem_of_list_to_set, list_elem_of_bind. split.
  - intros (x' & Hy & Hx). apply list_elem_of_fmap in Hy as (y' & Heq & Hy').
    simplify_eq. by rewrite !elem_of_elements in *.
  - intros [Hx Hy]. exists x. rewrite elem_of_elements. split; [|done].
    apply list_elem_of_fmap. exists y. by rewrite elem_of_elements.
Qed.

Lemma elem_of_pendientes_iniciales csp asg x y :
  (x, y) ∈ pendientes_iniciales csp asg ↔
  x ∈ X csp ∧ asg !! x = None ∧ y ∈ N csp !!! x ∧ asg !! y = None.
Proof.
  unfold pendientes_iniciales. rewrite elem_of_list_to_set, list_elem_of_bind. split.
  - intros (x' & Hy & Hx). apply list_elem_of_fmap in Hy as (y' & Heq & Hy').
    simplify_eq. rewrite !list_elem_of_filter, !elem_of_enum in *. tauto.
  - intros (Hx & Hax & Hy & Hay). exists x.
    rewrite list_elem_of_filter, elem_of_enum. split; [|done].
    apply list_elem_of_fmap. exists y. by rewrite list_elem_of_filter, elem_of_enum.
Qed.

Lemma elem_of_reencola csp asg x_a x y :
  (x, y) ∈ reencola csp asg x_a ↔ x = x_a ∧ y ∈ N csp !!! x_a ∧ asg !! y = None.
Proof.
  unfold reencola. rewrite elem_of_list_to_set, list_elem_of_fmap. split.
  - intros (y' & Heq & Hy). simplify_eq.
    rewrite list_elem_of_filter, elem_of_enum in Hy. tauto.
  - intros (-> & Hy & Hay). exists y. by rewrite list_elem_of_filter, elem_of_enum.
Qed.

Lemma pendientes_iniciales_sub csp asg : pendientes_iniciales csp asg ⊆ arcos csp.
Proof.
  intros [x y]. rewrite elem_of_pendientes_iniciales, elem_of_arcos. tauto.
Qed.

Lemma reencola_sub csp asg x_a : x_a ∈ X csp → reencola csp asg x_a ⊆ arcos csp.
Proof.
  intros Hx [x y]. rewrite elem_of_reencola, elem_of_arcos. logica.
Qed.

Lemma sum_list_fmap_le (f g : Z → nat) (l : list Z) :
  (∀ x, x ∈ l → f x ≤ g x) → sum_list (f <$> l) ≤ sum_list (g <$> l).
Proof.
  induction l as [|y l IH]; intros Hle; csimpl; [lia|].
  pose proof (Hle y ltac:(left)).
  assert (sum_list (f <$> l) ≤ sum_list (g <$> l)); [|lia].
  apply IH. intros x Hx. apply Hle. by right.
Qed.

Lemma sum_list_fmap_lt (f g : Z → nat) (l : list Z) a :
  a ∈ l → (∀ x, x ∈ l → f x ≤ g x) → f a < g a →
  sum_list (f <$> l) < sum_list (g <$> l).
Proof.
  induction l as [|y l IH]; intros Ha Hle Hlt; csimpl.
  { by apply elem_of_nil in Ha. }
  assert (sum_list (f <$> l) ≤ sum_list (g <$> l)) as Hl.
  { apply sum_list_fmap_le. intros x Hx. apply Hle. by right. }
  pose proof (Hle y ltac:(left)).
  apply elem_of_cons in Ha as [->|Ha]; [lia|].
  assert (sum_list (f <$> l) < sum_list (g <$> l)); [|lia].
  apply IH; [done| |done]. intros x Hx. apply Hle. by right.
Qed.

Lemma num_valores_decrece csp (d : gmap Z (gset Z)) x_a (vs : gset Z) :
  x_a ∈ X csp → vs ⊆ d !!! x_a → vs ≠ ∅ →
  num_valores csp (<[x_a := d !!! x_a ∖ vs]> d) < num_valores csp d.
Proof.
  intros Hx Hsub Hne. unfold num_valores.
  apply (sum_list_fmap_lt _ _ _ x_a).
  - by apply elem_of_elements.
  - intros x _. destruct (decide (x = x_a)) as [->|].
    + rewrite lookup_total_insert_eq. apply subseteq_size. conjuntos.
    + by rewrite lookup_total_insert_ne.
  - rewrite lookup_total_insert_eq. apply subset_size.
    apply set_choose_L in Hne as [v Hv]. conjuntos.
Qed.

Lemma arco_consistencia_termina n csp asg pend d r :
  pend ⊆ arcos csp →
  num_valores csp d * S (num_arcos csp) + size pend < n →
  ∃ res, arco_consistencia n csp asg pend d r = Devuelve res.
Proof.
  revert pend d r. induction n as [|n IH]; intros pend d r Hsub Hn; [lia|]. simpl.
  destruct (head (enumP pend)) as [[x_a x_b]|] eqn:Hhd; [|by eexists].
  apply head_enumP in Hhd.
  assert (x_a ∈ X csp) as Hx by (apply Hsub, elem_of_arcos in Hhd; tauto).
  destruct (decide (sin_soporte d x_a x_b ≠ ∅)) as [Hvs|Hvs].
  - destruct (decide (_ = ∅)); [by eexists|].
    pose proof (num_valores_decrece csp d x_a _ Hx (sin_soporte_sub d x_a x_b) Hvs).
    apply IH.
    + pose proof (reencola_sub csp asg x_a Hx). conjuntos.
    + assert (size (pend ∖ {[(x_a, x_b)]} ∪ reencola csp asg x_a) ≤ num_arcos csp).
      { unfold num_arcos. apply subseteq_size.
        pose proof (reencola_sub csp asg x_a Hx). conjuntos. }
      nia.
  - apply IH; [conjuntos|].
    assert (size (pend ∖ {[(x_a, x_b)]}) < size pend); [|lia].
    apply subset_size. conjuntos.
Qed.

(** [consistencia] always returns. *)
Lemma consistencia_total csp asg x_i v_i nivel :
  ∃ r csp', consistencia csp asg x_i v_i nivel = Devuelve (r, csp').
Proof.
  unfold consistencia.
  destruct (compatible_con_asignados csp asg x_i v_i); [|by eexists _, _].
  destruct (if decide (1 ≤ nivel) then _ else _) as [d'|[d1 dom_red1]];
    [by eexists _, _|].
  destruct (decide (nivel = 2)); [|by eexists _, _].
  destruct (arco_consistencia_termina (cota_arcos csp d1) csp asg
              (pendientes_iniciales csp asg) d1 dom_red1) as [res Hres].
  - apply pendientes_iniciales_sub.
  - pose proof (subseteq_size _ _ (pendientes_iniciales_sub csp asg)).
    unfold cota_arcos, num_arcos in *. lia.
  - rewrite Hres. destruct res as [d'|[d2 dom_red2]]; by eexists _, _.
Qed.

(** A successful call leaves the variables, the neighbours and the counter
    alone, and only shrinks domains. *)
Lemma consistencia_exito csp asg x_i v_i nivel r csp' :
  v_i ∈ D csp !!! x_i → x_i ∉ N csp !!! x_i →
  consistencia csp asg x_i v_i nivel = Devuelve (Some r, csp') →
  restaura (D csp') r = D csp ∧ X csp' = X csp ∧ N csp' = N csp
  ∧ backtracking csp' = backtracking csp
  ∧ ∀ x, D csp' !!! x ⊆ D csp !!! x.
Proof.
  intros Hv Hirr Hc.
  pose proof (consistencia_registra csp asg x_i v_i nivel Hv Hirr) as H.
  rewrite Hc in H. destruct H as [Hreg ->]. simpl.
  split; [by apply registra_restaura|]. do 3 (split; [done|]).
  intros x. by eapply registra_sub.
Qed.

Lemma consistencia_fallo csp asg x_i v_i nivel csp' :
  v_i ∈ D csp !!! x_i → x_i ∉ N csp !!! x_i →
  consistencia csp asg x_i v_i nivel = Devuelve (None, csp') → csp' = csp.
Proof.
  intros Hv Hirr Hc.
  pose proof (consistencia_registra csp asg x_i v_i nivel Hv Hirr) as H.
  by rewrite Hc in H.
Qed.

(** ** Solutions *)

Lemma vecindad_vecinos csp x y :
  vecindad csp → x ∈ X csp → y ∈ N csp !!! x →
  y ∈ X csp ∧ x ≠ y ∧ x ∈ N csp !!! y.
Proof.
  intros Hbf Hx Hy. destruct (Hbf x Hx) as (Hsub & Hirr & Hsim).
  split; [by apply Hsub|]. split; [by intros ->|by apply Hsim].
Qed.

Lemma vecindad_irreflexivo csp x :
  vecindad csp → x ∈ X csp → x ∉ N csp !!! x.
Proof. intros Hbf Hx. by destruct (Hbf x Hx) as (_ & Hirr & _). Qed.

Lemma compatible_con_asignados_spec csp asg x_i v_i :
  compatible_con_asignados csp asg x_i v_i = true ↔
  ∀ x_j v_j, asg !! x_j = Some v_j → x_j ∈ N csp !!! x_i →
             restriccion_binaria x_i v_i x_j v_j = true.
Proof.
  unfold compatible_con_asignados. rewrite forallb_forall. split.
  - intros H x_j v_j Hj Hn.
    specialize (H (x_j, v_j)). simpl in H.
    rewrite <- list_elem_of_In, elem_of_map_to_list in H. specialize (H Hj).
    rewrite bool_decide_eq_true_2 in H by done. simpl in H.
    by destruct (restriccion_binaria x_i v_i x_j v_j).
  - intros H [x_j v_j] Hin.
    rewrite <- list_elem_of_In, elem_of_map_to_list in Hin.
    destruct (bool_decide_reflect (x_j ∈ N csp !!! x_i)) as [Hn|]; [|done].
    simpl. by rewrite (H x_j v_j Hin Hn).
Qed.

(** The check of level 0 keeps a growing assignment consistent. *)
Lemma consistente_insert csp asg var val :
  simetrica → vecindad csp → dom asg ⊆ X csp → var ∈ X csp →
  consistente (N csp) asg →
  compatible_con_asignados csp asg var val = true →
  consistente (N csp) (<[var := val]> asg).
Proof.
  intros Hsim Hbf Hdom Hvar Hcons Hcomp x y vx vy Hx Hy Hn.
  rewrite compatible_con_asignados_spec in Hcomp.
  destruct (decide (x = var)) as [->|Hxv]; destruct (decide (y = var)) as [->|Hyv].
  - by apply vecindad_irreflexivo in Hn.
  - rewrite lookup_insert_eq in Hx. rewrite lookup_insert_ne in Hy by done.
    simplify_eq. by apply Hcomp.
  - rewrite lookup_insert_eq in Hy. rewrite lookup_insert_ne in Hx by done.
    simplify_eq. rewrite Hsim. apply Hcomp; [done|].
    eapply vecindad_vecinos; [done| |done].
    apply Hdom, elem_of_dom. by eexists.
  - rewrite lookup_insert_ne in Hx, Hy by done. by eapply Hcons.
Qed.

(** Pruning never removes the value that a solution gives to a variable. *)
Lemma poda_vecinos_conserva vecinos_de asg x_i v_i vecinos d r a :
  consistente vecinos_de a → a !! x_i = Some v_i →
  (∀ y, y ∈ vecinos → y ∈ vecinos_de !!! x_i ∧ is_Some (a !! y)) →
  en_dominios d a →
  match poda_vecinos asg x_i v_i vecinos d r with
  | inl _ => False
  | inr (d', _) => en_dominios d' a
  end.
Proof.
  intros Hcons Hxi. revert d r.
  induction vecinos as [|x_j resto IH]; intros d r Hvec Hen; simpl; [done|].
  assert (∀ y, y ∈ resto → y ∈ vecinos_de !!! x_i ∧ is_Some (a !! y)) as Hresto.
  { intros y Hy. apply Hvec. by right. }
  destruct (decide (asg !! x_j = None)); [|by apply IH].
  set (vs := list_to_set _).
  destruct (Hvec x_j ltac:(left)) as [Hn [w Hw]].
  assert (w ∈ d !!! x_j ∖ vs) as Hwin.
  { apply elem_of_difference. split; [by apply Hen|].
    unfold vs. rewrite elem_of_list_to_set, list_elem_of_filter.
    intros [Hrb _]. by rewrite (Hcons x_i x_j v_i w) in Hrb. }
  destruct (decide (vs ≠ ∅)).
  - destruct (decide (_ = ∅)) as [He|_].
    { rewrite lookup_total_insert_eq in He. conjuntos. }
    apply IH; [done|]. intros x v Hx. destruct (decide (x = x_j)) as [->|].
    + rewrite lookup_total_insert_eq. by simplify_eq.
    + rewrite lookup_total_insert_ne by done. by apply Hen.
  - destruct (decide (_ = ∅)) as [He|_]; [conjuntos|]. by apply IH.
Qed.

Lemma arco_consistencia_conserva n csp asg pend d r a :
  vecindad csp → consistente (N csp) a → dom a = X csp →
  pend ⊆ arcos csp → en_dominios d a →
  match arco_consistencia n csp asg pend d r with
  | Devuelve (inl _) => False
  | Devuelve (inr (d', _)) => en_dominios d' a
  | _ => True
  end.
Proof.
  intros Hbf Hcons Hdom. revert pend d r.
  induction n as [|n IH]; intros pend d r Hsub Hen; simpl; [done|].
  destruct (head (enumP pend)) as [[x_a x_b]|] eqn:Hhd; [|done].
  apply head_enumP in Hhd.
  pose proof (Hsub _ Hhd) as Harc. apply elem_of_arcos in Harc as [Hxa Hnb].
  destruct (vecindad_vecinos csp x_a x_b Hbf Hxa Hnb) as (Hxb & _ & _).
  rewrite <- Hdom in Hxa, Hxb.
  apply elem_of_dom in Hxa as [va Hva]. apply elem_of_dom in Hxb as [vb Hvb].
  assert (va ∉ sin_soporte d x_a x_b) as Hva'.
  { unfold sin_soporte. rewrite elem_of_list_to_set, list_elem_of_filter.
    intros [Hex _]. apply not_true_iff_false in Hex. apply Hex.
    apply existsb_exists. exists vb. split.
    - apply list_elem_of_In, elem_of_enum. by apply Hen.
    - by eapply Hcons. }
  assert (x_a ∈ X csp) as Hxa' by (rewrite <- Hdom; apply elem_of_dom; eauto).
  destruct (decide (sin_soporte d x_a x_b ≠ ∅)).
  - destruct (decide (_ = ∅)) as [He|_].
    { rewrite lookup_total_insert_eq in He. pose proof (Hen _ _ Hva). conjuntos. }
    apply IH.
    + pose proof (reencola_sub csp asg x_a Hxa'). conjuntos.
    + intros x v Hx. destruct (decide (x = x_a)) as [->|].
      * rewrite lookup_total_insert_eq. simplify_eq.
        pose proof (Hen _ _ Hva). conjuntos.
      * rewrite lookup_total_insert_ne by done. by apply Hen.
  - apply IH; [conjuntos|done].
Qed.

Lemma consistencia_conserva csp asg x_i v_i nivel a :
  vecindad csp → x_i ∈ X csp → solucion csp a → asg ⊆ a →
  a !! x_i = Some v_i →
  match consistencia csp asg x_i v_i nivel with
  | Devuelve (None, _) => False
  | Devuelve (Some _, csp') => en_dominios (D csp') a
  | _ => True
  end.
Proof.
  intros Hbf Hxi (Hdom & Hen & Hcons) Hsub Ha. unfold consistencia.
  destruct (compatible_con_asignados csp asg x_i v_i) eqn:Hcomp.
  2:{ apply not_true_iff_false in Hcomp. apply Hcomp.
      apply compatible_con_asignados_spec. intros x_j v_j Hj Hn.
      eapply Hcons; [done| |done]. by eapply lookup_weaken. }
  assert (en_dominios (<[x_i := {[ v_i ]}]> (D csp)) a) as Hen0.
  { intros x v Hx. destruct (decide (x = x_i)) as [->|].
    - rewrite lookup_total_insert_eq. simplify_eq. conjuntos.
    - rewrite lookup_total_insert_ne by done. by apply Hen. }
  set (r1 := if decide (1 ≤ nivel) then _ else _).
  assert (match r1 with inl _ => False | inr (d', _) => en_dominios d' a end) as H1.
  { unfold r1. destruct (decide (1 ≤ nivel)); [|done].
    eapply poda_vecinos_conserva; [done|done| |done].
    intros y Hy. apply elem_of_enum in Hy. split; [done|].
    apply elem_of_dom. rewrite Hdom. by eapply vecindad_vecinos. }
  destruct r1 as [d'|[d1 dom_red1]]; [done|].
  destruct (decide (nivel = 2)); [|done].
  pose proof (arco_consistencia_conserva (cota_arcos csp d1) csp asg
                (pendientes_iniciales csp asg) d1 dom_red1 a Hbf Hcons Hdom
                (pendientes_iniciales_sub csp asg) H1) as H2.
  by destruct (arco_consistencia _ _ _ _ _ _) as [[d'|[d2 dom_red2]]| |].
Qed.

Lemma consistencia_compatible csp asg x_i v_i nivel r csp' :
  consistencia csp asg x_i v_i nivel = Devuelve (Some r, csp') →
  compatible_con_asignados csp asg x_i v_i = true.
Proof. unfold consistencia. by destruct (compatible_con_asignados _ _ _ _). Qed.

(** ** The heuristics return what they are given *)

Lemma max_desde_elem {A} (key : A → nat) m l : max_desde key m l ∈ m :: l.
Proof.
  revert m. induction l as [|x l IH]; intros m; simpl; [left|].
  specialize (IH (if key m <? key x then x else m)).
  destruct (key m <? key x); conjuntos.
Qed.

Lemma min_desde_elem {A} (key : A → nat) m l : min_desde key m l ∈ m :: l.
Proof.
  revert m. induction l as [|x l IH]; intros m; simpl; [left|].
  specialize (IH (if key x <? key m then x else m)).
  destruct (key x <? key m); conjuntos.
Qed.

Lemma py_max_elem {A} (key : A → nat) l x : py_max key l = Some x → x ∈ l.
Proof. destruct l; intros; simplify_eq/=. apply max_desde_elem. Qed.

Lemma py_min_elem {A} (key : A → nat) l x : py_min key l = Some x → x ∈ l.
Proof. destruct l; intros; simplify_eq/=. apply min_desde_elem. Qed.

Lemma py_max_is_Some {A} (key : A → nat) l x : x ∈ l → is_Some (py_max key l).
Proof. destruct l; [by intros ?%elem_of_nil|by eexists]. Qed.

Lemma py_min_is_Some {A} (key : A → nat) l x : x ∈ l → is_Some (py_min key l).
Proof. destruct l; [by intros ?%elem_of_nil|by eexists]. Qed.

Lemma inserta_desc_perm {A} (key : A → nat) x l : inserta_desc key x l ≡ₚ x :: l.
Proof.
  induction l as [|y l IH]; simpl; [done|].
  destruct (key x <? key y); [|done]. rewrite IH. apply Permutation_swap.
Qed.

Lemma sorted_reverse_perm {A} (key : A → nat) l : sorted_reverse key l ≡ₚ l.
Proof.
  induction l as [|x l IH]; simpl; [done|]. by rewrite inserta_desc_perm, IH.
Qed.

Lemma elem_of_ordena_valores csp asg x_i v :
  v ∈ ordena_valores csp asg x_i ↔ v ∈ D csp !!! x_i.
Proof. unfold ordena_valores. by rewrite sorted_reverse_perm, elem_of_enum. Qed.

Lemma selecciona_variable_ok csp asg :
  dom asg ⊆ X csp → dom asg ≠ X csp →
  ∃ var, selecciona_variable csp asg = Some var ∧ var ∈ X csp ∧ asg !! var = None.
Proof.
  intros Hsub Hne.
  assert (∃ x, x ∈ X csp ∧ asg !! x = None) as (x & Hx & Hax).
  { destruct (set_choose_L (X csp ∖ dom asg)) as [x Hx].
    - intros He. apply Hne. apply set_eq. intros y. split; [by apply Hsub|].
      intros Hy. destruct (decide (y ∈ dom asg)); [done|conjuntos].
    - exists x. apply elem_of_difference in Hx as [? ?].
      by rewrite <- not_elem_of_dom. }
  unfold selecciona_variable. destruct (decide (asg = ∅)) as [->|_].
  - destruct (py_max_is_Some (λ x, size (N csp !!! x)) (enum (X csp)) x) as [var Hvar].
    { by apply elem_of_enum. }
    exists var. split; [done|]. apply py_max_elem, elem_of_enum in Hvar.
    by rewrite lookup_empty.
  - destruct (py_min_is_Some (λ x, size (D csp !!! x))
                (filter (λ x, asg !! x = None) (enum (X csp))) x) as [var Hvar].
    { by rewrite list_elem_of_filter, elem_of_enum. }
    exists var. split; [done|].
    apply py_min_elem in Hvar. rewrite list_elem_of_filter, elem_of_enum in Hvar.
    tauto.
Qed.

(** ** The search *)

Lemma vecindad_ext csp csp' :
  X csp' = X csp → N csp' = N csp → vecindad csp → vecindad csp'.
Proof. unfold vecindad. by intros -> ->. Qed.

Lemma prueba_valores_correcto rec asg var consist vals :
  ∀ csp,
  vecindad csp → dom asg ⊆ X csp → var ∈ X csp → asg !! var = None →
  (∀ v, v ∈ vals → v ∈ D csp !!! var) →
  (∀ val csp1, X csp1 = X csp → N csp1 = N csp →
     ∃ apn csp2, rec csp1 (<[var := val]> asg) = Devuelve (apn, csp2)
       ∧ mismo_grafo csp1 csp2
       ∧ resultado_correcto (X csp) (D csp1) (N csp) (<[var := val]> asg) apn) →
  ∃ apn csp', prueba_valores rec asg var consist vals csp = Devuelve (apn, csp')
    ∧ mismo_grafo csp csp'
    ∧ match apn with
      | Some a =>
          asg ⊆ a ∧ dom a = X csp
          ∧ (∀ x v, a !! x = Some v → asg !! x = Some v ∨ v ∈ D csp !!! x)
          ∧ (simetrica → consistente (N csp) asg → consistente (N csp) a)
      | None =>
          ∀ a v, asg ⊆ a → solucion csp a → a !! var = Some v → v ∉ vals
      end.
Proof.
  induction vals as [|val resto IH]; intros csp Hbf Hdom Hvar Hfree Hvals Hrec; simpl.
  { eexists None, _. split; [done|]. split; [done|]. intros a v _ _ _.
    apply not_elem_of_nil. }
  assert (val ∈ D csp !!! var) as Hval by (apply Hvals; left).
  pose proof (vecindad_irreflexivo csp var Hbf Hvar) as Hirr.
  assert (∀ v, v ∈ resto → v ∈ D csp !!! var) as Hresto.
  { intros v Hv. apply Hvals. by right. }
  destruct (consistencia_total csp asg var val consist) as (r & csp1 & Hc).
  rewrite Hc. destruct r as [dr|].
  - destruct (consistencia_exito _ _ _ _ _ _ _ Hval Hirr Hc)
      as (Hrest & HX1 & HN1 & _ & Hsub1).
    destruct (Hrec val csp1 HX1 HN1) as (apn & csp2 & -> & (HX2 & HN2 & HD2) & Hres).
    set (csp3 := con_D csp2 (restaura (D csp2) dr)).
    assert (mismo_grafo csp csp3) as Hm3.
    { unfold mismo_grafo, csp3. simpl. by rewrite HX2, HN2, HD2, HX1, HN1, Hrest. }
    destruct apn as [a|].
    + eexists (Some a), csp3. split; [done|]. split; [done|].
      destruct Hres as (Hext & Hda & Hva & Hca).
      split; [|split; [done|split]].
      * etrans; [|done]. by apply insert_subseteq.
      * intros x v Hx. destruct (Hva x v Hx) as [Hi|Hi].
        -- destruct (decide (x = var)) as [->|].
           ++ rewrite lookup_insert_eq in Hi. simplify_eq. by right.
           ++ rewrite lookup_insert_ne in Hi by done. by left.
        -- right. by apply Hsub1.
      * intros Hsim Hcons. apply Hca; [done|].
        apply consistente_insert; [done..|]. by eapply consistencia_compatible.
    + destruct Hm3 as (HX3 & HN3 & HD3).
      destruct (IH csp3) as (apn & csp' & -> & (HX' & HN' & HD') & Hpost).
      * by eapply vecindad_ext.
      * by rewrite HX3.
      * by rewrite HX3.
      * done.
      * by rewrite HD3.
      * intros val' csp4 HX4 HN4. rewrite HX3 in HX4. rewrite HN3 in HN4.
        destruct (Hrec val' csp4 HX4 HN4) as (apn & csp5 & ? & ? & ?).
        exists apn, csp5. by rewrite HX3, HN3.
      * exists apn, csp'. split; [done|]. split.
        { unfold mismo_grafo. by rewrite HX', HN', HD', HX3, HN3, HD3. }
        rewrite HX3, HN3, HD3 in Hpost. destruct apn as [a|]; [done|].
        intros a v Hext Hsol Hav. apply not_elem_of_cons. split.
        -- intros ->.
           pose proof (consistencia_conserva csp asg var val consist a
                         Hbf Hvar Hsol Hext Hav) as Hk.
           rewrite Hc in Hk. destruct Hsol as (Hda & _ & Hca).
           apply (Hres a); [|done|done|done].
           by apply insert_subseteq_l.
        -- apply (Hpost a v Hext); [|done].
           destruct Hsol as (? & ? & ?). split; [by rewrite HX3|].
           split; [by rewrite HD3|by rewrite HN3].
  - apply (consistencia_fallo _ _ _ _ _ _ Hval Hirr) in Hc as Hcsp1. subst csp1.
    destruct (IH (cuenta csp)) as (apn & csp' & -> & Hm & Hpost); try done.
    exists apn, csp'. split; [done|]. split; [done|].
    destruct apn as [a|]; [done|].
    intros a v Hext Hsol Hav. apply not_elem_of_cons. split.
    + intros ->.
      pose proof (consistencia_conserva csp asg var val consist a
                    Hbf Hvar Hsol Hext Hav) as Hk.
      by rewrite Hc in Hk.
    + by apply (Hpost a v Hext).
Qed.

Lemma asignacion_grafo_restriccion_correcto n consist :
  ∀ csp asg,
  vecindad csp → dom asg ⊆ X csp → size (X csp ∖ dom asg) < n →
  ∃ apn csp', asignacion_grafo_restriccion n consist csp asg = Devuelve (apn, csp')
    ∧ mismo_grafo csp csp'
    ∧ resultado_correcto (X csp) (D csp) (N csp) asg apn.
Proof.
  induction n as [|n IH]; intros csp asg Hbf Hdom Hn; [lia|]. simpl.
  destruct (decide (dom asg = X csp)) as [Heq|Hne].
  { eexists (Some asg), csp. split; [done|]. split; [done|].
    split; [done|]. split; [done|]. split; [by left|done]. }
  destruct (selecciona_variable_ok csp asg Hdom Hne) as (var & -> & Hvar & Hfree).
  destruct (prueba_valores_correcto (asignacion_grafo_restriccion n consist)
              asg var consist (ordena_valores csp asg var) csp)
    as (apn & csp' & Hres & Hm & Hpost); try done.
  - intros v. by rewrite elem_of_ordena_valores.
  - intros val csp1 HX1 HN1.
    destruct (IH csp1 (<[var := val]> asg)) as (apn & csp2 & ? & ? & Hr).
    + by eapply vecindad_ext.
    + rewrite dom_insert_L, HX1. conjuntos.
    + rewrite dom_insert_L, HX1.
      assert (size (X csp ∖ ({[var]} ∪ dom asg)) < size (X csp ∖ dom asg)); [|lia].
      apply subset_size. apply not_elem_of_dom in Hfree. conjuntos.
    + exists apn, csp2. by rewrite HX1, HN1 in Hr.
  - exists apn, csp'. split; [done|]. split; [done|].
    destruct apn as [a|]; [done|]. simpl.
    intros a Hext Hda Hen Hcons.
    assert (var ∈ dom a) as [v Hv]%elem_of_dom by by rewrite Hda.
    apply (Hpost a v); [done|done|done|].
    apply elem_of_ordena_valores. by apply Hen.
Qed.

(** ** Min-conflicts *)

Lemma choice_elem {A} (l : list A) az x az' :
  choice l az = Some (x, az') → x ∈ l.
Proof.
  unfold choice. destruct l as [|y l]; [done|]. intros H.
  assert (x = nth (hd 0 az mod length (y :: l)) (y :: l) y) as -> by congruence.
  apply list_elem_of_In. apply nth_In. apply Nat.mod_upper_bound. simpl. lia.
Qed.

Lemma choice_total {A} (l : list A) az y :
  y ∈ l → ∃ x az', choice l az = Some (x, az').
Proof. destruct l; [by intros ?%elem_of_nil|]. by eexists _, _. Qed.

Lemma choice_vacio {A} az : choice (@nil A) az = None.
Proof. done. Qed.

Lemma enum_vacio : enum ∅ = [].
Proof. apply Permutation_nil_r. by rewrite enum_perm, elements_empty. Qed.

Lemma enum_no_vacio s : s ≠ ∅ → ∃ x, x ∈ enum s.
Proof. intros [x Hx]%set_choose_L. exists x. by apply elem_of_enum. Qed.

Lemma asignacion_aleatoria_dom csp xs a az a' az' :
  asignacion_aleatoria csp xs a az = Some (a', az') →
  dom a' = dom a ∪ list_to_set xs
  ∧ (en_dominios (D csp) a → en_dominios (D csp) a').
Proof.
  revert a az. induction xs as [|x xs IH]; intros a az H; simplify_eq/=.
  { split; [conjuntos|done]. }
  destruct (choice (enum (D csp !!! x)) az) as [[v az1]|] eqn:Hch; try done.
  apply choice_elem, elem_of_enum in Hch.
  apply IH in H as [Hdom Hen]. split.
  - rewrite Hdom, dom_insert_L. conjuntos.
  - intros Ha. apply Hen. intros y w Hy. destruct (decide (y = x)) as [->|].
    + rewrite lookup_insert_eq in Hy. by simplify_eq.
    + rewrite lookup_insert_ne in Hy by done. by apply Ha.
Qed.

Lemma asignacion_aleatoria_total csp xs a az :
  (∀ x, x ∈ xs → D csp !!! x ≠ ∅) →
  ∃ a' az', asignacion_aleatoria csp xs a az = Some (a', az').
Proof.
  revert a az. induction xs as [|x xs IH]; intros a az Hne; simpl.
  { by eexists _, _. }
  destruct (enum_no_vacio (D csp !!! x)) as [v Hv]; [apply Hne; left|].
  destruct (choice_total _ az _ Hv) as (w & az1 & ->).
  apply IH. intros y Hy. apply Hne. by right.
Qed.

(** An empty domain makes the initial assignment raise. *)
Lemma asignacion_aleatoria_vacio csp xs a az x :
  x ∈ xs → D csp !!! x = ∅ →
  asignacion_aleatoria csp xs a az = None.
Proof.
  revert a az. induction xs as [|y xs IH]; intros a az Hx He.
  { by apply elem_of_nil in Hx. }
  simpl. destruct (decide (D csp !!! y = ∅)) as [Hy|Hy].
  { by rewrite Hy, enum_vacio. }
  destruct (enum_no_vacio _ Hy) as [v Hv].
  destruct (choice_total _ az _ Hv) as (w & az1 & ->).
  apply IH; [|done]. apply elem_of_cons in Hx as [->|Hx]; done.
Qed.

Lemma cuenta_si_cero {A} (p : A → bool) l :
  cuenta_si p l = 0 ↔ ∀ x, x ∈ l → p x = false.
Proof.
  unfold cuenta_si. rewrite length_zero_iff_nil. split.
  - intros H x Hx. destruct (p x) eqn:Hp; [|done].
    assert (x ∈ filter (λ x, p x = true) l) as Hin by by apply list_elem_of_filter.
    rewrite H in Hin. by apply elem_of_nil in Hin.
  - intros H. induction l as [|y l IH]; [done|].
    rewrite filter_cons_False.
    + apply IH. intros x Hx. apply H. by right.
    + rewrite (H y) by left. done.
Qed.

Lemma cuenta_si_le {A} (p : A → bool) l : cuenta_si p l ≤ length l.
Proof. apply length_filter. Qed.

Lemma sum_list_cero (l : list nat) : sum_list l = 0 ↔ ∀ c, c ∈ l → c = 0.
Proof.
  induction l as [|c l IH]; simpl.
  { split; [by intros _ c ?%elem_of_nil|done]. }
  split.
  - intros H c' [->|Hc]%elem_of_cons; [lia|]. apply IH; [lia|done].
  - intros H. rewrite (H c) by left. apply IH. intros c' Hc. apply H. by right.
Qed.

Lemma total_conflictos_cota csp a : total_conflictos csp a ≤ grado_total csp.
Proof.
  unfold total_conflictos, tabla_conflictos, grado_total.
  rewrite <- list_fmap_compose. apply sum_list_fmap_le. intros x _. simpl.
  unfold conflictos_de. rewrite <- length_enum. apply cuenta_si_le.
Qed.

Lemma total_conflictos_cero csp a :
  dom a ⊆ X csp → total_conflictos csp a = 0 → consistente (N csp) a.
Proof.
  intros Hdom H0 x y vx vy Hx Hy Hn.
  unfold total_conflictos in H0. rewrite sum_list_cero in H0.
  assert (conflictos_de csp a x (a !!! x) = 0) as Hc.
  { apply H0. unfold tabla_conflictos. rewrite <- list_fmap_compose.
    apply list_elem_of_fmap. exists x. split; [done|].
    apply elem_of_enum, Hdom, elem_of_dom. by eexists. }
  unfold conflictos_de in Hc. rewrite cuenta_si_cero in Hc.
  specialize (Hc y). rewrite elem_of_enum in Hc. specialize (Hc Hn).
  rewrite (lookup_total_correct _ _ _ Hx), (lookup_total_correct _ _ _ Hy) in Hc.
  by destruct (restriccion_binaria x vx y vy).
Qed.

Lemma repara_ok csp st st' :
  estado_ok csp st → repara csp st = Sigue st' → estado_ok csp st'.
Proof.
  intros [Hdom Hen]. unfold repara.
  destruct (choice _ _) as [[x az']|] eqn:Hch; try done.
  destruct (py_min _ _) as [v|] eqn:Hmin; [|done]. intros; simplify_eq.
  apply choice_elem, list_elem_of_fmap in Hch as ([x' c] & -> & Hx).
  apply list_elem_of_filter in Hx as [_ Hx]. unfold tabla_conflictos in Hx.
  apply list_elem_of_fmap in Hx as (x & ? & Hx). simplify_eq/=.
  apply elem_of_enum in Hx. apply py_min_elem, elem_of_enum in Hmin.
  split; simpl.
  - rewrite dom_insert_L, Hdom. conjuntos.
  - intros y w Hy. destruct (decide (y = x)) as [->|].
    + rewrite lookup_insert_eq in Hy. by simplify_eq.
    + rewrite lookup_insert_ne in Hy by done. by apply Hen.
Qed.

Lemma repara_paso csp st :
  estado_ok csp st →
  match repara csp st with
  | Termina _ => False
  | Sigue st' => estado_ok csp st'
  | Falla _ => True
  end.
Proof.
  intros Hok. destruct (repara csp st) eqn:Hr; [|by eapply repara_ok|done].
  unfold repara in Hr. destruct (choice _ _) as [[x az']|]; try done.
  by destruct (py_min _ _).
Qed.

Lemma iteracion_ok csp paciencia st :
  estado_ok csp st →
  match iteracion csp paciencia st with
  | Termina a => a = asign st ∧ total_conflictos csp a = 0
  | Sigue st' => estado_ok csp st'
  | Falla _ => True
  end.
Proof.
  intros Hok. unfold iteracion.
  destruct (decide (total_conflictos csp (asign st) = 0)); [done|].
  assert (∀ m r az, match repara csp (mkEstado (asign st) m r az) with
                    | Termina a => a = asign st ∧ total_conflictos csp a = 0
                    | Sigue st' => estado_ok csp st'
                    | Falla _ => True
                    end) as Hrep.
  { intros m r az. pose proof (repara_paso csp (mkEstado (asign st) m r az) Hok).
    by destruct (repara _ _). }
  destruct (decide (_ < _)%Z); [apply Hrep|].
  destruct (decide (_ = min_conflictos st)).
  - destruct (repeticiones st) as [r|]; [|done].
    destruct (decide (paciencia < S r)); [|apply Hrep].
    destruct (asignacion_aleatoria _ _ _ _) as [[a az']|] eqn:Ha; try done.
    apply asignacion_aleatoria_dom in Ha as [Hdom Hen]. split; simpl.
    + rewrite Hdom, dom_empty_L, (left_id_L ∅ union). apply set_eq. intros x.
      by rewrite elem_of_list_to_set, elem_of_enum.
    + apply Hen. intros x v. by rewrite lookup_empty.
  - pose proof (repara_paso csp st Hok). by destruct (repara _ _).
Qed.

Lemma bucle_ok csp paciencia n st a :
  estado_ok csp st → bucle csp paciencia n st = Devuelve (Some a) →
  dom a = X csp ∧ en_dominios (D csp) a ∧ total_conflictos csp a = 0.
Proof.
  revert st. induction n as [|n IH]; intros st Hok H; simplify_eq/=.
  pose proof (iteracion_ok csp paciencia st Hok) as Hit.
  destruct (iteracion csp paciencia st) as [a'|st'|e]; simplify_eq/=.
  - destruct Hit as [-> ?]. by destruct Hok.
  - by eapply IH.
Qed.

Lemma minimos_conflictos_ok csp max_iter paciencia az a :
  minimos_conflictos csp max_iter paciencia az = Devuelve (Some a) →
  dom a = X csp ∧ en_dominios (D csp) a ∧ total_conflictos csp a = 0.
Proof.
  unfold minimos_conflictos.
  destruct (asignacion_aleatoria _ _ _ _) as [[a0 az0]|] eqn:Ha; try done.
  apply asignacion_aleatoria_dom in Ha as [Hdom Hen]. apply bucle_ok. split; simpl.
  - rewrite Hdom, dom_empty_L, (left_id_L ∅ union). apply set_eq. intros x.
    by rewrite elem_of_list_to_set, elem_of_enum.
  - apply Hen. intros x v. by rewrite lookup_empty.
Qed.

Lemma sum_list_pos (l : list nat) : sum_list l ≠ 0 → ∃ c, c ∈ l ∧ 0 < c.
Proof.
  induction l as [|c l IH]; simpl; [done|]. intros H.
  destruct (decide (c = 0)) as [->|].
  - destruct IH as (c' & ? & ?); [lia|]. exists c'. split; [by right|done].
  - exists c. split; [left|lia].
Qed.

Lemma repara_total csp st :
  (∀ x, x ∈ X csp → D csp !!! x ≠ ∅) →
  total_conflictos csp (asign st) ≠ 0 →
  ∃ st', repara csp st = Sigue st' ∧ repeticiones st' = repeticiones st
         ∧ min_conflictos st' = min_conflictos st.
Proof.
  intros Hne Hact. unfold repara.
  apply sum_list_pos in Hact as (c & Hc & Hpos).
  apply list_elem_of_fmap in Hc as ([x c'] & -> & Hxc). simpl in Hpos.
  assert (x ∈ (filter (λ xc, 0 < xc.2) (tabla_conflictos csp (asign st))).*1) as Hx.
  { apply list_elem_of_fmap. exists (x, c'). split; [done|].
    by apply list_elem_of_filter. }
  destruct (choice_total _ (azar st) _ Hx) as (x' & az' & Hch). rewrite Hch.
  apply choice_elem, list_elem_of_fmap in Hch as ([x'' c''] & -> & Hx').
  apply list_elem_of_filter in Hx' as [_ Hx']. unfold tabla_conflictos in Hx'.
  apply list_elem_of_fmap in Hx' as (y & ? & Hy). simplify_eq/=.
  apply elem_of_enum in Hy.
  destruct (enum_no_vacio _ (Hne y Hy)) as [v Hv].
  destruct (py_min_is_Some (λ v, conflictos_de csp (asign st) y v) _ _ Hv)
    as [w Hw].
  rewrite Hw. by eexists.
Qed.

Lemma iteracion_total csp paciencia st :
  (∀ x, x ∈ X csp → D csp !!! x ≠ ∅) →
  (Z.of_nat (grado_total csp) < infinito)%Z →
  estado_vivo st →
  match iteracion csp paciencia st with
  | Termina _ => True
  | Sigue st' => estado_vivo st'
  | Falla _ => False
  end.
Proof.
  intros Hne Hcota Hvivo. unfold iteracion.
  pose proof (total_conflictos_cota csp (asign st)) as Hle.
  destruct (decide (total_conflictos csp (asign st) = 0)) as [|Hact]; [done|].
  destruct (decide (_ < _)%Z).
  { destruct (repara_total csp (mkEstado (asign st)
                (Z.of_nat (total_conflictos csp (asign st))) (Some 0) (azar st))
                Hne Hact) as (st' & -> & Hrep & _).
    intros H. by rewrite Hrep in H. }
  destruct (decide (_ = min_conflictos st)) as [Heq|].
  - destruct (repeticiones st) as [r|] eqn:Hr.
    2:{ rewrite Hvivo in Heq by done. lia. }
    destruct (decide (paciencia < S r)).
    + destruct (asignacion_aleatoria_total csp (enum (X csp)) ∅ (azar st))
        as (a & az' & ->); [|done].
      intros x Hx. by apply Hne, elem_of_enum.
    + destruct (repara_total csp (mkEstado (asign st) (min_conflictos st)
                  (Some (S r)) (azar st)) Hne Hact) as (st' & -> & Hrep & _).
      intros H. by rewrite Hrep in H.
  - destruct (repara_total csp st Hne Hact) as (st' & -> & Hrep & Hmin).
    unfold estado_vivo. rewrite Hrep, Hmin. done.
Qed.

(** The loop runs [k] iterations that go on, with [k] at most [max_iter],
    and then either the budget is spent and the result is [None], or the
    next iteration finds no conflict and returns its assignment. *)
Lemma bucle_corre csp paciencia max_iter :
  (∀ x, x ∈ X csp → D csp !!! x ≠ ∅) →
  (Z.of_nat (grado_total csp) < infinito)%Z →
  ∀ st, estado_ok csp st → estado_vivo st →
  ∃ k st', k ≤ max_iter ∧ corre csp paciencia k st = Some st'
    ∧ ((k = max_iter ∧ bucle csp paciencia max_iter st = Devuelve None)
       ∨ (k < max_iter
          ∧ total_conflictos csp (asign st') = 0
          ∧ bucle csp paciencia max_iter st = Devuelve (Some (asign st')))).
Proof.
  intros Hne Hcota. induction max_iter as [|n IH]; intros st Hok Hvivo.
  { exists 0, st. split; [done|]. split; [done|]. by left. }
  pose proof (iteracion_ok csp paciencia st Hok) as H1.
  pose proof (iteracion_total csp paciencia st Hne Hcota Hvivo) as H2.
  simpl. destruct (iteracion csp paciencia st) as [a|st1|e] eqn:Hit; [| |done].
  - destruct H1 as [-> H0]. exists 0, st. split; [lia|]. split; [done|].
    right. split; [lia|]. done.
  - destruct (IH st1 H1 H2) as (k & st' & Hk & Hcorre & Hres).
    exists (S k), st'. split; [lia|]. split; [by simpl; rewrite Hit|].
    destruct Hres as [[-> ?]|(? & ? & ?)]; [by left|right].
    split; [lia|done].
Qed.

(** ** The order of the values *)

Lemma cuenta_si_ext {A} (p q : A → bool) l :
  (∀ x, p x = q x) → cuenta_si p l = cuenta_si q l.
Proof.
  intros H. unfold cuenta_si. f_equal. apply list_filter_iff. intros x.
  by rewrite H.
Qed.

Lemma cuenta_si_negb {A} (p : A → bool) l :
  cuenta_si p l + cuenta_si (λ x, negb (p x)) l = length l.
Proof.
  unfold cuenta_si. induction l as [|x l IH]; [done|].
  rewrite !filter_cons. destruct (p x); simpl; repeat case_decide; simpl; try done; lia.
Qed.

Lemma conflictos_violaciones csp asg x_i v_i :
  conflictos csp asg x_i v_i + violaciones csp asg x_i v_i
  = length (pares_vecinos csp asg x_i).
Proof using Type.
  unfold conflictos, violaciones. rewrite <- (cuenta_si_negb
    (λ '(x_j, v_j), restriccion_binaria x_i v_i x_j v_j)).
  f_equal. apply cuenta_si_ext. by intros [x_j v_j].
Qed.

Lemma inserta_desc_sorted {A} (key : A → nat) x l :
  StronglySorted (λ u v, key v ≤ key u) l →
  StronglySorted (λ u v, key v ≤ key u) (inserta_desc key x l).
Proof.
  induction l as [|y l IH]; intros Hs; simpl.
  { repeat constructor. }
  apply StronglySorted_inv in Hs as [Hs Hy].
  destruct (Nat.ltb_spec (key x) (key y)).
  - constructor; [by apply IH|]. rewrite inserta_desc_perm.
    constructor; [lia|done].
  - constructor; [by constructor|]. constructor; [done|].
    eapply Forall_impl; [done|]. simpl. intros; lia.
Qed.

Lemma sorted_reverse_sorted {A} (key : A → nat) l :
  StronglySorted (λ u v, key v ≤ key u) (sorted_reverse key l).
Proof.
  induction l as [|x l IH]; simpl; [constructor|]. by apply inserta_desc_sorted.
Qed.

Lemma StronglySorted_cambia {A} (R S : A → A → Prop) l :
  (∀ u v, R u v → S u v) → StronglySorted R l → StronglySorted S l.
Proof.
  intros HRS. induction 1 as [|x l Hl IH Hx]; constructor; [done|].
  eapply Forall_impl; [done|]. intros v. apply HRS.
Qed.

(** Stability: the elements that share a key keep their order. *)
Lemma inserta_desc_filter {A} (key : A → nat) (P : A → Prop)
    `{!∀ x, Decision (P x)} x l :
  (∀ u v, P u → P v → key u = key v) →
  filter P (inserta_desc key x l) = filter P (x :: l).
Proof.
  intros HP. induction l as [|y l IH]; simpl; [done|].
  destruct (Nat.ltb_spec (key x) (key y)) as [Hlt|]; [|done].
  rewrite (filter_cons _ y), IH, !filter_cons.
  destruct (decide (P x)) as [Hx|]; destruct (decide (P y)) as [Hy|]; try done.
  specialize (HP x y Hx Hy). lia.
Qed.

Lemma sorted_reverse_filter {A} (key : A → nat) (P : A → Prop)
    `{!∀ x, Decision (P x)} l :
  (∀ u v, P u → P v → key u = key v) →
  filter P (sorted_reverse key l) = filter P l.
Proof.
  intros HP. induction l as [|x l IH]; simpl; [done|].
  rewrite inserta_desc_filter by done. by rewrite !filter_cons, IH.
Qed.

Lemma elem_of_pares_en_juego csp asg x_i x_j v_j :
  (x_j, v_j) ∈ pares_en_juego csp asg x_i ↔
  x_j ∈ N csp !!! x_i ∧ asg !! x_j = None ∧ v_j ∈ D csp !!! x_j.
Proof using Type.
  clear. unfold pares_en_juego. rewrite elem_of_set_bind. split.
  - intros (x & [Hfree Hx]%elem_of_filter & (v & ? & Hv)%elem_of_map).
    by simplify_eq.
  - intros (Hx & Hfree & Hv). exists x_j. split; [by apply elem_of_filter|].
    apply elem_of_map. by exists v_j.
Qed.

Lemma elem_of_pares_vecinos csp asg x_i x_j v_j :
  (x_j, v_j) ∈ pares_vecinos csp asg x_i ↔
  x_j ∈ N csp !!! x_i ∧ asg !! x_j = None ∧ v_j ∈ D csp !!! x_j.
Proof.
  unfold pares_vecinos. rewrite list_elem_of_bind. split.
  - intros (x & (v & ? & Hv)%list_elem_of_fmap & [Hfree Hx]%list_elem_of_filter).
    simplify_eq. by rewrite elem_of_enum in Hx, Hv.
  - intros (Hx & Hfree & Hv). exists x_j. split.
    + apply list_elem_of_fmap. exists v_j. by rewrite elem_of_enum.
    + apply list_elem_of_filter. by rewrite elem_of_enum.
Qed.

Lemma NoDup_pares_vecinos csp asg x_i : NoDup (pares_vecinos csp asg x_i).
Proof.
  unfold pares_vecinos. apply NoDup_bind; [| |apply NoDup_filter, NoDup_enum].
  - intros x1 x2 [x v] _ _ H1 H2.
    apply list_elem_of_fmap in H1 as (? & ? & _).
    apply list_elem_of_fmap in H2 as (? & ? & _). congruence.
  - intros x _. apply NoDup_fmap_2; [|apply NoDup_enum].
    intros v1 v2 ?. congruence.
Qed.

(** The count the code sorts by is the number of violated pairs: every
    pair of an unassigned neighbour and a value of its domain is met once. *)
Lemma violaciones_num csp asg x_i v_i :
  violaciones csp asg x_i v_i = num_violaciones csp asg x_i v_i.
Proof.
  unfold violaciones, num_violaciones, cuenta_si.
  rewrite <- (size_list_to_set (C := gset (Z * Z)))
    by apply NoDup_filter, NoDup_pares_vecinos.
  f_equal. apply set_eq. intros [x_j v_j].
  rewrite elem_of_list_to_set, list_elem_of_filter, elem_of_filter,
    elem_of_pares_vecinos, elem_of_pares_en_juego, negb_true_iff. simpl. tauto.
Qed.

Lemma conflictos_num csp asg x_i v_i :
  conflictos csp asg x_i v_i + num_violaciones csp asg x_i v_i
  = size (pares_en_juego csp asg x_i).
Proof.
  rewrite <- violaciones_num, conflictos_violaciones.
  rewrite <- (size_list_to_set (C := gset (Z * Z)))
    by apply NoDup_pares_vecinos.
  f_equal. apply set_eq. intros [x_j v_j].
  by rewrite elem_of_list_to_set, elem_of_pares_vecinos, elem_of_pares_en_juego.
Qed.

(** C6. [ordena_valores] returns the values of the domain of [x_i], in the
    order [list(csp.D[x_i])] enumerates them, sorted by ascending number of
    violations: the number of pairs of an unassigned neighbour [x_j] of
    [x_i] and a value [v_j] of the domain of [x_j] for which the predicate
    fails.  Values with the same number of violations keep the order of that
    enumeration.  The key the code sorts by, in descending order, is the
    number of the other pairs, the satisfied ones. *)
Theorem ordena_valores_least_constraining_first csp asg x_i :
  (∀ x_j v_j, (x_j, v_j) ∈ pares_en_juego csp asg x_i ↔
              x_j ∈ N csp !!! x_i ∧ asg !! x_j = None ∧ v_j ∈ D csp !!! x_j)
  ∧ (∀ v, conflictos csp asg x_i v + num_violaciones csp asg x_i v
          = size (pares_en_juego csp asg x_i))
  ∧ ordena_valores csp asg x_i ≡ₚ enum (D csp !!! x_i)
  ∧ (∀ v, v ∈ ordena_valores csp asg x_i ↔ v ∈ D csp !!! x_i)
  ∧ StronglySorted (λ u v, num_violaciones csp asg x_i u
                           ≤ num_violaciones csp asg x_i v)
                   (ordena_valores csp asg x_i)
  ∧ ∀ k, filter (λ v, num_violaciones csp asg x_i v = k)
                (ordena_valores csp asg x_i)
         = filter (λ v, num_violaciones csp asg x_i v = k)
                  (enum (D csp !!! x_i)).
Proof.
  split; [apply elem_of_pares_en_juego|]. split; [apply conflictos_num|].
  split; [apply sorted_reverse_perm|]. split; [apply elem_of_ordena_valores|].
  unfold ordena_valores. split.
  - eapply StronglySorted_cambia; [|apply sorted_reverse_sorted]. simpl.
    intros u v Hle.
    pose proof (conflictos_num csp asg x_i u).
    pose proof (conflictos_num csp asg x_i v). lia.
  - intros k. apply sorted_reverse_filter. intros u v Hu Hv.
    pose proof (conflictos_num csp asg x_i u).
    pose proof (conflictos_num csp asg x_i v). lia.
Qed.

(** ** The consistency enforcer *)

(** C3. When a call of [consistencia] with a value of the domain of [x_i]
    returns [None], the domain map is the one before the call, at every
    level; and on a constraint graph the call always returns. *)
Theorem consistencia_failure_restores_domains csp asg x_i v_i nivel :
  v_i ∈ D csp !!! x_i → x_i ∉ N csp !!! x_i →
  (∀ csp', consistencia csp asg x_i v_i nivel = Devuelve (None, csp') →
           D csp' = D csp)
  ∧ (bien_formado csp → x_i ∈ X csp →
     ∃ r csp', consistencia csp asg x_i v_i nivel = Devuelve (r, csp')).
Proof.
  intros Hv Hirr. split; [|intros _ _; apply consistencia_total].
  intros csp' Hc. by rewrite (consistencia_fallo _ _ _ _ _ _ Hv Hirr Hc).
Qed.

(** Every pair that a revision of [x_a] adds to the worklist starts with
    [x_a] itself. *)
Lemma reencola_direccion csp asg x_a z y : (z, y) ∈ reencola csp asg x_a → z = x_a.
Proof. rewrite elem_of_reencola. tauto. Qed.

(** C9, as amended. A candidate that [consistencia] rejects at one level is
    rejected, with the same domains left behind, at every higher level up
    to 2. *)
Theorem rejection_monotone_in_level csp asg x_i v_i n m csp' :
  n ≤ m → m ≤ 2 →
  consistencia csp asg x_i v_i n = Devuelve (None, csp') →
  consistencia csp asg x_i v_i m = Devuelve (None, csp').
Proof using Type.
  intros Hnm Hm. unfold consistencia.
  destruct (compatible_con_asignados csp asg x_i v_i); [|done].
  destruct (decide (1 ≤ n)) as [Hn|Hn].
  - rewrite (decide_True (P := 1 ≤ m)) by lia.
    destruct (poda_vecinos _ _ _ _ _ _) as [d'|[d1 dom_red1]]; [done|].
    destruct (decide (n = 2)) as [->|]; [|done].
    by rewrite (decide_True (P := m = 2)) by lia.
  - by rewrite (decide_False (P := n = 2)) by lia.
Qed.

(** ** Backtracking *)

Lemma asignacion_completa_correcta csp nivel :
  vecindad csp →
  ∃ apn csp', asignacion_completa csp nivel = Devuelve (apn, csp')
    ∧ mismo_grafo csp csp'
    ∧ resultado_correcto (X csp) (D csp) (N csp) ∅ apn.
Proof.
  intros Hbf. unfold asignacion_completa.
  apply (asignacion_grafo_restriccion_correcto _ _ (con_backtracking csp 0) ∅).
  - done.
  - rewrite dom_empty_L. conjuntos.
  - change (X (con_backtracking csp 0)) with (X csp).
    apply Nat.lt_succ_r, subseteq_size. conjuntos.
Qed.

Lemma consistente_vacio vecinos : consistente vecinos ∅.
Proof. intros x y vx vy Hx. by rewrite lookup_empty in Hx. Qed.

Lemma resultado_correcto_solucion csp apn :
  simetrica → resultado_correcto (X csp) (D csp) (N csp) ∅ apn →
  match apn with
  | Some a => solucion csp a
  | None => ∀ a, ¬ solucion csp a
  end.
Proof.
  intros Hsim. destruct apn as [a|]; simpl.
  - intros (_ & Hdom & Hval & Hcons). split; [done|]. split.
    + intros x v Hx. destruct (Hval x v Hx) as [H|H]; [|done].
      by rewrite lookup_empty in H.
    + apply Hcons; [done|apply consistente_vacio].
  - intros H a (Hdom & Hen & Hcons).
    apply (H a); [apply map_empty_subseteq|done..].
Qed.

(** A variable with an empty domain: the search returns [None]. *)
Lemma asignacion_completa_dominio_vacio csp nivel x :
  bien_formado csp → x ∈ X csp → D csp !!! x = ∅ →
  ∃ csp', asignacion_completa csp nivel = Devuelve (None, csp').
Proof.
  intros Hbf Hx He.
  destruct (asignacion_completa_correcta csp nivel (proj2 Hbf))
    as (apn & csp' & H & _ & Hres).
  destruct apn as [a|]; [|by eexists].
  destruct Hres as (_ & Hdom & Hval & _).
  assert (x ∈ dom a) as [v Hv]%elem_of_dom by by rewrite Hdom.
  destruct (Hval x v Hv) as [H0|H0]; [by rewrite lookup_empty in H0|].
  rewrite He in H0. by apply not_elem_of_empty in H0.
Qed.

(** C10. A call of [asignacion_completa] returns, with an assignment or with
    [None], and the domain map after the call is the one before it. *)
Theorem asignacion_completa_restores_domains csp nivel :
  bien_formado csp →
  ∃ apn csp', asignacion_completa csp nivel = Devuelve (apn, csp')
              ∧ D csp' = D csp.
Proof.
  intros Hbf.
  destruct (asignacion_completa_correcta csp nivel (proj2 Hbf))
    as (apn & csp' & H & (_ & _ & HD) & _).
  by exists apn, csp'.
Qed.

(** C5, as amended. After a call of [asignacion_completa] every domain, of a
    variable of the returned solution or not, is the one before the call;
    the value that a returned solution gives to a variable is an element of
    that domain, which is not collapsed to it. *)
Theorem asignacion_completa_restores_solution_domains csp nivel :
  bien_formado csp →
  ∃ apn csp', asignacion_completa csp nivel = Devuelve (apn, csp')
    ∧ (∀ x, D csp' !!! x = D csp !!! x)
    ∧ ∀ a x v, apn = Some a → a !! x = Some v → v ∈ D csp' !!! x.
Proof.
  intros Hbf.
  destruct (asignacion_completa_correcta csp nivel (proj2 Hbf))
    as (apn & csp' & H & (_ & _ & HD) & Hres).
  exists apn, csp'. split; [done|]. rewrite HD. split; [done|].
  intros a x v -> Hx. destruct Hres as (_ & _ & Hval & _).
  destruct (Hval x v Hx) as [H0|H0]; [|done]. by rewrite lookup_empty in H0.
Qed.

(** C2. On a well-formed graph with a symmetric predicate the three levels
    return, and each of them returns an assignment exactly when the problem
    has a solution: they agree on the outcome. *)
Theorem consistency_levels_agree csp :
  bien_formado csp → simetrica →
  ∃ r0 r1 r2 c0 c1 c2,
    asignacion_completa csp 0 = Devuelve (r0, c0)
    ∧ asignacion_completa csp 1 = Devuelve (r1, c1)
    ∧ asignacion_completa csp 2 = Devuelve (r2, c2)
    ∧ (is_Some r0 ↔ is_Some r1) ∧ (is_Some r1 ↔ is_Some r2)
    ∧ (is_Some r0 ↔ ∃ a, solucion csp a).
Proof.
  intros Hbf Hsim.
  assert (∀ nivel, ∃ r c, asignacion_completa csp nivel = Devuelve (r, c)
                          ∧ (is_Some r ↔ ∃ a, solucion csp a)) as H.
  { intros nivel.
    destruct (asignacion_completa_correcta csp nivel (proj2 Hbf)) as (r & c & Hr & _ & Hres).
    exists r, c. split; [done|].
    apply (resultado_correcto_solucion _ _ Hsim) in Hres.
    destruct r as [a|].
    - split; [by exists a|by eexists].
    - split; [by intros [? ?]|]. intros [a Ha]. by apply Hres in Ha. }
  destruct (H 0) as (r0 & c0 & H0 & E0).
  destruct (H 1) as (r1 & c1 & H1 & E1).
  destruct (H 2) as (r2 & c2 & H2 & E2).
  exists r0, r1, r2, c0, c1, c2. rewrite E0, E1, E2. tauto.
Qed.

(** C1. On a well-formed graph with a symmetric predicate, an assignment
    returned by [asignacion_completa] or by [minimos_conflictos] gives a value
    to every variable and satisfies the predicate on every ordered pair of
    neighbours. *)
Theorem soundness_of_both_solvers csp :
  bien_formado csp → simetrica →
  (∀ nivel a csp', asignacion_completa csp nivel = Devuelve (Some a, csp') →
     dom a = X csp ∧ consistente (N csp) a)
  ∧ (∀ max_iter paciencia az a,
       minimos_conflictos csp max_iter paciencia az = Devuelve (Some a) →
       dom a = X csp ∧ consistente (N csp) a).
Proof.
  intros Hbf Hsim. split.
  - intros nivel a csp' Ha.
    destruct (asignacion_completa_correcta csp nivel (proj2 Hbf)) as (r & c & Hr & _ & Hres).
    rewrite Ha in Hr. simplify_eq.
    apply (resultado_correcto_solucion _ _ Hsim) in Hres as (? & _ & ?). done.
  - intros max_iter paciencia az a Ha.
    apply minimos_conflictos_ok in Ha as (Hdom & _ & H0). split; [done|].
    apply total_conflictos_cero; [by rewrite Hdom|done].
Qed.

(** ** Min-conflicts *)

(** An empty domain of a variable makes [minimos_conflictos] raise. *)
Lemma minimos_conflictos_dominio_vacio csp max_iter paciencia az x :
  x ∈ X csp → D csp !!! x = ∅ →
  minimos_conflictos csp max_iter paciencia az = Lanza IndexError.
Proof.
  intros Hx He. unfold minimos_conflictos.
  rewrite (asignacion_aleatoria_vacio csp _ ∅ az x); [done| |done].
  by apply elem_of_enum.
Qed.

(** C8. On a graph with non-empty domains (and fewer than [10^10] ordered
    pairs of neighbours, the initial value of [min_conflictos]) the initial
    assignment
    is drawn, the loop runs [k] iterations with [k] at most [max_iter], and
    then either [k] is [max_iter] and the result is [None], or the next
    iteration finds no conflict and returns its assignment.  When the problem
    has no solution the result is [None]. *)
Theorem minimos_conflictos_bounded csp max_iter paciencia az :
  definido csp →
  (∀ x, x ∈ X csp → D csp !!! x ≠ ∅) →
  (Z.of_nat (grado_total csp) < infinito)%Z →
  (∃ a0 az0 k st,
     asignacion_aleatoria csp (enum (X csp)) ∅ az = Some (a0, az0)
     ∧ k ≤ max_iter
     ∧ corre csp paciencia k (mkEstado a0 infinito None az0) = Some st
     ∧ ((k = max_iter
         ∧ minimos_conflictos csp max_iter paciencia az = Devuelve None)
        ∨ (k < max_iter
           ∧ total_conflictos csp (asign st) = 0
           ∧ minimos_conflictos csp max_iter paciencia az
             = Devuelve (Some (asign st)))))
  ∧ ((∀ a, ¬ solucion csp a) →
     minimos_conflictos csp max_iter paciencia az = Devuelve None).
Proof.
  intros _ Hne Hcota.
  destruct (asignacion_aleatoria_total csp (enum (X csp)) ∅ az) as (a0 & az0 & Ha0).
  { intros x Hx. by apply Hne, elem_of_enum. }
  assert (estado_ok csp (mkEstado a0 infinito None az0)) as Hok.
  { apply asignacion_aleatoria_dom in Ha0 as [Hdom Hen]. split; simpl.
    - rewrite Hdom, dom_empty_L, (left_id_L ∅ union). apply set_eq. intros x.
      by rewrite elem_of_list_to_set, elem_of_enum.
    - apply Hen. intros x v. by rewrite lookup_empty. }
  destruct (bucle_corre csp paciencia max_iter Hne Hcota _ Hok)
    as (k & st & Hk & Hcorre & Hres); [done|].
  assert (minimos_conflictos csp max_iter paciencia az
          = bucle csp paciencia max_iter (mkEstado a0 infinito None az0)) as Hmc.
  { unfold minimos_conflictos. by rewrite Ha0. }
  split.
  - exists a0, az0, k, st. rewrite Hmc. done.
  - intros Hunsat. rewrite Hmc.
    destruct Hres as [[_ ?]|(_ & H0 & Hb)]; [done|].
    rewrite <- Hmc in Hb. apply minimos_conflictos_ok in Hb as (Hdom & Hen & Hz).
    destruct (Hunsat (asign st)). split; [done|]. split; [done|].
    apply total_conflictos_cero; [by rewrite Hdom|done].
Qed.

(** ** More on the consistency enforcer *)

(** The two maps of the first lines of [consistencia]. *)
Lemma consistencia_Some csp asg x_i v_i nivel r csp' :
  consistencia csp asg x_i v_i nivel = Devuelve (Some r, csp') →
  compatible_con_asignados csp asg x_i v_i = true
  ∧ csp' = con_D csp (D csp')
  ∧ ∃ d1 r1,
      (if decide (1 ≤ nivel)
       then poda_vecinos asg x_i v_i (enum (N csp !!! x_i))
              (<[x_i := {[ v_i ]}]> (D csp)) {[ x_i := D csp !!! x_i ∖ {[ v_i ]} ]}
       else inr (<[x_i := {[ v_i ]}]> (D csp),
                 {[ x_i := D csp !!! x_i ∖ {[ v_i ]} ]})) = inr (d1, r1)
      ∧ if decide (nivel = 2)
        then arco_consistencia (cota_arcos csp d1) csp asg
               (pendientes_iniciales csp asg) d1 r1 = Devuelve (inr (D csp', r))
        else D csp' = d1 ∧ r = r1.
Proof using Type.
  unfold consistencia.
  destruct (compatible_con_asignados csp asg x_i v_i); [|done].
  destruct (if decide (1 ≤ nivel) then _ else _) as [d'|[d1 r1]]; [done|].
  destruct (decide (nivel = 2)).
  - destruct (arco_consistencia _ _ _ _ _ _) as [[d'|[d2 r2]]| |] eqn:Ha; try done.
    intros [= <- <-]. split; [done|]. split; [done|]. by exists d1, r1.
  - intros [= <- <-]. split; [done|]. split; [done|]. by exists d1, r1.
Qed.

Lemma elem_of_incompatibles (asg : gmap Z Z) x_i v_i x_j (s : gset Z) w :
  w ∈ (list_to_set (filter (λ v_j, restriccion_binaria x_i v_i x_j v_j = false)
                           (enum s)) : gset Z)
  ↔ w ∈ s ∧ restriccion_binaria x_i v_i x_j w = false.
Proof. rewrite elem_of_list_to_set, list_elem_of_filter, elem_of_enum. tauto. Qed.

(** What the loop of level 1 leaves when it runs to its end. *)
Lemma poda_vecinos_inr asg x_i v_i vecinos :
  NoDup vecinos → ∀ d r d' r',
  poda_vecinos asg x_i v_i vecinos d r = inr (d', r') →
  (∀ x, x ∈ vecinos → asg !! x = None →
        d' !!! x ≠ ∅
        ∧ ∀ w, w ∈ d' !!! x ↔
               w ∈ d !!! x ∧ restriccion_binaria x_i v_i x w = true)
  ∧ (∀ x, x ∉ vecinos ∨ asg !! x ≠ None → d' !! x = d !! x).
Proof.
  induction vecinos as [|x_j resto IH]; intros Hnd d r d' r' H; simpl in H.
  { simplify_eq. split; [by intros x ?%elem_of_nil|done]. }
  apply NoDup_cons in Hnd as [Hnotin Hnd].
  destruct (decide (asg !! x_j = None)) as [Hxj|Hxj].
  2:{ destruct (IH Hnd _ _ _ _ H) as [H1 H2]. split.
      - intros x [->|Hx]%elem_of_cons Hax; [done|]. by apply H1.
      - intros x [Hx|Hx]; apply H2; [|by right].
        left. intros ?. apply Hx. by right. }
  set (vs := list_to_set _ : gset Z) in H.
  assert (∃ d1 r1, d1 !!! x_j = d !!! x_j ∖ vs
                   ∧ (∀ x, x ≠ x_j → d1 !! x = d !! x)
                   ∧ d1 !!! x_j ≠ ∅
                   ∧ poda_vecinos asg x_i v_i resto d1 r1 = inr (d', r'))
    as (d1 & r1 & Hd1 & Hotros & Hne & Hrec).
  { destruct (decide (vs ≠ ∅)) as [Hvs|Hvs].
    - destruct (decide (_ = ∅)) as [|Hne]; [done|]. eexists _, _.
      split; [by rewrite lookup_total_insert_eq|]. split; [|done].
      intros x Hx. by rewrite lookup_insert_ne.
    - destruct (decide (_ = ∅)) as [|Hne]; [done|]. exists d, r.
      apply dec_stable in Hvs. rewrite Hvs. split; [conjuntos|done]. }
  destruct (IH Hnd _ _ _ _ Hrec) as [H1 H2].
  assert (∀ w, w ∈ d !!! x_j ∖ vs ↔
               w ∈ d !!! x_j ∧ restriccion_binaria x_i v_i x_j w = true) as Hmem.
  { intros w. unfold vs. rewrite elem_of_difference, (elem_of_incompatibles asg).
    destruct (restriccion_binaria x_i v_i x_j w); logica. }
  split.
  - intros x [->|Hx]%elem_of_cons Hax.
    + assert (d' !!! x_j = d1 !!! x_j) as ->.
      { apply lookup_total_eq, H2. by left. }
      rewrite Hd1. split; [by rewrite <- Hd1|done].
    + assert (x ≠ x_j) as Hne' by (by intros ->).
      destruct (H1 x Hx Hax) as [? Hw]. split; [done|]. intros w.
      by rewrite Hw, (lookup_total_eq _ _ _ (Hotros x Hne')).
  - intros x Hx. assert (x ≠ x_j) as Hne'.
    { destruct Hx as [Hx|Hx]; intros ->; [apply Hx; left|done]. }
    rewrite <- (Hotros x Hne'). apply H2.
    destruct Hx as [Hx|Hx]; [left|by right]. intros ?. apply Hx. by right.
Qed.

(** The loop of level 1 stops at a neighbour without a compatible value. *)
Lemma poda_vecinos_inl asg x_i v_i vecinos :
  NoDup vecinos → ∀ d r,
  (∃ d', poda_vecinos asg x_i v_i vecinos d r = inl d') ↔
  ∃ x, x ∈ vecinos ∧ asg !! x = None
       ∧ ∀ w, w ∈ d !!! x → restriccion_binaria x_i v_i x w = false.
Proof.
  induction vecinos as [|x_j resto IH]; intros Hnd d r; simpl.
  { split; [by intros [? ?]|]. by intros (x & ?%elem_of_nil & _). }
  apply NoDup_cons in Hnd as [Hnotin Hnd].
  destruct (decide (asg !! x_j = None)) as [Hxj|Hxj].
  2:{ rewrite (IH Hnd). split.
      - intros (x & ? & ? & ?). exists x. split; [by right|done].
      - intros (x & [->|Hx]%elem_of_cons & ? & ?); [done|]. by exists x. }
  set (vs := list_to_set _ : gset Z).
  assert (∀ w, w ∈ d !!! x_j ∖ vs ↔
               w ∈ d !!! x_j ∧ restriccion_binaria x_i v_i x_j w = true) as Hmem.
  { intros w. unfold vs. rewrite elem_of_difference, (elem_of_incompatibles asg).
    destruct (restriccion_binaria x_i v_i x_j w); logica. }
  assert (∃ d1 r1, d1 !!! x_j = d !!! x_j ∖ vs
            ∧ (∀ x, x ≠ x_j → d1 !! x = d !! x)
            ∧ (let '(d1', r1') :=
                 if decide (vs ≠ ∅)
                 then (<[x_j := d !!! x_j ∖ vs]> d, <[x_j := vs]> r)
                 else (d, r) in
               if decide (d1' !!! x_j = ∅) then inl (restaura d1' r1')
               else poda_vecinos asg x_i v_i resto d1' r1')
              = if decide (d1 !!! x_j = ∅) then inl (restaura d1 r1)
                else poda_vecinos asg x_i v_i resto d1 r1)
    as (d1 & r1 & Hd1 & Hotros & ->).
  { destruct (decide (vs ≠ ∅)) as [Hvs|Hvs].
    - eexists _, _. split; [by rewrite lookup_total_insert_eq|]. split; [|done].
      intros x Hx. by rewrite lookup_insert_ne.
    - exists d, r. apply dec_stable in Hvs. rewrite Hvs. split; [conjuntos|done]. }
  destruct (decide (d1 !!! x_j = ∅)) as [He|Hne].
  - split; [|by eexists]. intros _. exists x_j. split; [left|]. split; [done|].
    intros w Hw. destruct (restriccion_binaria x_i v_i x_j w) eqn:Hrb; [|done].
    assert (w ∈ d1 !!! x_j) as Hin by (rewrite Hd1; by apply Hmem).
    rewrite He in Hin. by apply not_elem_of_empty in Hin.
  - rewrite (IH Hnd). split.
    + intros (x & Hx & Hax & Hw). exists x. split; [by right|]. split; [done|].
      assert (x ≠ x_j) as Hne' by (by intros ->).
      by rewrite <- (lookup_total_eq _ _ _ (Hotros x Hne')).
    + intros (x & [->|Hx]%elem_of_cons & Hax & Hw).
      * destruct Hne. apply set_eq. intros w. rewrite Hd1, Hmem. split.
        -- intros [Hin Hrb]. by rewrite (Hw w Hin) in Hrb.
        -- by intros ?%not_elem_of_empty.
      * exists x. split; [done|]. split; [done|].
        assert (x ≠ x_j) as Hne' by (by intros ->).
        by rewrite (lookup_total_eq _ _ _ (Hotros x Hne')).
Qed.

(** What the loop of level 2 leaves when it runs to its end: domains only
    shrink, none becomes empty, and a variable that starts no pending pair is
    not touched. *)
Lemma arco_consistencia_inr n csp asg :
  ∀ pend d r d' r',
  arco_consistencia n csp asg pend d r = Devuelve (inr (d', r')) →
  ∀ x, d' !!! x ⊆ d !!! x ∧ (d !!! x ≠ ∅ → d' !!! x ≠ ∅)
       ∧ ((∀ y, (x, y) ∉ pend) → d' !! x = d !! x).
Proof.
  induction n as [|n IH]; intros pend d r d' r' H x; simpl in H; [done|].
  destruct (head (enumP pend)) as [[x_a x_b]|] eqn:Hhd.
  2:{ by simplify_eq. }
  apply head_enumP in Hhd.
  destruct (decide (sin_soporte d x_a x_b ≠ ∅)) as [Hvs|Hvs].
  - destruct (decide (_ = ∅)) as [|Hne]; [done|].
    destruct (IH _ _ _ _ _ H x) as (Hsub & Hnv & Hfr).
    rewrite lookup_total_insert_eq in Hne.
    destruct (decide (x = x_a)) as [->|Hxa].
    + rewrite lookup_total_insert_eq in Hsub, Hnv.
      split; [conjuntos|]. split; [by intros _; apply Hnv|].
      intros Hno. by destruct (Hno x_b).
    + rewrite lookup_total_insert_ne in Hsub, Hnv by done.
      split; [done|]. split; [done|]. intros Hno.
      rewrite Hfr; [by rewrite lookup_insert_ne|].
      intros y [Hy|Hy]%elem_of_union.
      * apply elem_of_difference in Hy as [Hy _]. by apply (Hno y).
      * apply elem_of_reencola in Hy as [? _]. done.
  - destruct (IH _ _ _ _ _ H x) as (Hsub & Hnv & Hfr).
    split; [done|]. split; [done|]. intros Hno. apply Hfr.
    intros y Hy. apply elem_of_difference in Hy as [Hy _]. by apply (Hno y).
Qed.

Lemma poda_vecinos_sub asg x_i v_i vecinos d r d' r' :
  NoDup vecinos →
  poda_vecinos asg x_i v_i vecinos d r = inr (d', r') →
  ∀ x, d' !!! x ⊆ d !!! x.
Proof.
  intros Hnd H x. destruct (poda_vecinos_inr _ _ _ _ Hnd _ _ _ _ H) as [H1 H2].
  destruct (decide (x ∈ vecinos ∧ asg !! x = None)) as [[Hx Hax]|Hno].
  - destruct (H1 x Hx Hax) as [_ Hw]. intros w. rewrite Hw. tauto.
  - assert (x ∉ vecinos ∨ asg !! x ≠ None) as Hx.
    { destruct (decide (x ∈ vecinos)); [right|by left]. intros ?. by apply Hno. }
    by rewrite (lookup_total_eq _ _ _ (H2 x Hx)).
Qed.

Lemma head_enumP_None s : head (enumP s) = None → s = ∅.
Proof.
  intros H. apply set_eq. intros p. rewrite <- elem_of_enumP.
  destruct (enumP s); [|done]. split; [by intros ?%elem_of_nil|].
  by intros ?%not_elem_of_empty.
Qed.

Lemma elem_of_sin_soporte d a b va :
  va ∈ sin_soporte d a b ↔ va ∈ d !!! a ∧ ¬ soportado d a va b.
Proof.
  unfold sin_soporte, soportado.
  rewrite elem_of_list_to_set, list_elem_of_filter, elem_of_enum.
  rewrite <- not_true_iff_false, existsb_exists.
  assert ((∃ x, In x (enum (d !!! b)) ∧ restriccion_binaria a va b x = true)
          ↔ ∃ vb, vb ∈ d !!! b ∧ restriccion_binaria a va b vb = true) as ->.
  { split; intros (vb & Hb & Hrb); exists vb; (split; [|done]).
    - by rewrite <- elem_of_enum, list_elem_of_In.
    - by rewrite <- list_elem_of_In, elem_of_enum. }
  tauto.
Qed.

Global Instance soportado_dec d a va b : Decision (soportado d a va b).
Proof.
  destruct (existsb (λ vb, restriccion_binaria a va b vb) (enum (d !!! b))) eqn:He.
  - left. apply existsb_exists in He as (vb & Hb & Hrb). exists vb.
    by rewrite <- elem_of_enum, list_elem_of_In.
  - right. intros (vb & Hb & Hrb). apply not_true_iff_false in He. apply He.
    apply existsb_exists. exists vb. by rewrite <- list_elem_of_In, elem_of_enum.
Qed.

(** Every value that the loop of level 2 leaves to [a] has a support in the
    domain that [b] had when the loop started, for every pair [(a, b)] of the
    worklist. *)
Lemma arco_consistencia_soporte (n : nat) (csp : ProblemaCSP) (asg : gmap Z Z)
    (pend0 : gset (Z * Z)) (dstart : gmap Z (gset Z)) :
  ∀ (pend : gset (Z * Z)) (d r d' r' : gmap Z (gset Z)),
  (∀ x, d !!! x ⊆ dstart !!! x) →
  (∀ a b : Z, (a, b) ∈ pend0 → (a, b) ∉ pend →
              ∀ va, va ∈ d !!! a → soportado dstart a va b) →
  arco_consistencia n csp asg pend d r = Devuelve (inr (d', r')) →
  ∀ a b : Z, (a, b) ∈ pend0 → ∀ va, va ∈ d' !!! a → soportado dstart a va b.
Proof.
  assert (∀ d a va b, (∀ x, d !!! x ⊆ dstart !!! x) →
                      soportado d a va b → soportado dstart a va b) as Hmono.
  { intros d a va b Hsub (vb & Hb & Hrb). exists vb. split; [by apply Hsub|done]. }
  induction n as [|n IH]; intros pend d r d' r' Hsub Hinv H; simpl in H; [done|].
  destruct (head (enumP pend)) as [[x_a x_b]|] eqn:Hhd.
  2:{ simplify_eq. apply head_enumP_None in Hhd. subst pend.
      intros a b Hab. apply Hinv; [done|]. apply not_elem_of_empty. }
  apply head_enumP in Hhd.
  destruct (decide (sin_soporte d x_a x_b ≠ ∅)) as [Hvs|Hvs].
  - destruct (decide (_ = ∅)) as [|Hne]; [done|].
    intros a0 b0 Hab0 va0 Hva0.
    eapply (λ H1 H2, IH _ _ _ _ _ H1 H2 H a0 b0 Hab0 va0 Hva0).
    + intros x. destruct (decide (x = x_a)) as [->|].
      * rewrite lookup_total_insert_eq. specialize (Hsub x_a). conjuntos.
      * by rewrite lookup_total_insert_ne.
    + intros a b Hab Hno va Hva.
      destruct (decide ((a, b) = (x_a, x_b))) as [Heq|Hneq].
      * simplify_eq. rewrite lookup_total_insert_eq in Hva.
        apply elem_of_difference in Hva as [Hva Hns].
        destruct (decide (soportado d x_a va x_b)) as [Hs|Hs]; [by eapply Hmono|].
        destruct Hns. by apply elem_of_sin_soporte.
      * apply Hinv; [done|conjuntos|].
        destruct (decide (a = x_a)) as [->|].
        -- rewrite lookup_total_insert_eq in Hva. conjuntos.
        -- by rewrite lookup_total_insert_ne in Hva.
  - intros a0 b0 Hab0 va0 Hva0.
    eapply (λ H2, IH _ _ _ _ _ Hsub H2 H a0 b0 Hab0 va0 Hva0).
    intros a b Hab Hno va Hva.
    destruct (decide ((a, b) = (x_a, x_b))) as [Heq|Hneq].
    + simplify_eq. apply dec_stable in Hvs.
      destruct (decide (soportado d x_a va x_b)) as [Hs|Hs]; [by eapply Hmono|].
      assert (va ∈ sin_soporte d x_a x_b) as Hin by by apply elem_of_sin_soporte.
      rewrite Hvs in Hin. by apply not_elem_of_empty in Hin.
    + apply Hinv; [done|conjuntos|done].
Qed.

Lemma disjunto_quita (d r : gmap Z (gset Z)) x (q vs : gset Z) :
  disjunto d r → q ## d !!! x →
  disjunto (<[x := d !!! x ∖ vs]> d) (<[x := q ∪ vs]> r).
Proof.
  intros Hdis Hq y p. destruct (decide (y = x)) as [->|Hne].
  - rewrite lookup_insert_eq, lookup_total_insert_eq. intros [= <-]. conjuntos.
  - rewrite lookup_insert_ne, lookup_total_insert_ne by done. apply Hdis.
Qed.

Lemma poda_vecinos_disjunto asg x_i v_i vecinos :
  ∀ d r d' r', disjunto d r →
  poda_vecinos asg x_i v_i vecinos d r = inr (d', r') → disjunto d' r'.
Proof.
  induction vecinos as [|x_j resto IH]; intros d r d' r' Hdis H; simpl in H.
  { by simplify_eq. }
  destruct (decide (asg !! x_j = None)); [|by eapply IH].
  set (vs := list_to_set _ : gset Z) in H.
  destruct (decide (vs ≠ ∅)).
  - destruct (decide (_ = ∅)); [done|]. eapply IH; [|done].
    pose proof (disjunto_quita d r x_j ∅ vs Hdis) as Hq.
    rewrite (left_id_L ∅ union) in Hq. apply Hq. conjuntos.
  - destruct (decide (_ = ∅)); [done|]. by eapply IH.
Qed.

Lemma arco_consistencia_disjunto n csp asg :
  ∀ pend d r d' r', disjunto d r →
  arco_consistencia n csp asg pend d r = Devuelve (inr (d', r')) →
  disjunto d' r'.
Proof.
  induction n as [|n IH]; intros pend d r d' r' Hdis H; simpl in H; [done|].
  destruct (head (enumP pend)) as [[x_a x_b]|]; [|by simplify_eq].
  destruct (decide (sin_soporte d x_a x_b ≠ ∅)); [|by eapply IH].
  destruct (decide (_ = ∅)); [done|]. eapply IH; [|done].
  apply disjunto_quita; [done|].
  destruct (r !! x_a) as [q|] eqn:Hr; simpl; [by eapply Hdis|conjuntos].
Qed.

Lemma consistencia_disjunto csp asg x_i v_i nivel r csp' :
  consistencia csp asg x_i v_i nivel = Devuelve (Some r, csp') →
  disjunto (D csp') r.
Proof.
  intros (_ & _ & d1 & r1 & H1 & H2)%consistencia_Some.
  assert (disjunto (<[x_i := {[ v_i ]}]> (D csp))
                   {[ x_i := D csp !!! x_i ∖ {[ v_i ]} ]}) as H0.
  { intros y q. destruct (decide (y = x_i)) as [->|Hne].
    - rewrite lookup_singleton_eq, lookup_total_insert_eq. intros [= <-]. conjuntos.
    - by rewrite lookup_singleton_ne. }
  assert (disjunto d1 r1) as Hd1.
  { destruct (decide (1 ≤ nivel)); [by eapply poda_vecinos_disjunto|].
    by simplify_eq. }
  destruct (decide (nivel = 2)).
  - by eapply arco_consistencia_disjunto.
  - by destruct H2 as [-> ->].
Qed.

(** X1. On success the reversal record holds, for each of its variables,
    exactly the values that the call removed from the domain, the domain of a
    variable that is not in the record is untouched, and nothing but the
    domain map changes. *)
Theorem consistencia_record_is_exact csp asg x_i v_i nivel r csp' :
  v_i ∈ D csp !!! x_i → x_i ∉ N csp !!! x_i →
  consistencia csp asg x_i v_i nivel = Devuelve (Some r, csp') →
  X csp' = X csp ∧ N csp' = N csp ∧ backtracking csp' = backtracking csp
  ∧ ∀ x, match r !! x with
         | Some q => q = D csp !!! x ∖ D csp' !!! x
                     ∧ D csp' !!! x ⊆ D csp !!! x
         | None => D csp' !! x = D csp !! x
         end.
Proof.
  intros Hv Hirr Hc.
  pose proof (consistencia_registra csp asg x_i v_i nivel Hv Hirr) as Hreg.
  pose proof (consistencia_disjunto _ _ _ _ _ _ _ Hc) as Hdis.
  rewrite Hc in Hreg. destruct Hreg as [Hreg ->]. simpl.
  do 3 (split; [done|]). intros x. specialize (Hreg x). specialize (Hdis x).
  destruct (r !! x) as [q|]; [|done].
  destruct Hreg as (s & Hs & H0). specialize (Hdis q eq_refl).
  rewrite (lookup_total_correct _ _ _ H0).
  rewrite (lookup_total_correct _ _ _ Hs) in Hdis |- *. clear Hs H0. conjuntos.
Qed.

(** X2. On success the domain of [x_i] is the singleton of the candidate
    value, at every level. *)
Theorem consistencia_collapses_domain csp asg x_i v_i nivel r csp' :
  x_i ∉ N csp !!! x_i →
  consistencia csp asg x_i v_i nivel = Devuelve (Some r, csp') →
  D csp' !!! x_i = {[ v_i ]}.
Proof.
  intros Hirr (_ & _ & d1 & r1 & H1 & H2)%consistencia_Some.
  assert (d1 !!! x_i = {[ v_i ]}) as Hd1.
  { destruct (decide (1 ≤ nivel)).
    - destruct (poda_vecinos_inr _ _ _ _ (NoDup_enum _) _ _ _ _ H1) as [_ Hfr].
      assert (x_i ∉ enum (N csp !!! x_i) ∨ asg !! x_i ≠ None) as Hx.
      { left. by rewrite elem_of_enum. }
      unfold lookup_total, map_lookup_total. rewrite (Hfr x_i Hx).
      by rewrite lookup_insert_eq.
    - simplify_eq. by rewrite lookup_total_insert_eq. }
  destruct (decide (nivel = 2)); [|by destruct H2 as [-> _]].
  destruct (arco_consistencia_inr _ _ _ _ _ _ _ _ H2 x_i) as (Hsub & Hne & _).
  rewrite Hd1 in Hsub, Hne.
  assert (D csp' !!! x_i ≠ ∅) as Hne' by (apply Hne; conjuntos).
  apply set_choose_L in Hne' as [w Hw]. clear Hne. conjuntos.
Qed.

Lemma compatible_con_asignados_false csp asg x_i v_i :
  compatible_con_asignados csp asg x_i v_i = false ↔
  ∃ x_j v_j, asg !! x_j = Some v_j ∧ x_j ∈ N csp !!! x_i
             ∧ restriccion_binaria x_i v_i x_j v_j = false.
Proof.
  split.
  - intros Hf.
    destruct (decide (∃ x_j v_j, asg !! x_j = Some v_j ∧ x_j ∈ N csp !!! x_i
                ∧ restriccion_binaria x_i v_i x_j v_j = false)) as [|Hno]; [done|].
    assert (compatible_con_asignados csp asg x_i v_i = true) as Ht; [|congruence].
    apply compatible_con_asignados_spec. intros x_j v_j Hj Hn.
    destruct (restriccion_binaria x_i v_i x_j v_j) eqn:Hrb; [done|].
    destruct Hno. by exists x_j, v_j.
  - intros (x_j & v_j & Hj & Hn & Hrb).
    destruct (compatible_con_asignados csp asg x_i v_i) eqn:Hc; [|done].
    rewrite compatible_con_asignados_spec in Hc.
    by rewrite (Hc x_j v_j Hj Hn) in Hrb.
Qed.

Lemma insert_total_ne (d : gmap Z (gset Z)) x y (s : gset Z) :
  x ≠ y → <[x := s]> d !!! y = d !!! y.
Proof. intros. by rewrite lookup_total_insert_ne. Qed.

(** X3. Forward checking.  A successful call at level 1 or 2 leaves every
    unassigned neighbour of [x_i] with a non-empty domain whose values are
    all compatible with [x_i = v_i]; at level 1 that domain is exactly the
    set of compatible values of the domain before the call. *)
Theorem consistencia_forward_checking csp asg x_i v_i nivel r csp' x :
  x_i ∉ N csp !!! x_i → 1 ≤ nivel →
  consistencia csp asg x_i v_i nivel = Devuelve (Some r, csp') →
  x ∈ N csp !!! x_i → asg !! x = None →
  D csp' !!! x ≠ ∅
  ∧ (∀ w, w ∈ D csp' !!! x →
          w ∈ D csp !!! x ∧ restriccion_binaria x_i v_i x w = true)
  ∧ (nivel ≠ 2 →
     ∀ w, w ∈ D csp !!! x → restriccion_binaria x_i v_i x w = true →
          w ∈ D csp' !!! x).
Proof.
  intros Hirr Hniv (_ & _ & d1 & r1 & H1 & H2)%consistencia_Some Hx Hasg.
  destruct (decide (1 ≤ nivel)); [|lia].
  destruct (poda_vecinos_inr _ _ _ _ (NoDup_enum _) _ _ _ _ H1) as [Hpoda _].
  destruct (Hpoda x) as [Hne Hw]; [by apply elem_of_enum|done|].
  assert (x_i ≠ x) as Hxi by (by intros ->).
  rewrite insert_total_ne in Hw by done.
  destruct (decide (nivel = 2)).
  - destruct (arco_consistencia_inr _ _ _ _ _ _ _ _ H2 x) as (Hsub & Hne2 & _).
    split; [by apply Hne2|]. split; [|done].
    intros w Hin. apply Hw, Hsub, Hin.
  - destruct H2 as [-> _]. split; [done|]. split.
    + intros w. apply Hw.
    + intros _ w ??. by apply Hw.
Qed.

(** X4. The exact conditions of a rejection at levels 0 and 1, on a graph
    whose maps are defined on the variables: an assigned neighbour is
    incompatible with the candidate value or, at level 1, the candidate value
    leaves an unassigned neighbour without a value. *)
Theorem consistencia_rejects_iff csp asg x_i v_i nivel :
  definido csp → x_i ∈ X csp → x_i ∉ N csp !!! x_i → nivel ≤ 1 →
  (∃ csp', consistencia csp asg x_i v_i nivel = Devuelve (None, csp')) ↔
  (∃ x_j v_j, asg !! x_j = Some v_j ∧ x_j ∈ N csp !!! x_i
              ∧ restriccion_binaria x_i v_i x_j v_j = false)
  ∨ (nivel = 1
     ∧ ∃ x, x ∈ N csp !!! x_i ∧ asg !! x = None
            ∧ ∀ w, w ∈ D csp !!! x → restriccion_binaria x_i v_i x w = false).
Proof.
  intros _ _ Hirr Hniv. rewrite <- compatible_con_asignados_false.
  pose proof (poda_vecinos_inl asg x_i v_i (enum (N csp !!! x_i)) (NoDup_enum _)
                (<[x_i := {[ v_i ]}]> (D csp))
                {[ x_i := D csp !!! x_i ∖ {[ v_i ]} ]}) as Hinl.
  assert ((∃ x, x ∈ enum (N csp !!! x_i) ∧ asg !! x = None
             ∧ ∀ w, w ∈ <[x_i := {[ v_i ]}]> (D csp) !!! x →
                    restriccion_binaria x_i v_i x w = false) ↔
          (∃ x, x ∈ N csp !!! x_i ∧ asg !! x = None
             ∧ ∀ w, w ∈ D csp !!! x → restriccion_binaria x_i v_i x w = false))
    as Hequiv.
  { clear Hinl. split; intros (x & Hx & Hasg & Hw); exists x.
    - apply elem_of_enum in Hx. do 2 (split; [done|]).
      assert (x_i ≠ x) by (by intros ->).
      by rewrite insert_total_ne in Hw.
    - split; [by apply elem_of_enum|]. split; [done|].
      assert (x_i ≠ x) by (by intros ->).
      by rewrite insert_total_ne. }
  rewrite Hequiv in Hinl. clear Hequiv.
  unfold consistencia.
  destruct (compatible_con_asignados csp asg x_i v_i).
  2: { split; [by left|]. intros _. by eexists. }
  destruct (decide (1 ≤ nivel)) as [H1|H0].
  - assert (nivel = 1) as -> by lia. simpl.
    destruct (poda_vecinos _ _ _ _ _ _) as [d'|[d1 r1]] eqn:Hp.
    + split; [|intros _; by eexists].
      intros _. right. split; [done|]. apply Hinl. by eexists.
    + split; [by intros [? ?]|].
      intros [?|[_ Hx]]; [done|]. apply Hinl in Hx as [? ?]. done.
  - destruct (decide (nivel = 2)); [lia|].
    split; [by intros [? ?]|]. intros [?|[? _]]; [done|lia].
Qed.

Lemma pendientes_iniciales_fuera csp asg x :
  x ∉ X csp ∨ asg !! x ≠ None ∨ (∀ y, y ∈ N csp !!! x → asg !! y ≠ None) →
  ∀ y, (x, y) ∉ pendientes_iniciales csp asg.
Proof.
  intros H y. rewrite elem_of_pendientes_iniciales. intros (?&?&?&?).
  destruct H as [?|[?|H]]; [done..|]. by eapply H.
Qed.

(** X5. Frame of a successful call: apart from [x_i], level 0 changes no
    domain; level 1 changes only unassigned neighbours of [x_i]; level 2
    changes only unassigned variables, and of those that are not neighbours
    of [x_i] only the ones that have an unassigned neighbour. *)
Theorem consistencia_frame csp asg x_i v_i nivel r csp' x :
  consistencia csp asg x_i v_i nivel = Devuelve (Some r, csp') →
  x ≠ x_i →
  nivel = 0 ∨ asg !! x ≠ None
  ∨ (x ∉ N csp !!! x_i
     ∧ (nivel ≠ 2 ∨ x ∉ X csp ∨ ∀ y, y ∈ N csp !!! x → asg !! y ≠ None)) →
  D csp' !! x = D csp !! x.
Proof.
  intros (_ & _ & d1 & r1 & H1 & H2)%consistencia_Some Hx Hcaso.
  assert (nivel = 0 ∨ asg !! x ≠ None ∨ x ∉ N csp !!! x_i → d1 !! x = D csp !! x)
    as Hd1.
  { intros Hc. destruct (decide (1 ≤ nivel)).
    - destruct (poda_vecinos_inr _ _ _ _ (NoDup_enum _) _ _ _ _ H1) as [_ Hfr].
      rewrite Hfr, lookup_insert_ne; [done..|].
      rewrite elem_of_enum. destruct Hc as [?|[?|?]]; [lia|by right|by left].
    - simplify_eq. by rewrite lookup_insert_ne. }
  destruct (decide (nivel = 2)) as [->|Hn2].
  - destruct (arco_consistencia_inr _ _ _ _ _ _ _ _ H2 x) as (_ & _ & Hfr).
    rewrite Hfr.
    + apply Hd1. destruct Hcaso as [?|[?|[? _]]]; [done|by right; left|by right; right].
    + apply pendientes_iniciales_fuera.
      destruct Hcaso as [?|[?|[_ [?|[?|?]]]]]; [done|by right; left|done|by left|by right; right].
  - destruct H2 as [-> _]. apply Hd1.
    destruct Hcaso as [?|[?|[? _]]]; [by left|by right; left|by right; right].
Qed.

(** X6. Level 2 after level 1.  When the call succeeds at level 2 it
    succeeds at level 1 too, the domains of level 2 are subsets of those of
    level 1, and every value that level 2 keeps for an unassigned variable
    has a support in the level-1 domain of each of its unassigned
    neighbours. *)
Theorem consistencia_level_2_support csp asg x_i v_i r2 c2 :
  consistencia csp asg x_i v_i 2 = Devuelve (Some r2, c2) →
  ∃ r1 c1,
    consistencia csp asg x_i v_i 1 = Devuelve (Some r1, c1)
    ∧ (∀ x, D c2 !!! x ⊆ D c1 !!! x)
    ∧ (∀ x, D c1 !!! x ≠ ∅ → D c2 !!! x ≠ ∅)
    ∧ ∀ x y, x ∈ X csp → asg !! x = None →
             y ∈ N csp !!! x → asg !! y = None →
             ∀ vx, vx ∈ D c2 !!! x → soportado (D c1) x vx y.
Proof.
  intros H2. pose proof H2 as (Hc & _ & d1 & r1 & H1 & Harc)%consistencia_Some.
  destruct (decide (1 ≤ 2)); [|lia]. destruct (decide (2 = 2)); [|done].
  exists r1, (con_D csp d1). split.
  { unfold consistencia. rewrite Hc.
    destruct (decide (1 ≤ 1)); [|lia]. rewrite H1.
    by destruct (decide (1 = 2)). }
  simpl. split; [|split].
  - intros x. by destruct (arco_consistencia_inr _ _ _ _ _ _ _ _ Harc x) as (? & _).
  - intros x. by destruct (arco_consistencia_inr _ _ _ _ _ _ _ _ Harc x) as (_ & ? & _).
  - intros x y Hx Hax Hy Hay vx Hvx.
    eapply (arco_consistencia_soporte _ csp asg (pendientes_iniciales csp asg) d1
              (pendientes_iniciales csp asg) d1 r1 _ _); [done| |done| |done].
    + intros a b Hin Hnot. done.
    + by apply elem_of_pendientes_iniciales.
Qed.

(** X19. Pruning is safe.  On a constraint graph, when a solution extends
    the partial assignment and gives the candidate value to [x_i], the call
    accepts the candidate at every level, and every value of the solution is
    still in the domains it leaves; no symmetry of the predicate is needed. *)
Theorem consistencia_keeps_solutions csp asg x_i v_i nivel a :
  bien_formado csp → x_i ∈ X csp → solucion csp a → asg ⊆ a →
  a !! x_i = Some v_i →
  ∃ r csp', consistencia csp asg x_i v_i nivel = Devuelve (Some r, csp')
            ∧ en_dominios (D csp') a.
Proof.
  intros [_ Hvec] Hx Hsol Hsub Ha.
  pose proof (consistencia_conserva csp asg x_i v_i nivel a Hvec Hx Hsol Hsub Ha)
    as Hcons.
  destruct (consistencia_total csp asg x_i v_i nivel) as (r & csp' & Hr).
  rewrite Hr in Hcons. destruct r as [r|]; [|done]. by exists r, csp'.
Qed.

(** ** The builtins [max] and [min] with a key *)

Lemma max_desde_max {A} (key : A → nat) l :
  ∀ m x, x ∈ m :: l → key x ≤ key (max_desde key m l).
Proof using Type.
  clear. induction l as [|a l IH]; intros m x Hx; simpl.
  { apply list_elem_of_singleton in Hx as ->. done. }
  set (m' := if key m <? key a then a else m).
  assert (key m ≤ key m' ∧ key a ≤ key m') as [Hm Ha].
  { unfold m'. destruct (Nat.ltb_spec (key m) (key a)); lia. }
  assert (key m' ≤ key (max_desde key m' l)) by (apply IH; left).
  apply elem_of_cons in Hx as [->|[->|Hx]%elem_of_cons]; [lia|lia|].
  apply IH. by right.
Qed.

Lemma min_desde_min {A} (key : A → nat) l :
  ∀ m x, x ∈ m :: l → key (min_desde key m l) ≤ key x.
Proof using Type.
  clear. induction l as [|a l IH]; intros m x Hx; simpl.
  { apply list_elem_of_singleton in Hx as ->. done. }
  set (m' := if key a <? key m then a else m).
  assert (key m' ≤ key m ∧ key m' ≤ key a) as [Hm Ha].
  { unfold m'. destruct (Nat.ltb_spec (key a) (key m)); lia. }
  assert (key (min_desde key m' l) ≤ key m') by (apply IH; left).
  apply elem_of_cons in Hx as [->|[->|Hx]%elem_of_cons]; [lia|lia|].
  apply IH. by right.
Qed.

Lemma py_max_spec {A} (key : A → nat) l :
  match py_max key l with
  | Some x => x ∈ l ∧ ∀ y, y ∈ l → key y ≤ key x
  | None => l = []
  end.
Proof using Type.
  clear. destruct l as [|m l]; simpl; [done|]. split.
  - apply max_desde_elem.
  - intros y. apply max_desde_max.
Qed.

Lemma py_min_spec {A} (key : A → nat) l :
  match py_min key l with
  | Some x => x ∈ l ∧ ∀ y, y ∈ l → key x ≤ key y
  | None => l = []
  end.
Proof using Type.
  clear. destruct l as [|m l]; simpl; [done|]. split.
  - apply min_desde_elem.
  - intros y. apply min_desde_min.
Qed.

(** X7. On a graph whose maps are defined on the variables,
    [selecciona_variable] returns an unassigned variable: one with the most
    neighbours when nothing is assigned yet, one with the smallest domain
    otherwise.  It has no result ([max] or [min] of an empty sequence raises)
    only when every variable is assigned. *)
Theorem selecciona_variable_heuristic csp asg :
  definido csp →
  match selecciona_variable csp asg with
  | Some var =>
      var ∈ X csp ∧ asg !! var = None
      ∧ ∀ x, x ∈ X csp → asg !! x = None →
             (asg = ∅ → size (N csp !!! x) ≤ size (N csp !!! var))
             ∧ (asg ≠ ∅ → size (D csp !!! var) ≤ size (D csp !!! x))
  | None => ∀ x, x ∈ X csp → asg !! x ≠ None
  end.
Proof.
  intros _. unfold selecciona_variable. destruct (decide (asg = ∅)) as [->|Hne].
  - pose proof (py_max_spec (λ x, size (N csp !!! x)) (enum (X csp))) as H.
    destruct (py_max _ _) as [var|].
    + destruct H as [Hin Hmax]. apply elem_of_enum in Hin.
      split; [done|]. split; [done|]. intros x Hx _. split; [|done].
      intros _. apply Hmax. by apply elem_of_enum.
    + intros x Hx%elem_of_enum. rewrite H in Hx. by apply elem_of_nil in Hx.
  - pose proof (py_min_spec (λ x, size (D csp !!! x))
                  (filter (λ x, asg !! x = None) (enum (X csp)))) as H.
    destruct (py_min _ _) as [var|].
    + destruct H as [Hin Hmin]. apply list_elem_of_filter in Hin as [Hfree Hin].
      apply elem_of_enum in Hin.
      split; [done|]. split; [done|]. intros x Hx Hx'. split; [done|].
      intros _. apply Hmin. apply list_elem_of_filter. split; [done|].
      by apply elem_of_enum.
    + intros x Hx Hfree.
      assert (x ∈ filter (λ x, asg !! x = None) (enum (X csp))) as Hin.
      { apply list_elem_of_filter. split; [done|]. by apply elem_of_enum. }
      rewrite H in Hin. by apply elem_of_nil in Hin.
Qed.

(** X8. Restoring a reversal record is a union variable by variable,
    whatever the order in which the record is read; it adds no variable to
    the domain map. *)
Theorem restaura_is_pointwise_union d r :
  dom r ⊆ dom d →
  dom (restaura d r) = dom d
  ∧ ∀ x, restaura d r !!! x = d !!! x ∪ default ∅ (r !! x).
Proof using Type.
  clear. intros Hdom. split.
  - apply set_eq. intros x. rewrite !elem_of_dom, restaura_lookup.
    destruct (r !! x) as [q|] eqn:Hr; [|done].
    split; [|by eexists]. intros _. apply elem_of_dom, Hdom, elem_of_dom. by eexists.
  - intros x. unfold lookup_total at 1, map_lookup_total at 1.
    rewrite restaura_lookup. destruct (r !! x) as [q|]; simpl; [done|].
    unfold lookup_total, map_lookup_total. set_solver.
Qed.

(** ** The backtrack counter *)

Lemma consistencia_contador csp asg x_i v_i nivel r csp' :
  consistencia csp asg x_i v_i nivel = Devuelve (r, csp') →
  backtracking csp' = backtracking csp.
Proof using Type.
  clear. unfold consistencia.
  destruct (compatible_con_asignados csp asg x_i v_i); [|by intros; simplify_eq].
  destruct (if decide (1 ≤ nivel) then _ else _) as [d'|[d1 r1]];
    [by intros; simplify_eq|].
  destruct (decide (nivel = 2)); [|by intros; simplify_eq].
  destruct (arco_consistencia _ _ _ _ _ _) as [[d'|[d2 r2]]| |];
    by intros; simplify_eq.
Qed.

Lemma prueba_valores_contador rec asg var consist vals :
  (∀ csp1 a apn csp2, rec csp1 a = Devuelve (apn, csp2) →
     backtracking csp1 ≤ backtracking csp2
     ∧ (apn = None → backtracking csp1 < backtracking csp2)) →
  ∀ csp apn csp',
  prueba_valores rec asg var consist vals csp = Devuelve (apn, csp') →
  backtracking csp ≤ backtracking csp'
  ∧ (apn = None → backtracking csp < backtracking csp').
Proof using Type.
  clear. intros Hrec.
  induction vals as [|val resto IH]; intros csp apn csp' H; simpl in H.
  { simplify_eq. simpl. split; [lia|]. intros _. lia. }
  destruct (consistencia csp asg var val consist) as [[[r|] csp1]| |] eqn:Hc;
    try done.
  - apply consistencia_contador in Hc.
    destruct (rec csp1 _) as [[[a|] csp2]| |] eqn:Hr; try done.
    + apply Hrec in Hr as [Hr _]. simplify_eq. simpl. split; [lia|done].
    + apply Hrec in Hr as [Hr _]. apply IH in H as [H1 H2]. simpl in H1, H2.
      split; [lia|]. intros Hn. specialize (H2 Hn). lia.
  - apply consistencia_contador in Hc. apply IH in H as [H1 H2]. simpl in H1, H2.
    split; [lia|]. intros Hn. specialize (H2 Hn). lia.
Qed.

Lemma asignacion_grafo_restriccion_contador n consist :
  ∀ csp asg apn csp',
  asignacion_grafo_restriccion n consist csp asg = Devuelve (apn, csp') →
  backtracking csp ≤ backtracking csp'
  ∧ (apn = None → backtracking csp < backtracking csp').
Proof using Type.
  clear. induction n as [|n IH]; intros csp asg apn csp' H; simpl in H; [done|].
  destruct (decide (dom asg = X csp)); [by simplify_eq|].
  destruct (selecciona_variable csp asg) as [var|]; [|done].
  by eapply prueba_valores_contador.
Qed.

(** X9. The backtrack counter never goes down during a search, and a search
    that returns [None] has counted at least one backtrack. *)
Theorem backtracking_counter_grows n consist csp asg apn csp' :
  asignacion_grafo_restriccion n consist csp asg = Devuelve (apn, csp') →
  backtracking csp ≤ backtracking csp'
  ∧ (apn = None → backtracking csp < backtracking csp').
Proof using Type. clear. apply asignacion_grafo_restriccion_contador. Qed.

(** X10. The search from a partial assignment.  On a constraint graph, for
    a problem object whose counter is set and a partial assignment over the
    variables of the graph, the call returns, the graph and the domains are
    what they were before the call, and: a returned assignment extends the
    given one, is complete, takes its new values from the domains and, for a
    symmetric predicate, is consistent if the given one is; [None] is
    returned only if no complete consistent assignment with values from the
    domains extends the given one. *)
Theorem asignacion_grafo_restriccion_from_partial n consist csp asg :
  bien_formado csp → dom asg ⊆ X csp → size (X csp ∖ dom asg) < n →
  ∃ apn csp',
    asignacion_grafo_restriccion n consist csp asg = Devuelve (apn, csp')
    ∧ X csp' = X csp ∧ N csp' = N csp ∧ D csp' = D csp
    ∧ match apn with
      | Some a =>
          asg ⊆ a ∧ dom a = X csp
          ∧ (∀ x v, a !! x = Some v → asg !! x = Some v ∨ v ∈ D csp !!! x)
          ∧ (simetrica → consistente (N csp) asg → consistente (N csp) a)
      | None =>
          ∀ a, asg ⊆ a → dom a = X csp → en_dominios (D csp) a →
               ¬ consistente (N csp) a
      end.
Proof.
  intros [_ Hvec] Hdom Hn.
  destruct (asignacion_grafo_restriccion_correcto n consist csp asg Hvec Hdom Hn)
    as (apn & csp' & Hr & (HX & HN & HD) & Hres).
  exists apn, csp'. do 4 (split; [done|]).
  destruct apn as [a|]; [done|]. intros a ??? Hc. by eapply Hres.
Qed.

(** ** Min-conflicts *)

(** X11. An assignment returned by [minimos_conflictos] is a solution: it
    is complete, its values are taken from the domains and every ordered
    pair of neighbours satisfies the predicate, with no assumption on the
    graph or on the predicate. *)
Theorem minimos_conflictos_returns_solution csp max_iter paciencia az a :
  minimos_conflictos csp max_iter paciencia az = Devuelve (Some a) →
  solucion csp a.
Proof.
  intros (Hdom & Hen & H0)%minimos_conflictos_ok.
  split; [done|]. split; [done|].
  apply total_conflictos_cero; [by rewrite Hdom|done].
Qed.

Lemma repara_Sigue csp st st' :
  repara csp st = Sigue st' →
  ∃ x v,
    asign st' = <[x := v]> (asign st)
    ∧ x ∈ X csp
    ∧ 0 < conflictos_de csp (asign st) x (asign st !!! x)
    ∧ v ∈ D csp !!! x
    ∧ (∀ w, w ∈ D csp !!! x →
            conflictos_de csp (asign st) x v ≤ conflictos_de csp (asign st) x w)
    ∧ azar st' = tl (azar st)
    ∧ min_conflictos st' = min_conflictos st
    ∧ repeticiones st' = repeticiones st.
Proof.
  unfold repara. destruct (choice _ _) as [[x az']|] eqn:Hch; [|done].
  pose proof (py_min_spec (λ v, conflictos_de csp (asign st) x v)
                (enum (D csp !!! x))) as Hmin.
  destruct (py_min _ _) as [v|]; [|done]. intros ?; simplify_eq. simpl.
  destruct Hmin as [Hv Hmin]. apply elem_of_enum in Hv.
  assert (az' = tl (azar st)) as ->.
  { unfold choice in Hch. destruct (_ <$> _); by simplify_eq. }
  apply choice_elem, list_elem_of_fmap in Hch as ([x' c] & -> & Hx).
  apply list_elem_of_filter in Hx as [Hpos Hx]. unfold tabla_conflictos in Hx.
  apply list_elem_of_fmap in Hx as (x & ? & Hx). simplify_eq/=.
  apply elem_of_enum in Hx.
  exists x, v. do 4 (split; [done|]). split; [|done].
  intros w Hw. apply Hmin. by apply elem_of_enum.
Qed.

(** X12. The repair step changes the value of one variable that is in
    conflict, to a value of its domain with the least number of conflicts
    against the current values of its neighbours; it reads one random number
    and leaves the other local variables alone. *)
Theorem repara_minimises_conflicts csp st st' :
  repara csp st = Sigue st' →
  ∃ x v,
    asign st' = <[x := v]> (asign st)
    ∧ x ∈ X csp
    ∧ 0 < conflictos_de csp (asign st) x (asign st !!! x)
    ∧ v ∈ D csp !!! x
    ∧ (∀ w, w ∈ D csp !!! x →
            conflictos_de csp (asign st) x v ≤ conflictos_de csp (asign st) x w)
    ∧ azar st' = tl (azar st)
    ∧ min_conflictos st' = min_conflictos st
    ∧ repeticiones st' = repeticiones st.
Proof. apply repara_Sigue. Qed.

Lemma elem_of_violados csp a x y :
  (x, y) ∈ violados csp a ↔
  x ∈ X csp ∧ y ∈ N csp !!! x
  ∧ restriccion_binaria x (a !!! x) y (a !!! y) = false.
Proof. unfold violados. rewrite elem_of_filter, elem_of_arcos. simpl. tauto. Qed.

Lemma elem_of_en_conflicto csp a x w y :
  y ∈ en_conflicto csp a x w ↔
  y ∈ N csp !!! x ∧ restriccion_binaria x w y (a !!! y) = false.
Proof. unfold en_conflicto. rewrite elem_of_filter. tauto. Qed.

Lemma length_bind_sum {A B} (f : A → list B) (l : list A) :
  length (l ≫= f) = sum_list ((λ x, length (f x)) <$> l).
Proof using Type.
  clear. induction l as [|x l IH]; csimpl; [done|].
  by rewrite length_app, IH.
Qed.

Lemma conflictos_de_size csp a x w :
  conflictos_de csp a x w = size (en_conflicto csp a x w).
Proof.
  unfold conflictos_de, cuenta_si.
  rewrite <- (size_list_to_set (C := gset Z)) by apply NoDup_filter, NoDup_enum.
  f_equal. apply set_eq. intros y.
  rewrite elem_of_list_to_set, list_elem_of_filter, elem_of_enum,
    elem_of_en_conflicto, negb_true_iff. tauto.
Qed.

Lemma total_conflictos_size csp a :
  total_conflictos csp a = size (violados csp a).
Proof.
  unfold total_conflictos, tabla_conflictos. rewrite <- list_fmap_compose.
  set (f := λ x : Z,
         (λ y : Z, (x, y)) <$>
           filter (λ y, negb (restriccion_binaria x (a !!! x) y (a !!! y)) = true)
                  (enum (N csp !!! x))).
  assert (violados csp a = list_to_set (enum (X csp) ≫= f)) as ->.
  { apply set_eq. intros [x y].
    rewrite elem_of_violados, elem_of_list_to_set, list_elem_of_bind. split.
    - intros (Hx & Hy & Hrb). exists x. split; [|by apply elem_of_enum].
      apply list_elem_of_fmap. exists y. split; [done|].
      apply list_elem_of_filter. by rewrite elem_of_enum, Hrb.
    - intros (x' & Hin & Hx'). apply list_elem_of_fmap in Hin as (y' & ? & Hy').
      simplify_eq. apply list_elem_of_filter in Hy' as [Hrb Hy'].
      rewrite elem_of_enum in Hx', Hy'. by apply negb_true_iff in Hrb. }
  rewrite size_list_to_set.
  - rewrite length_bind_sum. f_equal. apply list_fmap_ext. intros _ x _. simpl.
    unfold f, conflictos_de, cuenta_si. by rewrite length_fmap.
  - apply NoDup_bind; [| |apply NoDup_enum].
    + intros x1 x2 [x y] _ _ H1 H2.
      apply list_elem_of_fmap in H1 as (? & ? & _).
      apply list_elem_of_fmap in H2 as (? & ? & _). congruence.
    + intros x _. apply NoDup_fmap_2; [|apply NoDup_filter, NoDup_enum].
      intros y1 y2 ?. congruence.
Qed.

(** The violated pairs after the value of [x0] is changed to [w]: those
    that do not touch [x0], and one pair in each direction for every
    neighbour of [x0] in conflict with [w]. *)
Lemma violados_descompone csp a a' x0 w :
  vecindad csp → simetrica → x0 ∈ X csp →
  (∀ y, y ≠ x0 → a' !!! y = a !!! y) → a' !!! x0 = w →
  size (violados csp a')
  = size (filter (λ p : Z * Z, p.1 ≠ x0 ∧ p.2 ≠ x0) (violados csp a))
    + 2 * size (en_conflicto csp a x0 w).
Proof.
  intros Hvec Hsim Hx0 Hotros Hw.
  set (R := filter (λ p : Z * Z, p.1 ≠ x0 ∧ p.2 ≠ x0) (violados csp a)).
  set (A := en_conflicto csp a x0 w).
  set (O := list_to_set ((λ y, (x0, y)) <$> elements A) : gset (Z * Z)).
  set (I := list_to_set ((λ y, (y, x0)) <$> elements A) : gset (Z * Z)).
  assert (∀ y, y ∈ A ↔ y ∈ N csp !!! x0
                       ∧ restriccion_binaria x0 w y (a !!! y) = false) as HA.
  { intros y. apply elem_of_en_conflicto. }
  assert (∀ x y, (x, y) ∈ O ↔ x = x0 ∧ y ∈ A) as HO.
  { intros x y. unfold O. rewrite elem_of_list_to_set, list_elem_of_fmap. split.
    - intros (y' & ? & Hy'%elem_of_elements). by simplify_eq.
    - intros [-> Hy]. exists y. by rewrite elem_of_elements. }
  assert (∀ x y, (x, y) ∈ I ↔ y = x0 ∧ x ∈ A) as HI.
  { intros x y. unfold I. rewrite elem_of_list_to_set, list_elem_of_fmap. split.
    - intros (y' & ? & Hy'%elem_of_elements). by simplify_eq.
    - intros [-> Hy]. exists x. by rewrite elem_of_elements. }
  assert (∀ x y, (x, y) ∈ R ↔
            x ≠ x0 ∧ y ≠ x0 ∧ x ∈ X csp ∧ y ∈ N csp !!! x
            ∧ restriccion_binaria x (a !!! x) y (a !!! y) = false) as HR.
  { intros x y. unfold R. rewrite elem_of_filter, elem_of_violados. simpl. tauto. }
  assert (x0 ∉ N csp !!! x0) as Hirr by by apply vecindad_irreflexivo.
  assert (violados csp a' = R ∪ O ∪ I) as ->.
  { apply set_eq. intros [x y].
    rewrite !elem_of_union, elem_of_violados, HR, HO, HI, !HA.
    destruct (decide (x = x0)) as [->|Hx]; [|destruct (decide (y = x0)) as [->|Hy]].
    - rewrite Hw. split.
      + intros (_ & Hy & Hrb). assert (y ≠ x0) by (by intros ->).
        rewrite Hotros in Hrb by done. left; right. done.
      + intros [[(? & _)|(_ & Hy & Hrb)]|(-> & Hy & _)]; [done| |done].
        assert (y ≠ x0) by (by intros ->). by rewrite Hotros.
    - rewrite Hw, (Hotros x) by done. split.
      + intros (Hxx & Hn & Hrb). right. split; [done|].
        destruct (vecindad_vecinos csp x x0 Hvec Hxx Hn) as (_ & _ & ?).
        split; [done|]. by rewrite Hsim.
      + intros [[(_ & ? & _)|(? & _)]|(_ & Hn & Hrb)]; [done|done|].
        destruct (vecindad_vecinos csp x0 x Hvec Hx0 Hn) as (? & _ & ?).
        split; [done|]. split; [done|]. by rewrite Hsim.
    - rewrite !Hotros by done. split.
      + intros (? & ? & ?). left; left. done.
      + intros [[(_ & _ & ? & ? & ?)|(? & _)]|(? & _)]; done. }
  assert (size O = size A) as HsO.
  { unfold O. rewrite size_list_to_set, length_fmap; [done|].
    apply NoDup_fmap_2; [|apply NoDup_elements]. intros y1 y2 ?. congruence. }
  assert (size I = size A) as HsI.
  { unfold I. rewrite size_list_to_set, length_fmap; [done|].
    apply NoDup_fmap_2; [|apply NoDup_elements]. intros y1 y2 ?. congruence. }
  rewrite !size_union.
  - lia.
  - apply elem_of_disjoint. intros [x y] [? _]%HR [? _]%HO. done.
  - apply elem_of_disjoint. intros [x y] Hin [-> Hx]%HI.
    apply elem_of_union in Hin as [(_ & ? & _)%HR|[-> _]%HO]; [done|].
    apply HA in Hx as [? _]. done.
Qed.

Lemma repara_conflictos csp st st' :
  vecindad csp → simetrica → estado_ok csp st →
  repara csp st = Sigue st' →
  total_conflictos csp (asign st') ≤ total_conflictos csp (asign st)
  ∧ ∃ x v,
      asign st' = <[x := v]> (asign st)
      ∧ total_conflictos csp (asign st')
        + 2 * conflictos_de csp (asign st) x (asign st !!! x)
        = total_conflictos csp (asign st)
          + 2 * conflictos_de csp (asign st) x v.
Proof.
  intros Hvec Hsim [Hdom Hen] Hrep.
  destruct (repara_Sigue csp st st' Hrep)
    as (x & v & Ha' & Hx & _ & _ & Hmin & _).
  assert (asign st !!! x ∈ D csp !!! x) as Hold.
  { assert (is_Some (asign st !! x)) as [u Hu].
    { apply elem_of_dom. by rewrite Hdom. }
    rewrite (lookup_total_correct _ _ _ Hu). by eapply Hen. }
  specialize (Hmin _ Hold).
  assert (total_conflictos csp (asign st')
          + 2 * conflictos_de csp (asign st) x (asign st !!! x)
          = total_conflictos csp (asign st)
            + 2 * conflictos_de csp (asign st) x v) as Heq.
  { rewrite Ha', !total_conflictos_size, !conflictos_de_size.
    rewrite (violados_descompone csp (asign st) (<[x := v]> (asign st)) x v);
      [|done|done|done| |].
    - rewrite (violados_descompone csp (asign st) (asign st) x (asign st !!! x));
        [lia|done..].
    - intros y Hy. by rewrite lookup_total_insert_ne.
    - by rewrite lookup_total_insert_eq. }
  split; [lia|]. by exists x, v.
Qed.

(** X21. On a constraint graph with a symmetric predicate, a repair step
    never increases the total number of conflicts: the total changes by twice
    the difference between the conflicts of the new and of the old value of
    the repaired variable. *)
Theorem repara_never_increases_conflicts csp st st' :
  vecindad csp → simetrica → estado_ok csp st →
  repara csp st = Sigue st' →
  total_conflictos csp (asign st') ≤ total_conflictos csp (asign st)
  ∧ ∃ x v,
      asign st' = <[x := v]> (asign st)
      ∧ total_conflictos csp (asign st')
        + 2 * conflictos_de csp (asign st) x (asign st !!! x)
        = total_conflictos csp (asign st)
          + 2 * conflictos_de csp (asign st) x v.
Proof. apply repara_conflictos. Qed.

Lemma iteracion_invariante csp paciencia st st' :
  vecindad csp → simetrica → (Z.of_nat (grado_total csp) < infinito)%Z →
  estado_ok csp st →
  (Z.of_nat (total_conflictos csp (asign st)) ≤ min_conflictos st)%Z →
  iteracion csp paciencia st = Sigue st' →
  estado_ok csp st'
  ∧ (Z.of_nat (total_conflictos csp (asign st')) ≤ min_conflictos st')%Z
  ∧ (min_conflictos st' ≤ min_conflictos st ∨ min_conflictos st' = infinito)%Z.
Proof.
  intros Hvec Hsim Hcota Hok Hinv Hit.
  pose proof (iteracion_ok csp paciencia st Hok) as Hok'.
  rewrite Hit in Hok'. split; [done|].
  unfold iteracion in Hit.
  destruct (decide (total_conflictos csp (asign st) = 0)); [done|].
  assert (∀ m r az st1,
            repara csp (mkEstado (asign st) m r az) = Sigue st1 →
            min_conflictos st1 = m
            ∧ total_conflictos csp (asign st1) ≤ total_conflictos csp (asign st))
    as Hrep.
  { intros m r az st1 H1. split.
    - by destruct (repara_Sigue _ _ _ H1) as (? & ? & _ & _ & _ & _ & _ & _ & ? & _).
    - by destruct (repara_conflictos csp (mkEstado (asign st) m r az) st1
                     Hvec Hsim Hok H1) as [? _]. }
  destruct (decide (_ < _)%Z).
  { apply Hrep in Hit as [-> ?]. lia. }
  destruct (decide (_ = min_conflictos st)) as [Heq|]; [|lia].
  destruct (repeticiones st) as [r|]; [|done].
  destruct (decide (paciencia < S r)).
  - destruct (asignacion_aleatoria _ _ _ _) as [[a az']|]; [|done].
    simplify_eq. simpl. split; [|by right].
    pose proof (total_conflictos_cota csp a). lia.
  - apply Hrep in Hit as [-> ?]. lia.
Qed.

(** X22. The loop of [minimos_conflictos] on a constraint graph with a
    symmetric predicate and fewer than [1e10] ordered pairs of neighbours:
    at the start of every iteration the assignment is complete with values
    from the domains, and its total number of conflicts is at most
    [min_conflictos]; so the total is never above [min_conflictos], and the
    tests [actual < min_conflictos] and [actual == min_conflictos] cover
    every iteration that does not return. *)
Theorem minimos_conflictos_loop_invariant csp paciencia k st0 st :
  vecindad csp → simetrica → (Z.of_nat (grado_total csp) < infinito)%Z →
  estado_ok csp st0 →
  (Z.of_nat (total_conflictos csp (asign st0)) ≤ min_conflictos st0)%Z →
  corre csp paciencia k st0 = Some st →
  estado_ok csp st
  ∧ (Z.of_nat (total_conflictos csp (asign st)) ≤ min_conflictos st)%Z.
Proof.
  intros Hvec Hsim Hcota. revert st0.
  induction k as [|k IH]; intros st0 Hok Hinv Hk; simpl in Hk.
  { by simplify_eq. }
  destruct (iteracion csp paciencia st0) as [a|st1|e] eqn:Hit; try done.
  destruct (iteracion_invariante _ _ _ _ Hvec Hsim Hcota Hok Hinv Hit)
    as (Hok1 & Hinv1 & _).
  by apply (IH st1).
Qed.

Lemma minimos_conflictos_devuelve csp max_iter paciencia az :
  (∀ x, x ∈ X csp → D csp !!! x ≠ ∅) →
  (Z.of_nat (grado_total csp) < infinito)%Z →
  ∃ r, minimos_conflictos csp max_iter paciencia az = Devuelve r.
Proof.
  intros Hne Hcota.
  destruct (asignacion_aleatoria_total csp (enum (X csp)) ∅ az) as (a0 & az0 & Ha0).
  { intros x Hx. by apply Hne, elem_of_enum. }
  assert (estado_ok csp (mkEstado a0 infinito None az0)) as Hok.
  { apply asignacion_aleatoria_dom in Ha0 as [Hdom Hen]. split; simpl.
    - rewrite Hdom, dom_empty_L, (left_id_L ∅ union). apply set_eq. intros x.
      by rewrite elem_of_list_to_set, elem_of_enum.
    - apply Hen. intros x v. by rewrite lookup_empty. }
  destruct (bucle_corre csp paciencia max_iter Hne Hcota _ Hok)
    as (k & st & _ & _ & Hres); [done|].
  unfold minimos_conflictos. rewrite Ha0.
  destruct Hres as [[_ ->]|(_ & _ & ->)]; by eexists.
Qed.

(** X23. When [minimos_conflictos] raises.  On a graph whose maps are
    defined on the variables, with fewer than [1e10] ordered pairs of
    neighbours, the call raises an exception exactly when some variable has
    an empty domain, and the exception is the [IndexError] of [choice] on an
    empty list; with no empty domain it returns. *)
Theorem minimos_conflictos_raises_iff csp max_iter paciencia az :
  definido csp → (Z.of_nat (grado_total csp) < infinito)%Z →
  (minimos_conflictos csp max_iter paciencia az = Lanza IndexError
   ↔ ∃ x, x ∈ X csp ∧ D csp !!! x = ∅)
  ∧ ((∀ x, x ∈ X csp → D csp !!! x ≠ ∅) ↔
     ∃ r, minimos_conflictos csp max_iter paciencia az = Devuelve r).
Proof.
  intros _ Hcota.
  destruct (decide (set_Exists (λ x, D csp !!! x = ∅) (X csp)))
    as [(x & Hx & He)|Hno].
  - rewrite (minimos_conflictos_dominio_vacio csp max_iter paciencia az x Hx He).
    split; [split; [intros _; by exists x|done]|]. split.
    + intros Hne. by destruct (Hne x Hx).
    + by intros [r ?].
  - assert (∀ x, x ∈ X csp → D csp !!! x ≠ ∅) as Hne.
    { intros x Hx He. apply Hno. by exists x. }
    destruct (minimos_conflictos_devuelve csp max_iter paciencia az Hne Hcota)
      as [r Hr].
    rewrite Hr. split; [split; [done|]|].
    + intros (x & Hx & He). by destruct (Hne x Hx).
    + split; [by eexists|done].
Qed.

(** X24. With an empty domain [asignacion_completa], on a constraint
    graph, returns [None] at every level, after at least one backtrack. *)
Theorem asignacion_completa_empty_domain csp nivel x :
  bien_formado csp → x ∈ X csp → D csp !!! x = ∅ →
  ∃ csp', asignacion_completa csp nivel = Devuelve (None, csp')
          ∧ 0 < backtracking csp'.
Proof.
  intros Hbf Hx He.
  destruct (asignacion_completa_dominio_vacio csp nivel x Hbf Hx He) as [csp' Hr].
  exists csp'. split; [done|].
  apply asignacion_grafo_restriccion_contador in Hr as [_ Hr].
  specialize (Hr eq_refl). simpl in Hr. lia.
Qed.

(** ** The dictionary [asignacion] *)

Lemma selecciona_variable_libre csp asg var :
  selecciona_variable csp asg = Some var → asg !! var = None.
Proof using Type.
  clear. unfold selecciona_variable. destruct (decide (asg = ∅)) as [->|_].
  - intros _. apply lookup_empty.
  - intros Hin%py_min_elem. by apply list_elem_of_filter in Hin as [? _].
Qed.

Lemma prueba_valores_dict_eq rec recd asg var consist vals :
  asg !! var = None →
  (∀ csp1 val, recd csp1 (<[var := val]> asg)
               = con_diccionario (<[var := val]> asg)
                   (rec csp1 (<[var := val]> asg))) →
  ∀ csp, prueba_valores_dict recd var consist vals csp asg
         = con_diccionario asg (prueba_valores rec asg var consist vals csp).
Proof using Type.
  clear. intros Hlibre Hrec.
  induction vals as [|val resto IH]; intros csp; simpl; [done|].
  destruct (consistencia csp asg var val consist) as [[[r|] csp1]| |]; try done.
  rewrite Hrec.
  destruct (rec csp1 (<[var := val]> asg)) as [[[a|] csp2]| |]; simpl; try done.
  by rewrite delete_insert_id.
Qed.

Lemma asignacion_grafo_restriccion_dict_eq n consist :
  ∀ csp asg,
  asignacion_grafo_restriccion_dict n consist csp asg
  = con_diccionario asg (asignacion_grafo_restriccion n consist csp asg).
Proof using Type.
  clear. induction n as [|n IH]; intros csp asg; simpl; [done|].
  destruct (decide (dom asg = X csp)); [done|].
  destruct (selecciona_variable csp asg) as [var|] eqn:Hvar; [|done].
  apply prueba_valores_dict_eq.
  - by eapply selecciona_variable_libre.
  - intros csp1 val. apply IH.
Qed.

(** X26. The recursion with the dictionary [asignacion] mutated in place
    computes what the recursion on assignments as values computes: same
    result, same problem object; and it leaves the dictionary of the caller
    as it was when it returns [None], and equal to the returned assignment
    when it returns one (no [del] on the way back from a success). *)
Theorem asignacion_dict_agrees n consist csp asg :
  asignacion_grafo_restriccion_dict n consist csp asg
  = con_diccionario asg (asignacion_grafo_restriccion n consist csp asg)
  ∧ ∀ apn csp' d,
      asignacion_grafo_restriccion_dict n consist csp asg
      = Devuelve (apn, csp', d) →
      d = match apn with Some a => a | None => asg end.
Proof using Type.
  clear. split; [apply asignacion_grafo_restriccion_dict_eq|].
  intros apn csp' d. rewrite asignacion_grafo_restriccion_dict_eq.
  destruct (asignacion_grafo_restriccion n consist csp asg) as [[r c]| |];
    simpl; [|done..].
  intros; simplify_eq. by destruct apn.
Qed.

Lemma consistencia_X csp asg x_i v_i nivel r csp' :
  consistencia csp asg x_i v_i nivel = Devuelve (r, csp') → X csp' = X csp.
Proof using Type.
  clear. unfold consistencia.
  destruct (compatible_con_asignados csp asg x_i v_i); [|by intros; simplify_eq].
  destruct (if decide (1 ≤ nivel) then _ else _) as [d'|[d1 r1]];
    [by intros; simplify_eq|].
  destruct (decide (nivel = 2)); [|by intros; simplify_eq].
  destruct (arco_consistencia _ _ _ _ _ _) as [[d'|[d2 r2]]| |];
    by intros; simplify_eq.
Qed.

Lemma prueba_valores_dom rec asg var consist vals :
  (∀ csp1 asg1 apn csp2, rec csp1 asg1 = Devuelve (apn, csp2) →
     X csp2 = X csp1 ∧ ∀ a, apn = Some a → dom a = X csp1) →
  ∀ csp apn csp',
  prueba_valores rec asg var consist vals csp = Devuelve (apn, csp') →
  X csp' = X csp ∧ ∀ a, apn = Some a → dom a = X csp.
Proof using Type.
  clear. intros Hrec.
  induction vals as [|val resto IH]; intros csp apn csp' H; simpl in H.
  { by simplify_eq. }
  destruct (consistencia csp asg var val consist) as [[[r|] csp1]| |] eqn:Hc;
    try done.
  - apply consistencia_X in Hc.
    destruct (rec csp1 _) as [[[a|] csp2]| |] eqn:Hr; try done.
    + apply Hrec in Hr as [HX Ha]. simplify_eq. simpl. split; [congruence|].
      intros a' [= <-]. rewrite <- Hc. by apply Ha.
    + apply Hrec in Hr as [HX _]. apply IH in H as [H1 H2]. simpl in H1, H2.
      split; [congruence|]. intros a Ha. rewrite (H2 a Ha). congruence.
  - apply consistencia_X in Hc. apply IH in H as [H1 H2]. simpl in H1, H2.
    split; [congruence|]. intros a Ha. rewrite (H2 a Ha). congruence.
Qed.

Lemma asignacion_grafo_restriccion_dom n consist :
  ∀ csp asg apn csp',
  asignacion_grafo_restriccion n consist csp asg = Devuelve (apn, csp') →
  X csp' = X csp ∧ ∀ a, apn = Some a → dom a = X csp.
Proof using Type.
  clear. induction n as [|n IH]; intros csp asg apn csp' H; simpl in H; [done|].
  destruct (decide (dom asg = X csp)).
  { simplify_eq. split; [done|]. by intros a [= <-]. }
  destruct (selecciona_variable csp asg) as [var|]; [|done].
  eapply prueba_valores_dom; [|done]. intros csp1 asg1 apn1 csp2. apply IH.
Qed.

(** X27. The default argument [asignacion={}] is one dictionary for all
    calls.  After a call that started from the empty dictionary and returned
    an assignment, the dictionary holds that assignment, which is defined on
    the variables of the problem; a later call that starts from this
    dictionary, on any problem with the same variables and at any level,
    returns that assignment at once: its first test succeeds, no constraint
    of the second problem is looked at and the problem object is untouched. *)
Theorem default_dictionary_is_shared n consist csp a csp' d :
  asignacion_grafo_restriccion_dict n consist csp ∅ = Devuelve (Some a, csp', d) →
  d = a ∧ dom a = X csp
  ∧ ∀ m consist2 csp2, X csp2 = X csp →
      asignacion_grafo_restriccion_dict (S m) consist2 csp2 d
      = Devuelve (Some a, csp2, d).
Proof using Type.
  clear. rewrite asignacion_grafo_restriccion_dict_eq.
  destruct (asignacion_grafo_restriccion n consist csp ∅) as [[r c]| |] eqn:Hr;
    simpl; [|done..].
  intros ?; simplify_eq. simpl.
  destruct (asignacion_grafo_restriccion_dom _ _ _ _ _ _ Hr) as [_ Hdom].
  specialize (Hdom a eq_refl). split; [done|]. split; [done|].
  intros m consist2 csp2 HX. simpl.
  destruct (decide (dom a = X csp2)) as [|Hno]; [done|].
  destruct Hno. congruence.
Qed.

End csps.

(** ** The concrete iteration orders and problems *)

Lemma enum_asc_perm (s : gset Z) : enum_asc s ≡ₚ elements s.
Proof. apply merge_sort_Permutation. Qed.

Lemma enumP_asc_perm (s : gset (Z * Z)) : enumP_asc s ≡ₚ elements s.
Proof. apply merge_sort_Permutation. Qed.

Global Instance bien_formado_dec csp : Decision (bien_formado csp).
Proof. unfold bien_formado, definido, vecindad. apply _. Defined.

Global Instance definido_dec csp : Decision (definido csp).
Proof. unfold definido. apply _. Defined.

Lemma Nreinas_simetrica : simetrica Nreinas.restriccion_binaria.
Proof.
  intros x_i v_i x_j v_j. unfold Nreinas.restriccion_binaria.
  repeat match goal with
         | |- context [(?a =? ?b)%Z] => destruct (Z.eqb_spec a b)
         end; simpl; try done; lia.
Qed.

Lemma restriccion_desvio_simetrica : simetrica restriccion_desvio.
Proof.
  intros x_i v_i x_j v_j. unfold restriccion_desvio, relacion_desvio.
  repeat case_bool_decide; try done; lia.
Qed.

Lemma mismos_valores_simetrica : simetrica mismos_valores.
Proof.
  intros x_i v_i x_j v_j. unfold mismos_valores.
  repeat case_bool_decide; try done; lia.
Qed.

Ltac calcula := apply (bool_decide_unpack _); vm_compute; exact I.

Lemma Nreinas_bien_formado_2 : bien_formado (Nreinas.init 2).
Proof. calcula. Qed.

Lemma Nreinas_bien_formado_3 : bien_formado (Nreinas.init 3).
Proof. calcula. Qed.

Lemma Nreinas_bien_formado_4 : bien_formado (Nreinas.init 4).
Proof. calcula. Qed.

Lemma desvio_bien_formado : bien_formado desvio.
Proof. calcula. Qed.

Lemma cadena_bien_formado : bien_formado cadena.
Proof. calcula. Qed.

(** Scenario 1: four queens at level 1. *)
Example cuatro_reinas_nivel_1 :
  ∃ csp', asignacion_completa Nreinas.restriccion_binaria enum_asc enumP_asc
            (Nreinas.init 4) 1
          = Devuelve (Some (list_to_map [(1, 2); (2, 4); (3, 1); (4, 3)]%Z), csp')
          ∧ backtracking csp' = 4.
Proof. eexists. split; vm_compute; reflexivity. Qed.

(** Scenario 2: two and three queens have no solution, at any level. *)
Example dos_y_tres_reinas :
  Forall (λ '(n, nivel),
            ∃ csp', asignacion_completa Nreinas.restriccion_binaria enum_asc
                      enumP_asc (Nreinas.init n) nivel = Devuelve (None, csp'))
         [(2, 0); (2, 1); (2, 2); (3, 0); (3, 1); (3, 2)].
Proof. repeat constructor; eexists; vm_compute; reflexivity. Qed.

(** ** Witnesses and counterexamples *)

Lemma soundness_of_both_solvers_witness :
  bien_formado (Nreinas.init 4) ∧ simetrica Nreinas.restriccion_binaria
  ∧ (∀ nivel a csp',
       asignacion_completa Nreinas.restriccion_binaria enum_asc enumP_asc
         (Nreinas.init 4) nivel = Devuelve (Some a, csp') →
       dom a = X (Nreinas.init 4)
       ∧ consistente Nreinas.restriccion_binaria (N (Nreinas.init 4)) a)
  ∧ (∀ max_iter paciencia az a,
       minimos_conflictos Nreinas.restriccion_binaria enum_asc (Nreinas.init 4)
         max_iter paciencia az = Devuelve (Some a) →
       dom a = X (Nreinas.init 4)
       ∧ consistente Nreinas.restriccion_binaria (N (Nreinas.init 4)) a).
Proof.
  split; [calcula|]. split; [exact Nreinas_simetrica|].
  apply (soundness_of_both_solvers Nreinas.restriccion_binaria enum_asc enumP_asc
           enum_asc_perm enumP_asc_perm (Nreinas.init 4)).
  - calcula.
  - exact Nreinas_simetrica.
Defined.

Lemma consistency_levels_agree_witness :
  bien_formado (Nreinas.init 4) ∧ simetrica Nreinas.restriccion_binaria
  ∧ ∃ r0 r1 r2 c0 c1 c2,
      asignacion_completa Nreinas.restriccion_binaria enum_asc enumP_asc
        (Nreinas.init 4) 0 = Devuelve (r0, c0)
      ∧ asignacion_completa Nreinas.restriccion_binaria enum_asc enumP_asc
          (Nreinas.init 4) 1 = Devuelve (r1, c1)
      ∧ asignacion_completa Nreinas.restriccion_binaria enum_asc enumP_asc
          (Nreinas.init 4) 2 = Devuelve (r2, c2)
      ∧ (is_Some r0 ↔ is_Some r1) ∧ (is_Some r1 ↔ is_Some r2)
      ∧ (is_Some r0 ↔
         ∃ a, solucion Nreinas.restriccion_binaria (Nreinas.init 4) a).
Proof.
  split; [calcula|]. split; [exact Nreinas_simetrica|].
  apply (consistency_levels_agree Nreinas.restriccion_binaria enum_asc enumP_asc
           enum_asc_perm enumP_asc_perm (Nreinas.init 4)).
  - calcula.
  - exact Nreinas_simetrica.
Defined.

(** Four queens, the first one in row 2, the values of the second: the rows
    1 and 4 violate four pairs, the rows 2 and 3 five, and the order is
    1, 4, 2, 3. *)
Lemma ordena_valores_least_constraining_first_witness :
  (∀ x_j v_j,
     (x_j, v_j) ∈ pares_en_juego (Nreinas.init 4) {[ 1%Z := 2%Z ]} 2 ↔
     x_j ∈ N (Nreinas.init 4) !!! 2%Z
     ∧ ({[ 1%Z := 2%Z ]} : gmap Z Z) !! x_j = None
     ∧ v_j ∈ D (Nreinas.init 4) !!! x_j)
  ∧ (∀ v, conflictos Nreinas.restriccion_binaria enum_asc (Nreinas.init 4)
            {[ 1%Z := 2%Z ]} 2 v
          + num_violaciones Nreinas.restriccion_binaria (Nreinas.init 4)
              {[ 1%Z := 2%Z ]} 2 v
          = size (pares_en_juego (Nreinas.init 4) {[ 1%Z := 2%Z ]} 2))
  ∧ ordena_valores Nreinas.restriccion_binaria enum_asc (Nreinas.init 4)
      {[ 1%Z := 2%Z ]} 2 ≡ₚ enum_asc (D (Nreinas.init 4) !!! 2%Z)
  ∧ (∀ v, v ∈ ordena_valores Nreinas.restriccion_binaria enum_asc
                (Nreinas.init 4) {[ 1%Z := 2%Z ]} 2
          ↔ v ∈ D (Nreinas.init 4) !!! 2%Z)
  ∧ StronglySorted
      (λ u v, num_violaciones Nreinas.restriccion_binaria (Nreinas.init 4)
                {[ 1%Z := 2%Z ]} 2 u
              ≤ num_violaciones Nreinas.restriccion_binaria (Nreinas.init 4)
                  {[ 1%Z := 2%Z ]} 2 v)
      (ordena_valores Nreinas.restriccion_binaria enum_asc (Nreinas.init 4)
         {[ 1%Z := 2%Z ]} 2)
  ∧ ∀ k, filter (λ v, num_violaciones Nreinas.restriccion_binaria
                        (Nreinas.init 4) {[ 1%Z := 2%Z ]} 2 v = k)
                (ordena_valores Nreinas.restriccion_binaria enum_asc
                   (Nreinas.init 4) {[ 1%Z := 2%Z ]} 2)
         = filter (λ v, num_violaciones Nreinas.restriccion_binaria
                          (Nreinas.init 4) {[ 1%Z := 2%Z ]} 2 v = k)
                  (enum_asc (D (Nreinas.init 4) !!! 2%Z)).
Proof.
  apply (ordena_valores_least_constraining_first Nreinas.restriccion_binaria
           enum_asc enum_asc_perm (Nreinas.init 4) {[ 1%Z := 2%Z ]} 2).
Defined.

(** The values of the second queen in that state, and their violations. *)
Example ordena_valores_cuatro_reinas :
  ordena_valores Nreinas.restriccion_binaria enum_asc (Nreinas.init 4)
    {[ 1%Z := 2%Z ]} 2 = [1; 4; 2; 3]%Z
  ∧ (λ v, num_violaciones Nreinas.restriccion_binaria (Nreinas.init 4)
            {[ 1%Z := 2%Z ]} 2 v) <$> [1; 4; 2; 3]%Z = [4; 4; 5; 5].
Proof. split; vm_compute; reflexivity. Qed.

(** Three queens, the first one in row 1, at level 2: forward checking
    leaves [{3}] for the second queen and [{2}] for the third, the revision of
    the second against the third empties its domain, and the call undoes
    everything. *)
Lemma consistencia_failure_restores_domains_witness :
  (1 ∈ D (Nreinas.init 3) !!! 1)%Z ∧ (1 ∉ N (Nreinas.init 3) !!! 1)%Z
  ∧ consistencia Nreinas.restriccion_binaria enum_asc enumP_asc
      (Nreinas.init 3) ∅ 1 1 2 = Devuelve (None, Nreinas.init 3)
  ∧ D (Nreinas.init 3) = D (Nreinas.init 3).
Proof.
  split; [calcula|]. split; [calcula|].
  split; [vm_compute; reflexivity|].
  apply (consistencia_failure_restores_domains Nreinas.restriccion_binaria
           enum_asc enumP_asc enum_asc_perm enumP_asc_perm
           (Nreinas.init 3) ∅ 1 1 2).
  - calcula.
  - calcula.
  - vm_compute; reflexivity.
Defined.

Lemma asignacion_completa_restores_domains_witness :
  bien_formado (Nreinas.init 4)
  ∧ ∃ apn csp',
      asignacion_completa Nreinas.restriccion_binaria enum_asc enumP_asc
        (Nreinas.init 4) 2 = Devuelve (apn, csp')
      ∧ D csp' = D (Nreinas.init 4).
Proof.
  split; [calcula|].
  apply (asignacion_completa_restores_domains Nreinas.restriccion_binaria
           enum_asc enumP_asc enum_asc_perm enumP_asc_perm (Nreinas.init 4) 2).
  calcula.
Defined.

Lemma asignacion_completa_restores_solution_domains_witness :
  bien_formado (Nreinas.init 4)
  ∧ ∃ apn csp',
      asignacion_completa Nreinas.restriccion_binaria enum_asc enumP_asc
        (Nreinas.init 4) 1 = Devuelve (apn, csp')
      ∧ (∀ x, D csp' !!! x = D (Nreinas.init 4) !!! x)
      ∧ ∀ a x v, apn = Some a → a !! x = Some v → v ∈ D csp' !!! x.
Proof.
  split; [calcula|].
  apply (asignacion_completa_restores_solution_domains
           Nreinas.restriccion_binaria enum_asc enumP_asc enum_asc_perm
           enumP_asc_perm (Nreinas.init 4) 1).
  calcula.
Defined.

(** C5, the claim as stated fails: four queens at level 1.  The solution
    gives the value 2 to the variable 1, and the domain of the variable 1
    after the call is [{1, 2, 3, 4}], as before it, not [{2}]. *)
Lemma solution_domains_not_singleton :
  ∃ a csp',
    asignacion_completa Nreinas.restriccion_binaria enum_asc enumP_asc
      (Nreinas.init 4) 1 = Devuelve (Some a, csp')
    ∧ (a !! 1%Z = Some 2%Z)
    ∧ D csp' !!! 1%Z = (list_to_set [1; 2; 3; 4]%Z : gset Z)
    ∧ D csp' !!! 1%Z ≠ ({[ 2%Z ]} : gset Z).
Proof.
  eexists _, _. split; [vm_compute; reflexivity|].
  split; [vm_compute; reflexivity|]. split; [vm_compute; reflexivity|]. calcula.
Qed.

(** C9, the claim as stated fails: on [desvio] level 0 finds a solution
    without a backtrack, and level 1 rejects the value 2 of the variable 3
    first, one backtrack. *)
Lemma backtrack_counter_not_monotone :
  bien_formado desvio ∧ simetrica restriccion_desvio
  ∧ ∃ r0 c0 r1 c1,
      asignacion_completa restriccion_desvio enum_asc enumP_asc desvio 0
      = Devuelve (r0, c0)
      ∧ asignacion_completa restriccion_desvio enum_asc enumP_asc desvio 1
        = Devuelve (r1, c1)
      ∧ backtracking c0 = 0 ∧ backtracking c1 = 1
      ∧ ¬ backtracking c1 ≤ backtracking c0.
Proof.
  split; [calcula|]. split; [exact restriccion_desvio_simetrica|].
  eexists _, _, _, _. split; [vm_compute; reflexivity|].
  split; [vm_compute; reflexivity|]. split; [done|]. split; [done|].
  vm_compute. lia.
Qed.

(** The second neighbour has an empty domain: level 1 rejects the value 1
    of the variable 1, and so does level 2. *)
Lemma rejection_monotone_in_level_witness :
  1 ≤ 2 ∧ 2 ≤ 2
  ∧ consistencia mismos_valores enum_asc enumP_asc con_dominio_vacio ∅ 1 1 1
    = Devuelve (None, con_dominio_vacio)
  ∧ consistencia mismos_valores enum_asc enumP_asc con_dominio_vacio ∅ 1 1 2
    = Devuelve (None, con_dominio_vacio).
Proof.
  split; [lia|]. split; [lia|]. split; [vm_compute; reflexivity|].
  apply (rejection_monotone_in_level mismos_valores enum_asc enumP_asc
           con_dominio_vacio ∅ 1 1 1 2).
  - lia.
  - lia.
  - vm_compute; reflexivity.
Defined.

(** Scenario 5: two queens, a budget of 100 iterations. *)
Lemma minimos_conflictos_bounded_witness :
  definido (Nreinas.init 2)
  ∧ (∀ x, x ∈ X (Nreinas.init 2) → D (Nreinas.init 2) !!! x ≠ ∅)
  ∧ (Z.of_nat (grado_total enum_asc (Nreinas.init 2)) < infinito)%Z
  ∧ minimos_conflictos Nreinas.restriccion_binaria enum_asc (Nreinas.init 2)
      100 5 [3; 1; 4; 1; 5; 9; 2; 6] = Devuelve None.
Proof.
  assert (∀ x, x ∈ X (Nreinas.init 2) → D (Nreinas.init 2) !!! x ≠ ∅) as Hne.
  { apply (bool_decide_unpack (set_Forall (λ x, D (Nreinas.init 2) !!! x ≠ ∅)
                                          (X (Nreinas.init 2)))).
    vm_compute. exact I. }
  assert (Z.of_nat (grado_total enum_asc (Nreinas.init 2)) < infinito)%Z as Hcota.
  { vm_compute. reflexivity. }
  assert (definido (Nreinas.init 2)) as Hdef by calcula.
  split; [exact Hdef|]. split; [exact Hne|]. split; [exact Hcota|].
  apply (minimos_conflictos_bounded Nreinas.restriccion_binaria enum_asc
           enum_asc_perm (Nreinas.init 2) 100 5 [3; 1; 4; 1; 5; 9; 2; 6]
           Hdef Hne Hcota).
  intros a (Hdom & Hen & Hcons).
  assert (is_Some (a !! 1%Z)) as [v1 H1].
  { apply elem_of_dom. rewrite Hdom. calcula. }
  assert (is_Some (a !! 2%Z)) as [v2 H2].
  { apply elem_of_dom. rewrite Hdom. calcula. }
  assert (2%Z ∈ N (Nreinas.init 2) !!! 1%Z) as Hn by calcula.
  pose proof (Hcons 1%Z 2%Z v1 v2 H1 H2 Hn) as Hrb.
  assert (v1 ∈ (list_to_set [1; 2]%Z : gset Z)) as Hv1 by apply (Hen _ _ H1).
  assert (v2 ∈ (list_to_set [1; 2]%Z : gset Z)) as Hv2 by apply (Hen _ _ H2).
  unfold Nreinas.restriccion_binaria in Hrb.
  set_unfold. destruct Hv1 as [->|[->|[]]], Hv2 as [->|[->|[]]]; done.
Defined.

(** C4, the code at a failing input.  On [cadena], with the values equal
    along the chain, the call [consistencia(csp, {}, 4, 1, 2)] succeeds.
    Forward checking removes 2 from the domain of 3; the revision of 2
    against 3 removes 2 from the domain of 2, after the pair [(1, 2)] was
    taken from the worklist, and that pair is not added again: the value 2
    stays in the domain of 1 without support in the domain of 2. *)
Theorem ac3_requeues_wrong_direction :
  ∃ dom_red csp',
    consistencia mismos_valores enum_asc enumP_asc cadena ∅ 4 1 2
    = Devuelve (Some dom_red, csp')
    ∧ dom_red !! 2%Z = Some ({[ 2%Z ]} : gset Z)
    ∧ D csp' !!! 2%Z = ({[ 1%Z ]} : gset Z)
    ∧ D csp' !!! 1%Z = (list_to_set [1; 2]%Z : gset Z)
    ∧ sin_soporte mismos_valores enum_asc (D csp') 1 2 = ({[ 2%Z ]} : gset Z).
Proof.
  eexists _, _. split; [vm_compute; reflexivity|].
  repeat split; vm_compute; reflexivity.
Qed.

(** C7, the code at a failing input.  With an empty domain
    [minimos_conflictos] raises [IndexError] in the initial assignment,
    where [asignacion_completa] returns [None] at the three levels. *)
Theorem minimos_conflictos_empty_domain_raises :
  minimos_conflictos mismos_valores enum_asc con_dominio_vacio 100 5 []
  = Lanza IndexError
  ∧ Forall (λ nivel,
              ∃ csp', asignacion_completa mismos_valores enum_asc enumP_asc
                        con_dominio_vacio nivel = Devuelve (None, csp'))
           [0; 1; 2].
Proof.
  split; [vm_compute; reflexivity|].
  repeat constructor; eexists; vm_compute; reflexivity.
Qed.

(** ** The problem classes *)

Lemma elem_of_rango a n x : x ∈ rango a n ↔ (a ≤ x < a + Z.of_nat n)%Z.
Proof.
  unfold rango. rewrite list_elem_of_fmap. split.
  - intros (i & -> & Hi%elem_of_seq). lia.
  - intros H. exists (Z.to_nat (x - a)). split; [lia|]. apply elem_of_seq. lia.
Qed.

Lemma lookup_list_to_map_fun {B} (f : Z → B) (l : list Z) x :
  (list_to_map ((λ x, (x, f x)) <$> l) : gmap Z B) !! x
  = if decide (x ∈ l) then Some (f x) else None.
Proof.
  induction l as [|a l IH]; csimpl.
  { rewrite lookup_empty. by destruct (decide (x ∈ [])) as [?%elem_of_nil|]. }
  destruct (decide (x = a)) as [->|Hne].
  - rewrite lookup_insert_eq. destruct (decide (a ∈ a :: l)) as [|[]]; [done|left].
  - rewrite lookup_insert_ne, IH by done.
    destruct (decide (x ∈ l)), (decide (x ∈ a :: l)) as [Hin|Hnot]; try done.
    + destruct Hnot. by right.
    + by apply elem_of_cons in Hin as [?|?].
Qed.

Lemma lookup_enumerate {B} (f : Z → B) (l : list Z) :
  ∀ k z,
  (list_to_map (imap (λ i val, (Z.of_nat (k + i), f val)) l) : gmap Z B) !! z
  = if decide (Z.of_nat k ≤ z)%Z then f <$> l !! (Z.to_nat z - k) else None.
Proof.
  induction l as [|x l IH]; intros k z; simpl.
  { rewrite lookup_empty. by destruct (decide (Z.of_nat k ≤ z)%Z). }
  rewrite (imap_ext _ (λ i val, (Z.of_nat (S k + i), f val)) l).
  2: { intros i y _. simpl. do 2 f_equal. lia. }
  destruct (decide (z = Z.of_nat (k + 0))) as [->|Hne].
  - rewrite lookup_insert_eq. destruct (decide _); [|lia].
    by replace (Z.to_nat (Z.of_nat (k + 0)) - k) with 0 by lia.
  - rewrite lookup_insert_ne, IH by done.
    destruct (decide (Z.of_nat (S k) ≤ z)%Z), (decide (Z.of_nat k ≤ z)%Z);
      try done; try lia.
    by replace (Z.to_nat z - k) with (S (Z.to_nat z - S k)) by lia.
Qed.

Lemma Nreinas_X n x : x ∈ X (Nreinas.init n) ↔ (1 ≤ x ≤ Z.of_nat n)%Z.
Proof. simpl. rewrite elem_of_list_to_set, elem_of_rango. lia. Qed.

Lemma Nreinas_D n x :
  D (Nreinas.init n) !! x
  = if decide (x ∈ rango 1 n) then Some (X (Nreinas.init n)) else None.
Proof. apply (lookup_list_to_map_fun (λ _, list_to_set (rango 1 n))). Qed.

Lemma Nreinas_N n x :
  N (Nreinas.init n) !! x
  = if decide (x ∈ rango 1 n) then Some (X (Nreinas.init n) ∖ {[ x ]}) else None.
Proof.
  apply (lookup_list_to_map_fun (λ x, list_to_set (rango 1 n) ∖ {[ x ]})).
Qed.

Lemma Nreinas_vecinos n x y :
  x ∈ X (Nreinas.init n) →
  y ∈ N (Nreinas.init n) !!! x ↔ y ∈ X (Nreinas.init n) ∧ y ≠ x.
Proof.
  intros Hx. unfold lookup_total, map_lookup_total. rewrite Nreinas_N.
  destruct (decide _) as [|Hno]; simpl; [set_solver|].
  destruct Hno. by apply elem_of_list_to_set in Hx.
Qed.

Lemma Nreinas_bien_formado n : bien_formado (Nreinas.init n).
Proof.
  split; intros x Hx.
  - assert (x ∈ rango 1 n) as Hr by by apply elem_of_list_to_set in Hx.
    rewrite Nreinas_D, Nreinas_N. destruct (decide _); [|done].
    split; [by eexists|]. split; [by eexists|].
    intros y Hy. by apply (Nreinas_vecinos n x y Hx) in Hy as [? _].
  - split; [|split].
    + intros y Hy. by apply (Nreinas_vecinos n x y Hx) in Hy as [? _].
    + intros Hy. by apply (Nreinas_vecinos n x x Hx) in Hy as [_ ?].
    + intros y Hy. apply (Nreinas_vecinos n x y Hx) in Hy as [Hy Hne].
      by apply (Nreinas_vecinos n y x Hy).
Qed.

(** X13. [Nreinas(n)] is a constraint graph for every [n]: the variables
    are the columns 1 to [n], the domain of each is the set of the rows 1 to
    [n], and the neighbours of a variable are all the other variables; its
    predicate is symmetric. *)
Theorem Nreinas_is_constraint_graph n :
  (∀ x, x ∈ X (Nreinas.init n) ↔ (1 ≤ x ≤ Z.of_nat n)%Z)
  ∧ (∀ x, x ∈ X (Nreinas.init n) →
          D (Nreinas.init n) !! x = Some (X (Nreinas.init n))
          ∧ N (Nreinas.init n) !! x = Some (X (Nreinas.init n) ∖ {[ x ]}))
  ∧ bien_formado (Nreinas.init n)
  ∧ simetrica Nreinas.restriccion_binaria.
Proof.
  split; [apply Nreinas_X|]. split; [|split].
  - intros x Hx. rewrite Nreinas_D, Nreinas_N.
    destruct (decide _) as [|Hno]; [done|].
    destruct Hno. by apply elem_of_list_to_set in Hx.
  - apply Nreinas_bien_formado.
  - apply Nreinas_simetrica.
Qed.

Lemma Nreinas_solucion n a :
  solucion Nreinas.restriccion_binaria (Nreinas.init n) a ↔
  tablero n a ∧ sin_ataques a.
Proof.
  unfold solucion, tablero. split.
  - intros (Hdom & Hen & Hcons). split; [split; [done|]|].
    + intros i v Hi.
      assert (i ∈ X (Nreinas.init n)) as Hx.
      { rewrite <- Hdom. apply elem_of_dom. by eexists. }
      specialize (Hen i v Hi). unfold lookup_total, map_lookup_total in Hen.
      rewrite Nreinas_D in Hen. destruct (decide _); simpl in Hen; [|set_solver].
      by apply Nreinas_X in Hen.
    + intros i j vi vj Hi Hj Hne.
      assert (i ∈ X (Nreinas.init n)) as Hxi.
      { rewrite <- Hdom. apply elem_of_dom. by eexists. }
      assert (j ∈ X (Nreinas.init n)) as Hxj.
      { rewrite <- Hdom. apply elem_of_dom. by eexists. }
      assert (j ∈ N (Nreinas.init n) !!! i) as Hn by by apply Nreinas_vecinos.
      specialize (Hcons i j vi vj Hi Hj Hn).
      unfold Nreinas.restriccion_binaria in Hcons.
      apply andb_true_iff in Hcons as [H1 H2].
      apply negb_true_iff in H1, H2. split; lia.
  - intros ([Hdom Hval] & Hsin). split; [done|]. split.
    + intros i v Hi.
      assert (i ∈ X (Nreinas.init n)) as Hx.
      { simpl. rewrite <- Hdom. apply elem_of_dom. by eexists. }
      unfold lookup_total, map_lookup_total. rewrite Nreinas_D.
      destruct (decide _) as [|Hno]; simpl.
      * apply Nreinas_X. by eapply Hval.
      * destruct Hno. by apply elem_of_list_to_set in Hx.
    + intros i j vi vj Hi Hj Hn.
      assert (i ∈ X (Nreinas.init n)) as Hxi.
      { simpl. rewrite <- Hdom. apply elem_of_dom. by eexists. }
      apply (Nreinas_vecinos n i j Hxi) in Hn as [_ Hne].
      destruct (Hsin i j vi vj Hi Hj) as [H1 H2]; [done|].
      unfold Nreinas.restriccion_binaria.
      apply andb_true_iff. split; apply negb_true_iff; lia.
Qed.

Lemma Nreinas_asignacion_completa_aux
    (enum : gset Z → list Z) (enumP : gset (Z * Z) → list (Z * Z))
    (enum_perm : ∀ s, enum s ≡ₚ elements s)
    (enumP_perm : ∀ s, enumP s ≡ₚ elements s) (n nivel : nat) :
  ∃ apn csp',
    asignacion_completa Nreinas.restriccion_binaria enum enumP
      (Nreinas.init n) nivel = Devuelve (apn, csp')
    ∧ match apn with
      | Some a => tablero n a ∧ sin_ataques a
      | None => ∀ a, tablero n a → ¬ sin_ataques a
      end.
Proof.
  destruct (asignacion_completa_correcta Nreinas.restriccion_binaria enum enumP
              enum_perm enumP_perm (Nreinas.init n) nivel)
    as (apn & csp' & Hr & _ & Hres).
  { apply Nreinas_bien_formado. }
  exists apn, csp'. split; [done|].
  apply (resultado_correcto_solucion _ _ _ Nreinas_simetrica) in Hres.
  destruct apn as [a|].
  - by apply Nreinas_solucion.
  - intros a Ht Hs. apply (Hres a). by apply Nreinas_solucion.
Qed.

(** X14. [asignacion_completa] on [Nreinas(n)], for every [n], every level
    and every iteration order of the sets: the call returns; an assignment it
    returns places one queen in each of the columns 1 to [n], in a row from 1
    to [n], and no two queens share a row or a diagonal; [None] is returned
    only when no such placement exists. *)
Theorem Nreinas_asignacion_completa
    (enum : gset Z → list Z) (enumP : gset (Z * Z) → list (Z * Z))
    (enum_perm : ∀ s, enum s ≡ₚ elements s)
    (enumP_perm : ∀ s, enumP s ≡ₚ elements s) (n nivel : nat) :
  ∃ apn csp',
    asignacion_completa Nreinas.restriccion_binaria enum enumP
      (Nreinas.init n) nivel = Devuelve (apn, csp')
    ∧ match apn with
      | Some a => tablero n a ∧ sin_ataques a
      | None => ∀ a, tablero n a → ¬ sin_ataques a
      end.
Proof. by apply Nreinas_asignacion_completa_aux. Qed.

(** *** Sudoku *)

Lemma Sudoku_X pos x : x ∈ X (Sudoku.init pos) ↔ (0 ≤ x < 81)%Z.
Proof.
  change (X (Sudoku.init pos)) with (list_to_set (rango 0 81) : gset Z).
  rewrite elem_of_list_to_set, elem_of_rango. lia.
Qed.

Lemma Sudoku_D pos z :
  D (Sudoku.init pos) !! z
  = if decide (0 ≤ z)%Z then Sudoku.dominio <$> pos !! Z.to_nat z else None.
Proof.
  pose proof (lookup_enumerate Sudoku.dominio pos 0 z) as H. simpl in H.
  rewrite Nat.sub_0_r in H. exact H.
Qed.

Lemma Sudoku_N pos x :
  N (Sudoku.init pos) !! x
  = if decide (x ∈ rango 0 81) then Some (Sudoku.vecinos x) else None.
Proof. apply (lookup_list_to_map_fun Sudoku.vecinos). Qed.

Lemma Sudoku_es_vecino i p :
  Sudoku.es_vecino i p = true ↔
  p ≠ i ∧ se_ven p i.
Proof.
  unfold Sudoku.es_vecino, se_ven, renglon, columna.
  rewrite !Z.div_div by lia. change (9 * 3)%Z with 27%Z.
  rewrite andb_true_iff, negb_true_iff, !orb_true_iff, andb_true_iff.
  rewrite Z.eqb_neq, !Z.eqb_eq. tauto.
Qed.

Lemma Sudoku_vecinos pos i p :
  (0 ≤ i < 81)%Z →
  p ∈ N (Sudoku.init pos) !!! i ↔ (0 ≤ p < 81)%Z ∧ p ≠ i ∧ se_ven p i.
Proof.
  intros Hi. unfold lookup_total, map_lookup_total. rewrite Sudoku_N.
  destruct (decide _) as [|Hno]; simpl.
  - unfold Sudoku.vecinos.
    rewrite elem_of_list_to_set, list_elem_of_filter, elem_of_rango,
      Sudoku_es_vecino.
    split; [intros [[??] ?]|intros (?&?&?)]; repeat split; try done; lia.
  - destruct Hno. apply elem_of_rango. lia.
Qed.

Lemma se_ven_sym i j : se_ven i j → se_ven j i.
Proof. unfold se_ven. intros [?|[?|[??]]]; auto. Qed.

Lemma Sudoku_simetrica : simetrica Sudoku.restriccion_binaria.
Proof.
  intros x_i v_i x_j v_j. unfold Sudoku.restriccion_binaria.
  by rewrite Z.eqb_sym.
Qed.

Lemma Sudoku_vecindad pos : vecindad (Sudoku.init pos).
Proof.
  intros x Hx%Sudoku_X. split; [|split].
  - intros y Hy. apply (Sudoku_vecinos pos x y Hx) in Hy as (? & _).
    by apply Sudoku_X.
  - intros Hy. by apply (Sudoku_vecinos pos x x Hx) in Hy as (_ & ? & _).
  - intros y Hy. apply (Sudoku_vecinos pos x y Hx) in Hy as (Hy & Hne & Hv).
    apply (Sudoku_vecinos pos y x Hy). split; [done|]. split; [done|].
    by apply se_ven_sym.
Qed.

(** X15. The neighbours that [Sudoku] gives to a cell are the other cells
    of its row, of its column and of its group, the group being the one of
    the docstring ([r1//3 == r2//3] and [c1//3 == c2//3]); no cell is its own
    neighbour and the relation is symmetric, for every board. *)
Theorem Sudoku_neighbours pos i p :
  (0 ≤ i < 81)%Z →
  (p ∈ N (Sudoku.init pos) !!! i ↔ (0 ≤ p < 81)%Z ∧ p ≠ i ∧ se_ven p i)
  ∧ (p ∈ N (Sudoku.init pos) !!! i → i ∈ N (Sudoku.init pos) !!! p).
Proof.
  intros Hi. split; [by apply Sudoku_vecinos|].
  intros Hp. pose proof (Sudoku_vecindad pos i) as (_ & _ & Hsym).
  { by apply Sudoku_X. }
  by apply Hsym.
Qed.

(** X16. Every cell of a sudoku has exactly 20 neighbours. *)
Theorem Sudoku_twenty_neighbours pos i :
  (0 ≤ i < 81)%Z → size (N (Sudoku.init pos) !!! i) = 20.
Proof.
  intros Hi.
  assert (Forall (λ i, size (N (Sudoku.init []) !!! i) = 20) (rango 0 81)) as H.
  { apply (bool_decide_unpack _). vm_compute. exact I. }
  rewrite Forall_forall in H. apply (H i). apply elem_of_rango. lia.
Qed.

(** X17. The domain that [Sudoku] gives to a cell: the given value alone
    when it is positive, the values 1 to 9 otherwise; a cell past the end of
    the list has no domain, so the maps are defined on all 81 variables
    exactly when the list has at least 81 entries, and then [Sudoku] is a
    constraint graph. *)
Theorem Sudoku_domains pos :
  (∀ i : nat, D (Sudoku.init pos) !! Z.of_nat i = Sudoku.dominio <$> pos !! i)
  ∧ (∀ val, Sudoku.dominio val
            = if decide (0 < val)%Z then {[ val ]}
              else list_to_set [1; 2; 3; 4; 5; 6; 7; 8; 9]%Z)
  ∧ (definido (Sudoku.init pos) ↔ 81 ≤ length pos)
  ∧ (81 ≤ length pos → bien_formado (Sudoku.init pos)).
Proof.
  assert (∀ i : nat, D (Sudoku.init pos) !! Z.of_nat i
                     = Sudoku.dominio <$> pos !! i) as HD.
  { intros i. rewrite Sudoku_D. destruct (decide _); [|lia].
    by rewrite Nat2Z.id. }
  assert (definido (Sudoku.init pos) ↔ 81 ≤ length pos) as Hdef.
  { split.
    - intros Hd.
      destruct (Hd 80%Z) as ([s Hs] & _); [by apply Sudoku_X|].
      change 80%Z with (Z.of_nat 80) in Hs. rewrite HD in Hs.
      destruct (pos !! 80) as [v|] eqn:Hv; [|done].
      apply lookup_lt_Some in Hv. lia.
    - intros Hlen x Hx. pose proof Hx as Hx'%Sudoku_X.
      split; [|split].
      + replace x with (Z.of_nat (Z.to_nat x)) by lia. rewrite HD.
        destruct (lookup_lt_is_Some_2 pos (Z.to_nat x)) as [v ->]; [lia|].
        by eexists.
      + rewrite Sudoku_N. destruct (decide _) as [|Hno]; [by eexists|].
        destruct Hno. apply elem_of_rango. lia.
      + by destruct (Sudoku_vecindad pos x Hx) as (? & _). }
  split; [done|]. split; [done|]. split; [done|].
  intros Hlen. split; [by apply Hdef|apply Sudoku_vecindad].
Qed.

Lemma elem_of_dominio val v :
  v ∈ Sudoku.dominio val ↔
  if decide (0 < val)%Z then v = val else (1 ≤ v ≤ 9)%Z.
Proof.
  unfold Sudoku.dominio. destruct (decide _).
  - by rewrite elem_of_singleton.
  - rewrite elem_of_list_to_set, elem_of_rango. lia.
Qed.

Lemma Sudoku_solucion pos a :
  81 ≤ length pos →
  solucion Sudoku.restriccion_binaria (Sudoku.init pos) a ↔
  llena pos a ∧ sin_repetidos a.
Proof.
  intros Hlen.
  assert (∀ i : nat, D (Sudoku.init pos) !! Z.of_nat i
                     = Sudoku.dominio <$> pos !! i) as HD.
  { intros i. rewrite Sudoku_D. destruct (decide _); [|lia].
    by rewrite Nat2Z.id. }
  assert (dom a = X (Sudoku.init pos) →
          ∀ x v, a !! x = Some v → (0 ≤ x < 81)%Z) as Hrango.
  { intros Hdom x v Hx. apply (Sudoku_X pos). rewrite <- Hdom.
    apply elem_of_dom. by eexists. }
  unfold solucion, llena. split.
  - intros (Hdom & Hen & Hcons). split; [split; [done|]|].
    + intros i val v Hpos Hi. apply elem_of_dominio.
      specialize (Hen _ _ Hi). unfold lookup_total, map_lookup_total in Hen.
      by rewrite HD, Hpos in Hen.
    + intros i j vi vj Hi Hj Hne Hve.
      assert (j ∈ N (Sudoku.init pos) !!! i) as Hn.
      { apply Sudoku_vecinos; [by eapply Hrango|].
        split; [by eapply Hrango|]. split; [done|]. by apply se_ven_sym. }
      specialize (Hcons i j vi vj Hi Hj Hn).
      unfold Sudoku.restriccion_binaria in Hcons.
      apply negb_true_iff in Hcons. lia.
  - intros ([Hdom Hval] & Hsin). split; [done|]. split.
    + intros x v Hx. pose proof (Hrango Hdom x v Hx) as Hr.
      destruct (lookup_lt_is_Some_2 pos (Z.to_nat x)) as [val Hpos]; [lia|].
      unfold lookup_total, map_lookup_total.
      replace x with (Z.of_nat (Z.to_nat x)) in Hx |- * by lia.
      rewrite HD, Hpos. simpl. apply elem_of_dominio. by eapply Hval.
    + intros x y vx vy Hx Hy Hn.
      apply Sudoku_vecinos in Hn as (_ & Hne & Hve); [|by eapply Hrango].
      assert (vx ≠ vy) as Hdif.
      { apply (Hsin x y vx vy); [done..|by apply se_ven_sym]. }
      unfold Sudoku.restriccion_binaria. apply negb_true_iff. lia.
Qed.

(** X18. [asignacion_completa] on a sudoku board of (at least) 81 entries,
    at every level and for every iteration order of the sets: the call
    returns; an assignment it returns fills the 81 cells, keeps every given
    value, puts a value from 1 to 9 in every other cell, and gives different
    values to any two cells of one row, one column or one group; [None] is
    returned only when the board cannot be filled that way. *)
Theorem Sudoku_asignacion_completa
    (enum : gset Z → list Z) (enumP : gset (Z * Z) → list (Z * Z))
    (enum_perm : ∀ s, enum s ≡ₚ elements s)
    (enumP_perm : ∀ s, enumP s ≡ₚ elements s) (pos : list Z) (nivel : nat) :
  81 ≤ length pos →
  ∃ apn csp',
    asignacion_completa Sudoku.restriccion_binaria enum enumP
      (Sudoku.init pos) nivel = Devuelve (apn, csp')
    ∧ match apn with
      | Some a => llena pos a ∧ sin_repetidos a
      | None => ∀ a, llena pos a → ¬ sin_repetidos a
      end.
Proof.
  intros Hlen.
  destruct (asignacion_completa_correcta Sudoku.restriccion_binaria enum enumP
              enum_perm enumP_perm (Sudoku.init pos) nivel)
    as (apn & csp' & Hr & _ & Hres).
  { apply Sudoku_vecindad. }
  exists apn, csp'. split; [done|].
  apply (resultado_correcto_solucion _ _ _ Sudoku_simetrica) in Hres.
  destruct apn as [a|].
  - by apply Sudoku_solucion.
  - intros a Ht Hs. apply (Hres a). by apply Sudoku_solucion.
Qed.

(** ** Instances of the theorems on the engine *)

(** Four queens, the first one in row 2, at level 2. *)
Lemma consistencia_record_is_exact_witness :
  (2 ∈ D (Nreinas.init 4) !!! 1)%Z ∧ (1 ∉ N (Nreinas.init 4) !!! 1)%Z
  ∧ ∃ r csp',
      consistencia Nreinas.restriccion_binaria enum_asc enumP_asc
        (Nreinas.init 4) ∅ 1 2 2 = Devuelve (Some r, csp')
      ∧ X csp' = X (Nreinas.init 4) ∧ N csp' = N (Nreinas.init 4)
      ∧ backtracking csp' = backtracking (Nreinas.init 4)
      ∧ ∀ x, match r !! x with
             | Some q => q = D (Nreinas.init 4) !!! x ∖ D csp' !!! x
                         ∧ D csp' !!! x ⊆ D (Nreinas.init 4) !!! x
             | None => D csp' !! x = D (Nreinas.init 4) !! x
             end.
Proof.
  split; [calcula|]. split; [calcula|].
  destruct (consistencia Nreinas.restriccion_binaria enum_asc enumP_asc
              (Nreinas.init 4) ∅ 1 2 2) as [[[r|] csp']| |] eqn:H;
    try (vm_compute in H; discriminate).
  exists r, csp'. split; [done|].
  apply (consistencia_record_is_exact Nreinas.restriccion_binaria enum_asc
           enumP_asc enum_asc_perm (Nreinas.init 4) ∅ 1 2 2 r csp').
  - calcula.
  - calcula.
  - exact H.
Defined.

Lemma consistencia_collapses_domain_witness :
  (1 ∉ N (Nreinas.init 4) !!! 1)%Z
  ∧ ∃ r csp',
      consistencia Nreinas.restriccion_binaria enum_asc enumP_asc
        (Nreinas.init 4) ∅ 1 2 1 = Devuelve (Some r, csp')
      ∧ D csp' !!! 1%Z = ({[ 2%Z ]} : gset Z).
Proof.
  split; [calcula|].
  destruct (consistencia Nreinas.restriccion_binaria enum_asc enumP_asc
              (Nreinas.init 4) ∅ 1 2 1) as [[[r|] csp']| |] eqn:H;
    try (vm_compute in H; discriminate).
  exists r, csp'. split; [done|].
  apply (consistencia_collapses_domain Nreinas.restriccion_binaria enum_asc
           enumP_asc enum_asc_perm enumP_asc_perm (Nreinas.init 4) ∅ 1 2 1 r csp').
  - calcula.
  - exact H.
Defined.

(** Four queens, the first one in row 2, at level 1: the second queen keeps
    the row 4 only. *)
Lemma consistencia_forward_checking_witness :
  (1 ∉ N (Nreinas.init 4) !!! 1)%Z ∧ 1 ≤ 1
  ∧ (2 ∈ N (Nreinas.init 4) !!! 1)%Z ∧ (∅ : gmap Z Z) !! 2%Z = None
  ∧ ∃ r csp',
      consistencia Nreinas.restriccion_binaria enum_asc enumP_asc
        (Nreinas.init 4) ∅ 1 2 1 = Devuelve (Some r, csp')
      ∧ D csp' !!! 2%Z ≠ (∅ : gset Z)
      ∧ (∀ w, w ∈ D csp' !!! 2%Z →
              w ∈ D (Nreinas.init 4) !!! 2%Z
              ∧ Nreinas.restriccion_binaria 1 2 2 w = true)
      ∧ (1 ≠ 2 →
         ∀ w, w ∈ D (Nreinas.init 4) !!! 2%Z →
              Nreinas.restriccion_binaria 1 2 2 w = true → w ∈ D csp' !!! 2%Z).
Proof.
  split; [calcula|]. split; [lia|]. split; [calcula|]. split; [done|].
  destruct (consistencia Nreinas.restriccion_binaria enum_asc enumP_asc
              (Nreinas.init 4) ∅ 1 2 1) as [[[r|] csp']| |] eqn:H;
    try (vm_compute in H; discriminate).
  exists r, csp'. split; [done|].
  apply (consistencia_forward_checking Nreinas.restriccion_binaria enum_asc
           enumP_asc enum_asc_perm enumP_asc_perm (Nreinas.init 4) ∅ 1 2 1 r csp'
           2%Z).
  - calcula.
  - lia.
  - exact H.
  - calcula.
  - done.
Defined.

(** Three queens, the first one in row 2: no row is left for the second. *)
Lemma consistencia_rejects_iff_witness :
  definido (Nreinas.init 3) ∧ (1 ∈ X (Nreinas.init 3))%Z
  ∧ (1 ∉ N (Nreinas.init 3) !!! 1)%Z ∧ 1 ≤ 1
  ∧ ((∃ csp',
        consistencia Nreinas.restriccion_binaria enum_asc enumP_asc
          (Nreinas.init 3) ∅ 1 2 1 = Devuelve (None, csp'))
     ↔ (∃ x_j v_j, (∅ : gmap Z Z) !! x_j = Some v_j
                   ∧ x_j ∈ N (Nreinas.init 3) !!! 1%Z
                   ∧ Nreinas.restriccion_binaria 1 2 x_j v_j = false)
       ∨ (1 = 1
          ∧ ∃ x, x ∈ N (Nreinas.init 3) !!! 1%Z ∧ (∅ : gmap Z Z) !! x = None
                 ∧ ∀ w, w ∈ D (Nreinas.init 3) !!! x →
                        Nreinas.restriccion_binaria 1 2 x w = false)).
Proof.
  split; [calcula|]. split; [calcula|]. split; [calcula|]. split; [lia|].
  apply (consistencia_rejects_iff Nreinas.restriccion_binaria enum_asc
           enumP_asc enum_asc_perm (Nreinas.init 3) ∅ 1 2 1).
  - calcula.
  - calcula.
  - calcula.
  - lia.
Defined.

(** Four queens, the first one in row 2 already, the second one in row 4:
    the domain of the first is not touched. *)
Lemma consistencia_frame_witness :
  (1 ≠ 2)%Z
  ∧ ∃ r csp',
      consistencia Nreinas.restriccion_binaria enum_asc enumP_asc
        (Nreinas.init 4) {[ 1%Z := 2%Z ]} 2 4 1 = Devuelve (Some r, csp')
      ∧ D csp' !! 1%Z = D (Nreinas.init 4) !! 1%Z.
Proof.
  split; [lia|].
  destruct (consistencia Nreinas.restriccion_binaria enum_asc enumP_asc
              (Nreinas.init 4) {[ 1%Z := 2%Z ]} 2 4 1) as [[[r|] csp']| |] eqn:H;
    try (vm_compute in H; discriminate).
  exists r, csp'. split; [done|].
  apply (consistencia_frame Nreinas.restriccion_binaria enum_asc
           enumP_asc enum_asc_perm enumP_asc_perm (Nreinas.init 4)
           {[ 1%Z := 2%Z ]} 2 4 1 r csp' 1%Z).
  - exact H.
  - lia.
  - right. left. by rewrite lookup_singleton_eq.
Defined.

Lemma consistencia_level_2_support_witness :
  ∃ r2 c2,
    consistencia Nreinas.restriccion_binaria enum_asc enumP_asc
      (Nreinas.init 4) ∅ 1 2 2 = Devuelve (Some r2, c2)
    ∧ ∃ r1 c1,
        consistencia Nreinas.restriccion_binaria enum_asc enumP_asc
          (Nreinas.init 4) ∅ 1 2 1 = Devuelve (Some r1, c1)
        ∧ (∀ x, D c2 !!! x ⊆ D c1 !!! x)
        ∧ (∀ x, D c1 !!! x ≠ ∅ → D c2 !!! x ≠ ∅)
        ∧ ∀ x y, x ∈ X (Nreinas.init 4) → (∅ : gmap Z Z) !! x = None →
                 y ∈ N (Nreinas.init 4) !!! x → (∅ : gmap Z Z) !! y = None →
                 ∀ vx, vx ∈ D c2 !!! x →
                       soportado Nreinas.restriccion_binaria (D c1) x vx y.
Proof.
  destruct (consistencia Nreinas.restriccion_binaria enum_asc enumP_asc
              (Nreinas.init 4) ∅ 1 2 2) as [[[r2|] c2]| |] eqn:H;
    try (vm_compute in H; discriminate).
  exists r2, c2. split; [done|].
  apply (consistencia_level_2_support Nreinas.restriccion_binaria enum_asc
           enumP_asc enum_asc_perm enumP_asc_perm (Nreinas.init 4) ∅ 1 2 r2 c2).
  exact H.
Defined.

Lemma selecciona_variable_heuristic_witness :
  definido (Nreinas.init 4)
  ∧ match selecciona_variable enum_asc (Nreinas.init 4) {[ 1%Z := 2%Z ]} with
    | Some var =>
        var ∈ X (Nreinas.init 4) ∧ ({[ 1%Z := 2%Z ]} : gmap Z Z) !! var = None
        ∧ ∀ x, x ∈ X (Nreinas.init 4) →
               ({[ 1%Z := 2%Z ]} : gmap Z Z) !! x = None →
               (({[ 1%Z := 2%Z ]} : gmap Z Z) = ∅ →
                size (N (Nreinas.init 4) !!! x) ≤ size (N (Nreinas.init 4) !!! var))
               ∧ (({[ 1%Z := 2%Z ]} : gmap Z Z) ≠ ∅ →
                  size (D (Nreinas.init 4) !!! var) ≤ size (D (Nreinas.init 4) !!! x))
    | None => ∀ x, x ∈ X (Nreinas.init 4) →
                   ({[ 1%Z := 2%Z ]} : gmap Z Z) !! x ≠ None
    end.
Proof.
  split; [calcula|].
  apply (selecciona_variable_heuristic enum_asc enum_asc_perm (Nreinas.init 4)
           {[ 1%Z := 2%Z ]}).
  calcula.
Defined.

Lemma restaura_is_pointwise_union_witness :
  dom ({[ 1%Z := {[ 5%Z ]} ]} : gmap Z (gset Z)) ⊆ dom (D (Nreinas.init 2))
  ∧ dom (restaura (D (Nreinas.init 2)) {[ 1%Z := {[ 5%Z ]} ]})
    = dom (D (Nreinas.init 2))
  ∧ ∀ x, restaura (D (Nreinas.init 2)) {[ 1%Z := {[ 5%Z ]} ]} !!! x
         = D (Nreinas.init 2) !!! x
           ∪ default ∅ (({[ 1%Z := {[ 5%Z ]} ]} : gmap Z (gset Z)) !! x).
Proof.
  split; [calcula|].
  apply (restaura_is_pointwise_union (D (Nreinas.init 2)) {[ 1%Z := {[ 5%Z ]} ]}).
  calcula.
Defined.

(** Two queens: the search fails and counts three backtracks. *)
Lemma backtracking_counter_grows_witness :
  ∃ csp',
    asignacion_grafo_restriccion Nreinas.restriccion_binaria enum_asc enumP_asc
      3 1 (Nreinas.init 2) ∅ = Devuelve (None, csp')
    ∧ backtracking (Nreinas.init 2) ≤ backtracking csp'
    ∧ ((None : option (gmap Z Z)) = None →
       backtracking (Nreinas.init 2) < backtracking csp').
Proof.
  destruct (asignacion_grafo_restriccion Nreinas.restriccion_binaria enum_asc
              enumP_asc 3 1 (Nreinas.init 2) ∅) as [[[a|] csp']| |] eqn:H;
    try (vm_compute in H; discriminate).
  exists csp'. split; [done|].
  apply (backtracking_counter_grows Nreinas.restriccion_binaria enum_asc
           enumP_asc 3 1 (Nreinas.init 2) ∅ None csp').
  exact H.
Defined.

(** Four queens, the search started with the first queen in row 2. *)
Lemma asignacion_grafo_restriccion_from_partial_witness :
  bien_formado (Nreinas.init 4)
  ∧ dom ({[ 1%Z := 2%Z ]} : gmap Z Z) ⊆ X (Nreinas.init 4)
  ∧ size (X (Nreinas.init 4) ∖ dom ({[ 1%Z := 2%Z ]} : gmap Z Z)) < 4
  ∧ ∃ apn csp',
      asignacion_grafo_restriccion Nreinas.restriccion_binaria enum_asc
        enumP_asc 4 1 (Nreinas.init 4) {[ 1%Z := 2%Z ]} = Devuelve (apn, csp')
      ∧ X csp' = X (Nreinas.init 4) ∧ N csp' = N (Nreinas.init 4)
      ∧ D csp' = D (Nreinas.init 4)
      ∧ match apn with
        | Some a =>
            ({[ 1%Z := 2%Z ]} : gmap Z Z) ⊆ a ∧ dom a = X (Nreinas.init 4)
            ∧ (∀ x v, a !! x = Some v →
                      ({[ 1%Z := 2%Z ]} : gmap Z Z) !! x = Some v
                      ∨ v ∈ D (Nreinas.init 4) !!! x)
            ∧ (simetrica Nreinas.restriccion_binaria →
               consistente Nreinas.restriccion_binaria (N (Nreinas.init 4))
                 {[ 1%Z := 2%Z ]} →
               consistente Nreinas.restriccion_binaria (N (Nreinas.init 4)) a)
        | None =>
            ∀ a, ({[ 1%Z := 2%Z ]} : gmap Z Z) ⊆ a → dom a = X (Nreinas.init 4) →
                 en_dominios (D (Nreinas.init 4)) a →
                 ¬ consistente Nreinas.restriccion_binaria (N (Nreinas.init 4)) a
        end.
Proof.
  split; [calcula|]. split; [calcula|]. split; [vm_compute; lia|].
  apply (asignacion_grafo_restriccion_from_partial Nreinas.restriccion_binaria
           enum_asc enumP_asc enum_asc_perm enumP_asc_perm 4 1 (Nreinas.init 4)
           {[ 1%Z := 2%Z ]}).
  - calcula.
  - calcula.
  - vm_compute; lia.
Defined.

(** Four queens: the draws 1, 3, 0, 2 give the rows 2, 4, 1, 3. *)
Lemma minimos_conflictos_returns_solution_witness :
  ∃ a,
    minimos_conflictos Nreinas.restriccion_binaria enum_asc (Nreinas.init 4)
      100 5 [1; 3; 0; 2] = Devuelve (Some a)
    ∧ solucion Nreinas.restriccion_binaria (Nreinas.init 4) a.
Proof.
  destruct (minimos_conflictos Nreinas.restriccion_binaria enum_asc
              (Nreinas.init 4) 100 5 [1; 3; 0; 2]) as [[a|]| |] eqn:H;
    try (vm_compute in H; discriminate).
  exists a. split; [done|].
  apply (minimos_conflictos_returns_solution Nreinas.restriccion_binaria
           enum_asc enum_asc_perm (Nreinas.init 4) 100 5 [1; 3; 0; 2] a).
  exact H.
Defined.

(** Four queens in row 1; the draw 2 picks the third queen, which moves to
    row 4. *)
Lemma repara_minimises_conflicts_witness :
  ∃ st',
    repara Nreinas.restriccion_binaria enum_asc (Nreinas.init 4) cuatro_en_fila
    = Sigue st'
    ∧ ∃ x v,
        asign st' = <[x := v]> (asign cuatro_en_fila)
        ∧ x ∈ X (Nreinas.init 4)
        ∧ 0 < conflictos_de Nreinas.restriccion_binaria enum_asc (Nreinas.init 4)
                (asign cuatro_en_fila) x (asign cuatro_en_fila !!! x)
        ∧ v ∈ D (Nreinas.init 4) !!! x
        ∧ (∀ w, w ∈ D (Nreinas.init 4) !!! x →
                conflictos_de Nreinas.restriccion_binaria enum_asc (Nreinas.init 4)
                  (asign cuatro_en_fila) x v
                ≤ conflictos_de Nreinas.restriccion_binaria enum_asc
                    (Nreinas.init 4) (asign cuatro_en_fila) x w)
        ∧ azar st' = tl (azar cuatro_en_fila)
        ∧ min_conflictos st' = min_conflictos cuatro_en_fila
        ∧ repeticiones st' = repeticiones cuatro_en_fila.
Proof.
  destruct (repara Nreinas.restriccion_binaria enum_asc (Nreinas.init 4)
              cuatro_en_fila) as [a|st'|e] eqn:H;
    try (vm_compute in H; discriminate).
  exists st'. split; [done|].
  apply (repara_minimises_conflicts Nreinas.restriccion_binaria enum_asc
           enum_asc_perm (Nreinas.init 4) cuatro_en_fila st').
  exact H.
Defined.

(** ** Instances of the theorems on the problem classes *)

Lemma Nreinas_asignacion_completa_witness :
  ∃ apn csp',
    asignacion_completa Nreinas.restriccion_binaria enum_asc enumP_asc
      (Nreinas.init 4) 1 = Devuelve (apn, csp')
    ∧ match apn with
      | Some a => tablero 4 a ∧ sin_ataques a
      | None => ∀ a, tablero 4 a → ¬ sin_ataques a
      end.
Proof.
  apply (Nreinas_asignacion_completa enum_asc enumP_asc enum_asc_perm
           enumP_asc_perm 4 1).
Defined.

(** The centre of the board and the cell above it. *)
Lemma Sudoku_neighbours_witness :
  (0 ≤ 40 < 81)%Z
  ∧ ((31%Z ∈ N (Sudoku.init []) !!! 40%Z
      ↔ (0 ≤ 31 < 81)%Z ∧ 31%Z ≠ 40%Z ∧ se_ven 31 40)
     ∧ (31%Z ∈ N (Sudoku.init []) !!! 40%Z → 40%Z ∈ N (Sudoku.init []) !!! 31%Z)).
Proof.
  split; [lia|]. apply (Sudoku_neighbours [] 40 31). lia.
Defined.

Lemma Sudoku_twenty_neighbours_witness :
  (0 ≤ 0 < 81)%Z ∧ size (N (Sudoku.init []) !!! 0%Z) = 20.
Proof.
  split; [lia|]. apply (Sudoku_twenty_neighbours [] 0). lia.
Defined.

Lemma Sudoku_asignacion_completa_witness :
  81 ≤ length s1
  ∧ ∃ apn csp',
      asignacion_completa Sudoku.restriccion_binaria enum_asc enumP_asc
        (Sudoku.init s1) 1 = Devuelve (apn, csp')
      ∧ match apn with
        | Some a => llena s1 a ∧ sin_repetidos a
        | None => ∀ a, llena s1 a → ¬ sin_repetidos a
        end.
Proof.
  split; [vm_compute; lia|].
  apply (Sudoku_asignacion_completa enum_asc enumP_asc enum_asc_perm
           enumP_asc_perm s1 1).
  vm_compute; lia.
Defined.

(** X20. [minimos_conflictos] on the two problem classes: an assignment it
    returns for [Nreinas(n)] is a placement of [n] queens without attacks,
    and one it returns for a sudoku board of at least 81 entries fills the
    board, keeps the given values and repeats no value in a row, a column or
    a group. *)
Theorem minimos_conflictos_on_problem_classes
    (enum : gset Z → list Z) (enum_perm : ∀ s, enum s ≡ₚ elements s)
    (max_iter paciencia : nat) (az : list nat) (a : gmap Z Z) :
  (∀ n, minimos_conflictos Nreinas.restriccion_binaria enum (Nreinas.init n)
          max_iter paciencia az = Devuelve (Some a) →
        tablero n a ∧ sin_ataques a)
  ∧ (∀ pos, 81 ≤ length pos →
        minimos_conflictos Sudoku.restriccion_binaria enum (Sudoku.init pos)
          max_iter paciencia az = Devuelve (Some a) →
        llena pos a ∧ sin_repetidos a).
Proof.
  split.
  - intros n (Hdom & Hen & H0)%(minimos_conflictos_ok _ _ enum_perm).
    apply Nreinas_solucion. split; [done|]. split; [done|].
    apply (total_conflictos_cero _ _ enum_perm); [by rewrite Hdom|done].
  - intros pos Hlen (Hdom & Hen & H0)%(minimos_conflictos_ok _ _ enum_perm).
    apply Sudoku_solucion; [done|]. split; [done|]. split; [done|].
    apply (total_conflictos_cero _ _ enum_perm); [by rewrite Hdom|done].
Qed.

Lemma minimos_conflictos_on_problem_classes_witness :
  ∃ a,
    minimos_conflictos Nreinas.restriccion_binaria enum_asc (Nreinas.init 4)
      100 5 [1; 3; 0; 2] = Devuelve (Some a)
    ∧ tablero 4 a ∧ sin_ataques a.
Proof.
  destruct (minimos_conflictos Nreinas.restriccion_binaria enum_asc
              (Nreinas.init 4) 100 5 [1; 3; 0; 2]) as [[a|]| |] eqn:H;
    try (vm_compute in H; discriminate).
  exists a. split; [done|].
  apply (minimos_conflictos_on_problem_classes enum_asc enum_asc_perm 100 5
           [1; 3; 0; 2] a).
  exact H.
Defined.

Lemma cuatro_reinas_solucion :
  solucion Nreinas.restriccion_binaria (Nreinas.init 4)
    (list_to_map [(1, 2); (2, 4); (3, 1); (4, 3)]%Z).
Proof.
  apply Nreinas_solucion. split; [split; [calcula|]|].
  - apply (bool_decide_unpack
             (map_Forall (λ (_ v : Z), (1 ≤ v ≤ Z.of_nat 4)%Z)
                (list_to_map [(1, 2); (2, 4); (3, 1); (4, 3)]%Z : gmap Z Z))).
    vm_compute. exact I.
  - intros i j vi vj Hi Hj. revert j vj Hj. revert i vi Hi.
    apply (bool_decide_unpack
             (map_Forall (λ (i vi : Z),
                map_Forall (λ (j vj : Z),
                  i ≠ j → vi ≠ vj ∧ Z.abs (vi - vj) ≠ Z.abs (i - j))
                  (list_to_map [(1, 2); (2, 4); (3, 1); (4, 3)]%Z : gmap Z Z))
                (list_to_map [(1, 2); (2, 4); (3, 1); (4, 3)]%Z : gmap Z Z))).
    vm_compute. exact I.
Qed.

(** Four queens: the solution 2, 4, 1, 3 and the first queen in row 2. *)
Lemma consistencia_keeps_solutions_witness :
  bien_formado (Nreinas.init 4) ∧ (1 ∈ X (Nreinas.init 4))%Z
  ∧ solucion Nreinas.restriccion_binaria (Nreinas.init 4)
      (list_to_map [(1, 2); (2, 4); (3, 1); (4, 3)]%Z)
  ∧ (∅ : gmap Z Z) ⊆ list_to_map [(1, 2); (2, 4); (3, 1); (4, 3)]%Z
  ∧ (list_to_map [(1, 2); (2, 4); (3, 1); (4, 3)]%Z : gmap Z Z) !! 1%Z = Some 2%Z
  ∧ ∃ r csp',
      consistencia Nreinas.restriccion_binaria enum_asc enumP_asc
        (Nreinas.init 4) ∅ 1 2 2 = Devuelve (Some r, csp')
      ∧ en_dominios (D csp') (list_to_map [(1, 2); (2, 4); (3, 1); (4, 3)]%Z).
Proof.
  split; [calcula|]. split; [calcula|]. split; [exact cuatro_reinas_solucion|].
  split; [apply map_empty_subseteq|]. split; [vm_compute; reflexivity|].
  apply (consistencia_keeps_solutions Nreinas.restriccion_binaria enum_asc
           enumP_asc enum_asc_perm enumP_asc_perm (Nreinas.init 4) ∅ 1 2 2
           (list_to_map [(1, 2); (2, 4); (3, 1); (4, 3)]%Z)).
  - calcula.
  - calcula.
  - exact cuatro_reinas_solucion.
  - apply map_empty_subseteq.
  - vm_compute; reflexivity.
Defined.

Lemma cuatro_en_fila_ok : estado_ok (Nreinas.init 4) cuatro_en_fila.
Proof.
  split; [calcula|].
  apply (bool_decide_unpack
           (map_Forall (λ (x v : Z), v ∈ D (Nreinas.init 4) !!! x)
                       (asign cuatro_en_fila))).
  vm_compute. exact I.
Qed.

(** Four queens in row 1: twelve conflicts; the third queen moves to row 4
    and six are left. *)
Lemma repara_never_increases_conflicts_witness :
  vecindad (Nreinas.init 4) ∧ simetrica Nreinas.restriccion_binaria
  ∧ estado_ok (Nreinas.init 4) cuatro_en_fila
  ∧ ∃ st',
      repara Nreinas.restriccion_binaria enum_asc (Nreinas.init 4) cuatro_en_fila
      = Sigue st'
      ∧ total_conflictos Nreinas.restriccion_binaria enum_asc (Nreinas.init 4)
          (asign st')
        ≤ total_conflictos Nreinas.restriccion_binaria enum_asc (Nreinas.init 4)
            (asign cuatro_en_fila)
      ∧ ∃ x v,
          asign st' = <[x := v]> (asign cuatro_en_fila)
          ∧ total_conflictos Nreinas.restriccion_binaria enum_asc
              (Nreinas.init 4) (asign st')
            + 2 * conflictos_de Nreinas.restriccion_binaria enum_asc
                    (Nreinas.init 4) (asign cuatro_en_fila) x
                    (asign cuatro_en_fila !!! x)
            = total_conflictos Nreinas.restriccion_binaria enum_asc
                (Nreinas.init 4) (asign cuatro_en_fila)
              + 2 * conflictos_de Nreinas.restriccion_binaria enum_asc
                      (Nreinas.init 4) (asign cuatro_en_fila) x v.
Proof.
  split; [exact (proj2 (Nreinas_bien_formado 4))|].
  split; [exact Nreinas_simetrica|]. split; [exact cuatro_en_fila_ok|].
  destruct (repara Nreinas.restriccion_binaria enum_asc (Nreinas.init 4)
              cuatro_en_fila) as [a|st'|e] eqn:H;
    try (vm_compute in H; discriminate).
  exists st'. split; [done|].
  apply (repara_never_increases_conflicts Nreinas.restriccion_binaria enum_asc
           enum_asc_perm (Nreinas.init 4) cuatro_en_fila st').
  - exact (proj2 (Nreinas_bien_formado 4)).
  - exact Nreinas_simetrica.
  - exact cuatro_en_fila_ok.
  - exact H.
Defined.

(** Three iterations from four queens in row 1. *)
Lemma minimos_conflictos_loop_invariant_witness :
  vecindad (Nreinas.init 4) ∧ simetrica Nreinas.restriccion_binaria
  ∧ (Z.of_nat (grado_total enum_asc (Nreinas.init 4)) < infinito)%Z
  ∧ estado_ok (Nreinas.init 4) cuatro_en_fila
  ∧ (Z.of_nat (total_conflictos Nreinas.restriccion_binaria enum_asc
                 (Nreinas.init 4) (asign cuatro_en_fila))
     ≤ min_conflictos cuatro_en_fila)%Z
  ∧ ∃ st,
      corre Nreinas.restriccion_binaria enum_asc (Nreinas.init 4) 5 3
        cuatro_en_fila = Some st
      ∧ estado_ok (Nreinas.init 4) st
      ∧ (Z.of_nat (total_conflictos Nreinas.restriccion_binaria enum_asc
                     (Nreinas.init 4) (asign st)) ≤ min_conflictos st)%Z.
Proof.
  assert (Z.of_nat (grado_total enum_asc (Nreinas.init 4)) < infinito)%Z as Hcota.
  { vm_compute. reflexivity. }
  assert (Z.of_nat (total_conflictos Nreinas.restriccion_binaria enum_asc
                      (Nreinas.init 4) (asign cuatro_en_fila))
          ≤ min_conflictos cuatro_en_fila)%Z as Hinv.
  { vm_compute. discriminate. }
  split; [exact (proj2 (Nreinas_bien_formado 4))|].
  split; [exact Nreinas_simetrica|]. split; [exact Hcota|].
  split; [exact cuatro_en_fila_ok|]. split; [exact Hinv|].
  destruct (corre Nreinas.restriccion_binaria enum_asc (Nreinas.init 4) 5 3
              cuatro_en_fila) as [st|] eqn:H;
    try (vm_compute in H; discriminate).
  exists st. split; [done|].
  apply (minimos_conflictos_loop_invariant Nreinas.restriccion_binaria enum_asc
           enum_asc_perm (Nreinas.init 4) 5 3 cuatro_en_fila st).
  - exact (proj2 (Nreinas_bien_formado 4)).
  - exact Nreinas_simetrica.
  - exact Hcota.
  - exact cuatro_en_fila_ok.
  - exact Hinv.
  - exact H.
Defined.

Lemma minimos_conflictos_raises_iff_witness :
  definido con_dominio_vacio
  ∧ (Z.of_nat (grado_total enum_asc con_dominio_vacio) < infinito)%Z
  ∧ (minimos_conflictos mismos_valores enum_asc con_dominio_vacio 100 5 []
     = Lanza IndexError
     ↔ ∃ x, x ∈ X con_dominio_vacio ∧ D con_dominio_vacio !!! x = ∅)
  ∧ ((∀ x, x ∈ X con_dominio_vacio → D con_dominio_vacio !!! x ≠ ∅) ↔
     ∃ r, minimos_conflictos mismos_valores enum_asc con_dominio_vacio 100 5 []
          = Devuelve r).
Proof.
  assert (Z.of_nat (grado_total enum_asc con_dominio_vacio) < infinito)%Z
    as Hcota.
  { vm_compute. reflexivity. }
  split; [calcula|]. split; [exact Hcota|].
  apply (minimos_conflictos_raises_iff mismos_valores enum_asc enum_asc_perm
           con_dominio_vacio 100 5 []).
  - calcula.
  - exact Hcota.
Defined.

Lemma con_dominio_vacio_bien_formado : bien_formado con_dominio_vacio.
Proof. calcula. Qed.

Lemma asignacion_completa_empty_domain_witness :
  bien_formado con_dominio_vacio ∧ (2 ∈ X con_dominio_vacio)%Z
  ∧ D con_dominio_vacio !!! 2%Z = (∅ : gset Z)
  ∧ ∃ csp',
      asignacion_completa mismos_valores enum_asc enumP_asc con_dominio_vacio 2
      = Devuelve (None, csp')
      ∧ 0 < backtracking csp'.
Proof.
  split; [calcula|]. split; [calcula|]. split; [vm_compute; reflexivity|].
  apply (asignacion_completa_empty_domain mismos_valores enum_asc enumP_asc
           enum_asc_perm enumP_asc_perm con_dominio_vacio 2 2).
  - calcula.
  - calcula.
  - vm_compute; reflexivity.
Defined.

Lemma rango_lookup a n i :
  i < n → rango a n !! i = Some (a + Z.of_nat i)%Z.
Proof.
  intros Hi. unfold rango. rewrite list_lookup_fmap, lookup_seq_lt by done.
  done.
Qed.

Lemma length_rango a n : length (rango a n) = n.
Proof. unfold rango. by rewrite length_fmap, length_seq. Qed.

(** X25. The script [prueba_reinas], for every [n], level and iteration
    order: it either prints a list of [n] rows, each from 1 to [n], no two
    equal and no two on a diagonal, or stops with the [TypeError] of
    subscripting [None], and that only when [n] queens cannot be placed (as
    for 2 and 3 queens); nothing else happens. *)
Theorem prueba_reinas_prints_placement
    (enum : gset Z → list Z) (enumP : gset (Z * Z) → list (Z * Z))
    (enum_perm : ∀ s, enum s ≡ₚ elements s)
    (enumP_perm : ∀ s, enumP s ≡ₚ elements s) (n nivel : nat) :
  match prueba_reinas Nreinas.restriccion_binaria enum enumP
          (Nreinas.init n) n nivel with
  | Imprime filas _ =>
      length filas = n
      ∧ Forall (λ v, 1 ≤ v ≤ Z.of_nat n)%Z filas
      ∧ ∀ i j vi vj, filas !! i = Some vi → filas !! j = Some vj → i ≠ j →
                     vi ≠ vj
                     ∧ Z.abs (vi - vj) ≠ Z.abs (Z.of_nat i - Z.of_nat j)
  | ErrorDeTipo => ∀ a, tablero n a → ¬ sin_ataques a
  | ErrorDeLlave | Interrumpida => False
  end.
Proof.
  unfold prueba_reinas.
  destruct (Nreinas_asignacion_completa_aux enum enumP enum_perm enumP_perm n nivel)
    as (apn & csp' & -> & Hres).
  destruct apn as [a|]; [|done].
  destruct Hres as [[Hdom Hval] Hsin].
  destruct (mapM (λ i, a !! i) (rango 1 n)) as [filas|] eqn:Hm.
  - apply mapM_Some in Hm.
    assert (length filas = n) as Hlen.
    { apply Forall2_length in Hm. by rewrite length_rango in Hm. }
    assert (∀ i v, filas !! i = Some v → a !! (1 + Z.of_nat i)%Z = Some v) as Hf.
    { intros i v Hi.
      destruct (Forall2_lookup_r _ _ _ _ _ Hm Hi) as (x & Hx & Hax).
      rewrite rango_lookup in Hx.
      - by simplify_eq.
      - apply lookup_lt_Some in Hi. lia. }
    split; [done|]. split.
    + apply Forall_lookup. intros i v Hi. by eapply Hval, Hf.
    + intros i j vi vj Hi Hj Hne.
      destruct (Hsin _ _ _ _ (Hf _ _ Hi) (Hf _ _ Hj)) as [H1 H2]; [lia|].
      split; [done|].
      by replace (Z.of_nat i - Z.of_nat j)%Z
        with (1 + Z.of_nat i - (1 + Z.of_nat j))%Z by lia.
  - assert (is_Some (mapM (λ i, a !! i) (rango 1 n))) as [? Hs]; [|congruence].
    apply mapM_is_Some, Forall_forall. intros i Hi. simpl.
    apply elem_of_dom. rewrite Hdom. by apply elem_of_list_to_set.
Qed.

Lemma prueba_reinas_prints_placement_witness :
  match prueba_reinas Nreinas.restriccion_binaria enum_asc enumP_asc
          (Nreinas.init 4) 4 1 with
  | Imprime filas _ =>
      length filas = 4
      ∧ Forall (λ v, 1 ≤ v ≤ Z.of_nat 4)%Z filas
      ∧ ∀ i j vi vj, filas !! i = Some vi → filas !! j = Some vj → i ≠ j →
                     vi ≠ vj
                     ∧ Z.abs (vi - vj) ≠ Z.abs (Z.of_nat i - Z.of_nat j)
  | ErrorDeTipo => ∀ a, tablero 4 a → ¬ sin_ataques a
  | ErrorDeLlave | Interrumpida => False
  end.
Proof.
  apply (prueba_reinas_prints_placement enum_asc enumP_asc enum_asc_perm
           enumP_asc_perm 4 1).
Defined.

(** Four queens at level 1 print the rows 2, 4, 1, 3 and four backtracks;
    two queens stop with the [TypeError]. *)
Example prueba_reinas_cuatro_y_dos :
  prueba_reinas Nreinas.restriccion_binaria enum_asc enumP_asc
    (Nreinas.init 4) 4 1 = Imprime [2; 4; 1; 3]%Z 4
  ∧ prueba_reinas Nreinas.restriccion_binaria enum_asc enumP_asc
      (Nreinas.init 2) 2 1 = ErrorDeTipo.
Proof. split; vm_compute; reflexivity. Qed.

(** Four queens at level 1: the dictionary after the search holds the
    placement, and any later call on the variables 1 to 4 returns it. *)
Lemma default_dictionary_is_shared_witness :
  ∃ a csp' d,
    asignacion_grafo_restriccion_dict Nreinas.restriccion_binaria enum_asc
      enumP_asc 5 1 (Nreinas.init 4) ∅ = Devuelve (Some a, csp', d)
    ∧ d = a ∧ dom a = X (Nreinas.init 4)
    ∧ ∀ m consist2 csp2, X csp2 = X (Nreinas.init 4) →
        asignacion_grafo_restriccion_dict Nreinas.restriccion_binaria enum_asc
          enumP_asc (S m) consist2 csp2 d = Devuelve (Some a, csp2, d).
Proof.
  destruct (asignacion_grafo_restriccion_dict Nreinas.restriccion_binaria
              enum_asc enumP_asc 5 1 (Nreinas.init 4) ∅)
    as [[[[a|] csp'] d]| |] eqn:H;
    try (vm_compute in H; discriminate).
  exists a, csp', d. split; [done|].
  apply (default_dictionary_is_shared Nreinas.restriccion_binaria enum_asc
           enumP_asc 5 1 (Nreinas.init 4) a csp' d).
  exact H.
Defined.
